(** * gexf-render-video: slicer, temporal layout and rasterizer

    A shallow embedding of the three command-line programs of the
    repository (the GEXF slicer, the slice layout and the frame renderer)
    and the properties of their specification.

    Conventions of the embedding.
    - A JavaScript number is a [num]: NaN, the two infinities, or a finite
      value carried as an exact rational.  Rounding of IEEE doubles is not
      modelled; where only finite values occur a plain [Q] is used.
    - [Math.sqrt], [Math.pow], [Math.random], [Date.parse] and the canvas
      are host functions: they are fields of the classes [MathHost],
      [RandomHost], [DateHost] and [Canvas], never given a meaning here.
    - A typed array is a [list Z] written with stdpp's [<[i:=v]>], storing
      values modulo the width of its elements.
    - A JavaScript object used as a dictionary is a [gmap string _]. *)

From Stdlib Require Import QArith Qround Lqa ZArith Lia List Bool String Ascii.
From Stdlib Require Import Sorted Permutation.
From stdpp Require Import base list gmap strings.

Set Warnings "-register-all".

(** ** JavaScript numbers *)

Module JS.

Inductive num : Type :=
| NaN
| NegInf
| Fin (q : Q)
| PosInf.

Definition Qltb (x y : Q) : bool := negb (Qle_bool y x).

(** [a < b] *)
Definition lt (a b : num) : bool :=
  match a, b with
  | NaN, _ | _, NaN => false
  | NegInf, NegInf => false
  | NegInf, _ => true
  | Fin _, NegInf => false
  | Fin x, Fin y => Qltb x y
  | Fin _, PosInf => true
  | PosInf, _ => false
  end.

(** [a <= b] *)
Definition le (a b : num) : bool :=
  match a, b with
  | NaN, _ | _, NaN => false
  | NegInf, _ => true
  | Fin _, NegInf => false
  | Fin x, Fin y => Qle_bool x y
  | Fin _, PosInf => true
  | PosInf, PosInf => true
  | PosInf, _ => false
  end.

(** [a > b] is [b < a] *)
Definition gt (a b : num) : bool := lt b a.

Definition neg (a : num) : num :=
  match a with
  | NaN => NaN
  | NegInf => PosInf
  | Fin q => Fin (- q)
  | PosInf => NegInf
  end.

(** [a + b] *)
Definition add (a b : num) : num :=
  match a, b with
  | NaN, _ | _, NaN => NaN
  | NegInf, PosInf | PosInf, NegInf => NaN
  | NegInf, _ | _, NegInf => NegInf
  | PosInf, _ | _, PosInf => PosInf
  | Fin x, Fin y => Fin (x + y)
  end.

(** [a - b] *)
Definition sub (a b : num) : num :=
  match a, b with
  | Fin x, Fin y => Fin (x - y)
  | _, _ => add a (neg b)
  end.

Definition sign_mul (inf : num) (q : Q) : num :=
  if Qeq_bool q 0 then NaN else if Qltb 0 q then inf else neg inf.

(** [a * b] *)
Definition mul (a b : num) : num :=
  match a, b with
  | NaN, _ | _, NaN => NaN
  | Fin x, Fin y => Fin (x * y)
  | Fin x, inf => sign_mul inf x
  | inf, Fin y => sign_mul inf y
  | NegInf, NegInf | PosInf, PosInf => PosInf
  | NegInf, PosInf | PosInf, NegInf => NegInf
  end.

(** [Math.min(a, b)] and [Math.max(a, b)] *)
Definition min (a b : num) : num :=
  match a, b with
  | NaN, _ | _, NaN => NaN
  | _, _ => if lt b a then b else a
  end.

Definition max (a b : num) : num :=
  match a, b with
  | NaN, _ | _, NaN => NaN
  | _, _ => if lt a b then b else a
  end.

(** [isNaN(a)] *)
Definition isNaN (a : num) : bool :=
  match a with NaN => true | _ => false end.

(** Truthiness of a number: everything but [0] and [NaN]. *)
Definition truthy (a : num) : bool :=
  match a with
  | NaN => false
  | Fin q => negb (Qeq_bool q 0)
  | _ => true
  end.

(** Truthiness of a string, and of a string that may be [undefined]:
    everything but the empty string. *)
Definition truthy_str (s : string) : bool := negb (String.eqb s "").

Definition truthy_opt (o : option string) : bool :=
  match o with
  | Some s => truthy_str s
  | None => false
  end.

(** Truthiness of a value that is a boolean or [undefined]. *)
Definition truthy_ob (o : option bool) : bool :=
  match o with
  | Some b => b
  | None => false
  end.

(** Equality of numbers up to the representation of the rational. *)
Definition eqv (a b : num) : Prop :=
  match a, b with
  | NaN, NaN | NegInf, NegInf | PosInf, PosInf => True
  | Fin x, Fin y => (x == y)%Q
  | _, _ => False
  end.

(** *** Unary plus on strings

    The decimal literals [[+-]digits[.digits]] of JavaScript's string to
    number conversion; the empty string converts to [0], and every other
    string (exponents, hexadecimal, spaces and names are left out) to
    [NaN]. *)

Definition digit_of (c : ascii) : option Z :=
  let n := Z.of_nat (nat_of_ascii c) in
  if ((48 <=? n) && (n <=? 57))%Z then Some (n - 48)%Z else None.

Fixpoint digits_val (s : string) (acc : Z) : option Z :=
  match s with
  | EmptyString => Some acc
  | String c r =>
      match digit_of c with
      | Some d => digits_val r (10 * acc + d)%Z
      | None => None
      end
  end.

Fixpoint split_dot (s : string) : string * option string :=
  match s with
  | EmptyString => (EmptyString, None)
  | String c r =>
      if Ascii.eqb c "."%char then (EmptyString, Some r)
      else let (a, b) := split_dot r in (String c a, b)
  end.

Definition unsigned_number (s : string) : num :=
  let (ip, fp) := split_dot s in
  let fs := match fp with Some f => f | None => EmptyString end in
  if (String.eqb ip "" && String.eqb fs "")%bool then NaN
  else
    match digits_val ip 0, digits_val fs 0 with
    | Some i, Some f =>
        Fin (inject_Z i + inject_Z f / inject_Z (10 ^ Z.of_nat (String.length fs)))
    | _, _ => NaN
    end.

Definition to_number (s : string) : num :=
  match s with
  | EmptyString => Fin 0
  | String c r =>
      if Ascii.eqb c "-"%char then neg (unsigned_number r)
      else if Ascii.eqb c "+"%char then unsigned_number r
      else unsigned_number s
  end.

End JS.

(** ** Host functions *)

(** The functions of the runtime the programs call and that are left
    uninterpreted: [Date.parse]; [Math.sqrt] and [Math.pow]; the stream of
    values returned by successive calls of [Math.random]. *)
Class DateHost : Type := {
  Date_parse : string -> JS.num
}.

Class MathHost : Type := {
  Math_sqrt : Q -> Q;
  Math_pow : Q -> Q -> Q
}.

Class RandomHost : Type := {
  Math_random : nat -> Q
}.

(** ** The slicer (slice-gexf) *)

Module Slicer.

Import JS.

(** An element of the parsed XML document.  [getAttribute] of the parser
    gives the empty string for an attribute that is absent. *)
Inductive domnode : Type :=
| Element (tag : string) (attrs : gmap string string) (children : list domnode).

Definition tagName (d : domnode) : string :=
  match d with Element t _ _ => t end.

Definition getAttribute (d : domnode) (name : string) : string :=
  match d with Element _ a _ => default EmptyString (a !! name) end.

(** All descendants, in document order. *)
Fixpoint descendants (d : domnode) : list domnode :=
  match d with
  | Element _ _ cs => flat_map (fun c => c :: descendants c) cs
  end.

Definition getElementsByTagName (d : domnode) (name : string) : list domnode :=
  List.filter (fun c => String.eqb (tagName c) name) (descendants d).

(** The command-line options: a value is a string, or [undefined] when
    the option is not given. *)
Record options : Type := mkOptions {
  opt_input : string;
  opt_range : option string;
  opt_step : option string
}.

Record slice : Type := mkSlice {
  s_start : num;
  s_end : num;
  s_nodes : list (string * string);
  s_edges : list (string * string)
}.

Section WithHost.
Context {dates : DateHost}.

(** [timeParser], chosen by the [timeformat] attribute of the graph. *)
Definition timeParser (timeformat : string) (s : string) : num :=
  if String.eqb timeformat "date" then Date_parse s
  else if String.eqb timeformat "dateTime" then Date_parse s
  else to_number s.

Definition date_like (timeformat : string) : bool :=
  String.eqb timeformat "date" || String.eqb timeformat "dateTime".

Definition windowRangeDefault (timeformat : string) : Q :=
  if date_like timeformat then 7 * 24 * 60 * 60 else 1.

Definition windowStepDefault (timeformat : string) : Q :=
  if date_like timeformat then 24 * 60 * 60 else 1 # 10.

Definition windowUnitRatio (timeformat : string) : Q :=
  if date_like timeformat then 1000 else 1.

(** [(options.range ? +options.range : windowRangeDefault) * windowUnitRatio] *)
Definition windowRange (o : options) (timeformat : string) : num :=
  mul (if truthy_opt (opt_range o)
       then to_number (default EmptyString (opt_range o))
       else Fin (windowRangeDefault timeformat))
      (Fin (windowUnitRatio timeformat)).

(** [(options.range ? +options.range : windowStepDefault) * windowUnitRatio] *)
Definition windowStep (o : options) (timeformat : string) : num :=
  mul (if truthy_opt (opt_range o)
       then to_number (default EmptyString (opt_range o))
       else Fin (windowStepDefault timeformat))
      (Fin (windowUnitRatio timeformat)).

(** *** Earliest and latest dates *)

(** [pileDates]: the date strings of one element, added to the keys of
    [dates]. *)
Definition pileDates (timerepresentation : string) (d : domnode)
    (dates : gmap string bool) : gmap string bool :=
  if String.eqb timerepresentation "interval" then
    let dates1 :=
      if truthy_str (getAttribute d "start")
      then <[getAttribute d "start" := true]> dates else dates in
    if truthy_str (getAttribute d "end")
    then <[getAttribute d "end" := true]> dates1 else dates1
  else
    if truthy_str (getAttribute d "timestamp")
    then <[getAttribute d "timestamp" := true]> dates else dates.

Definition nodeDates (timerepresentation : string) (nodeDomnode : domnode)
    : list string :=
  let dates := pileDates timerepresentation nodeDomnode ∅ in
  let dates' :=
    match getElementsByTagName nodeDomnode "spells" with
    | spellsDomnode :: _ =>
        fold_left (fun acc sp => pileDates timerepresentation sp acc)
                  (getElementsByTagName spellsDomnode "spell") dates
    | [] => dates
    end in
  (map_to_list dates').*1.

(** The pair [(dateMin, dateMax)] after the scan of the node elements,
    from [(Infinity, -Infinity)].  The dates of a node are taken in the
    order of the map, which [Math.min] and [Math.max] do not depend on. *)
Definition dateEnvelope (timeformat timerepresentation : string)
    (nodeDomnodes : list domnode) : num * num :=
  fold_left
    (fun mm nd =>
       fold_left (fun '(lo, hi) d0 =>
                    let date := timeParser timeformat d0 in
                    (JS.min lo date, JS.max hi date))
                 (nodeDates timerepresentation nd) mm)
    nodeDomnodes (PosInf, NegInf).

(** *** The loop that builds the empty slices

    [for (let i = dateMin; i <= dateMax - windowRange; i += windowStep)].
    The state of the loop is the counter [i] and the array [slices]. *)
Definition loop_state : Type := num * list slice.

Definition slices_step (dateMax wRange wStep : num) (st : loop_state)
    : option loop_state :=
  let '(i, slices) := st in
  if le i (sub dateMax wRange)
  then Some (add i wStep, slices ++ [mkSlice i (add i wRange) [] []])
  else None.

(** The state after at most [n] turns of the loop. *)
Fixpoint slices_iter (n : nat) (dateMax wRange wStep : num) (st : loop_state)
    : loop_state :=
  match n with
  | O => st
  | S n' =>
      match slices_step dateMax wRange wStep st with
      | Some st' => slices_iter n' dateMax wRange wStep st'
      | None => st
      end
  end.

(** The array at the exit of the loop, [None] when the loop has not left
    after [fuel] tests of its condition. *)
Fixpoint slices_run (fuel : nat) (dateMax wRange wStep : num) (st : loop_state)
    : option (list slice) :=
  match fuel with
  | O => None
  | S fuel' =>
      match slices_step dateMax wRange wStep st with
      | Some st' => slices_run fuel' dateMax wRange wStep st'
      | None => Some (snd st)
      end
  end.

Definition build_slices (fuel : nat) (dateMin dateMax wRange wStep : num)
    : option (list slice) :=
  slices_run fuel dateMax wRange wStep (dateMin, []).

(** The slicer from its options to the empty slices. *)
Definition slicer (fuel : nat) (o : options) (timeformat : string)
    (dateMin dateMax : num) : option (list slice) :=
  build_slices fuel dateMin dateMax
               (windowRange o timeformat) (windowStep o timeformat).

(** *** The enumeration of the windows in the words of the specification

    The number of [k] with [dateMin + k * step + range <= dateMax], the
    slices [S_k] from a start on, and what it is for an array to be the
    windows [S_0], [S_1], ... of the envelope. *)
Definition turns (dmin dmax range step : Q) : nat :=
  Z.to_nat (Qfloor ((dmax - range - dmin) / step) + 1).

Fixpoint expected_slices (range step : Q) (i : Q) (m : nat) : list slice :=
  match m with
  | O => []
  | S m' => mkSlice (Fin i) (Fin (i + range)) [] []
            :: expected_slices range step (i + step) m'
  end.

Definition enumerates (dmin dmax range step : Q) (slices : list slice) : Prop :=
  (forall k : nat,
      (k < length slices)%nat
      <-> (dmin + inject_Z (Z.of_nat k) * step + range <= dmax)%Q)
  /\ (forall (k : nat) (s : slice),
        slices !! k = Some s ->
        eqv (s_start s) (Fin (dmin + inject_Z (Z.of_nat k) * step))
        /\ s_end s = add (s_start s) (Fin range))
  /\ (forall (k : nat) (s s' : slice),
        slices !! k = Some s -> slices !! S k = Some s' ->
        eqv (s_start s') (add (s_start s) (Fin step))).

(** *** Membership of a node in a slice *)

(** [overlapDomnodeSlice], interval representation.  The function returns
    nothing ([undefined]) for an element with neither [start] nor [end]. *)
Definition overlapDomnodeSlice_interval (timeformat : string)
    (d : domnode) (s : slice) : option bool :=
  let start := getAttribute d "start" in
  let end_ := getAttribute d "end" in
  if truthy_str start || truthy_str end_ then
    let startDate :=
      if truthy_str start then timeParser timeformat start else NegInf in
    let endDate :=
      if truthy_str end_ then timeParser timeformat end_ else PosInf in
    Some (negb (lt endDate (s_start s) || lt (s_end s) startDate))
  else None.

(** [overlapDomnodeSlice], timestamp representation. *)
Definition overlapDomnodeSlice_timestamp (timeformat : string)
    (d : domnode) (s : slice) : option bool :=
  let timestamp := getAttribute d "timestamp" in
  if truthy_str timestamp then
    let tsDate := timeParser timeformat timestamp in
    Some (le (s_start s) tsDate && lt tsDate (s_end s))
  else Some false.

(** The loop over the [spell] elements: [true] at the first spell that
    overlaps, nothing when the loop runs to its end. *)
Fixpoint spells_loop (overlap : domnode -> slice -> option bool)
    (spellDomnodes : list domnode) (s : slice) : option bool :=
  match spellDomnodes with
  | [] => None
  | sp :: rest =>
      if truthy_ob (overlap sp s) then Some true
      else spells_loop overlap rest s
  end.

Definition check_spells (overlap : domnode -> slice -> option bool)
    (nodeDomnode : domnode) (s : slice) : option bool :=
  match getElementsByTagName nodeDomnode "spells" with
  | spellsDomnode :: _ =>
      spells_loop overlap (getElementsByTagName spellsDomnode "spell") s
  | [] => None
  end.

(** [checkNodeSlice], interval representation. *)
Definition checkNodeSlice_interval (timeformat : string)
    (nodeDomnode : domnode) (s : slice) : option bool :=
  let start := getAttribute nodeDomnode "start" in
  let end_ := getAttribute nodeDomnode "end" in
  if truthy_str start || truthy_str end_
  then overlapDomnodeSlice_interval timeformat nodeDomnode s
  else check_spells (overlapDomnodeSlice_interval timeformat) nodeDomnode s.

(** [checkNodeSlice], timestamp representation. *)
Definition checkNodeSlice_timestamp (timeformat : string)
    (nodeDomnode : domnode) (s : slice) : option bool :=
  if truthy_str (getAttribute nodeDomnode "timestamp")
  then overlapDomnodeSlice_timestamp timeformat nodeDomnode s
  else check_spells (overlapDomnodeSlice_timestamp timeformat) nodeDomnode s.

(** [if (checkNodeSlice(nodeDomnode, slice))]: the node is pushed into
    the slice. *)
Definition active_interval (timeformat : string) (nodeDomnode : domnode)
    (s : slice) : bool :=
  truthy_ob (checkNodeSlice_interval timeformat nodeDomnode s).

(** The slices filled with the nodes, one node after the other;
    [checkNodeSlice] is the function of the time representation. *)
Definition fill_slices (checkNodeSlice : domnode -> slice -> option bool)
    (nodeDomnodes : list domnode) (slices : list slice) : list slice :=
  fold_left
    (fun sl nd =>
       List.map (fun s =>
              if truthy_ob (checkNodeSlice nd s)
              then mkSlice (s_start s) (s_end s)
                     (s_nodes s ++ [(getAttribute nd "id", getAttribute nd "label")])
                     (s_edges s)
              else s) sl)
    nodeDomnodes slices.

(** *** The membership rule in the words of the specification

    The element has an own interval when [start] or [end] is given; a
    missing bound is infinite; the element is active when its own interval
    or the interval of any of its spells overlaps the slice. *)
Definition has_interval (d : domnode) : bool :=
  truthy_str (getAttribute d "start") || truthy_str (getAttribute d "end").

Definition startDate_of (timeformat : string) (d : domnode) : num :=
  if truthy_str (getAttribute d "start")
  then timeParser timeformat (getAttribute d "start") else NegInf.

Definition endDate_of (timeformat : string) (d : domnode) : num :=
  if truthy_str (getAttribute d "end")
  then timeParser timeformat (getAttribute d "end") else PosInf.

Definition overlaps (startDate endDate : num) (s : slice) : bool :=
  negb (lt endDate (s_start s) || lt (s_end s) startDate).

Definition interval_overlaps (timeformat : string) (d : domnode) (s : slice) : bool :=
  has_interval d && overlaps (startDate_of timeformat d) (endDate_of timeformat d) s.

(** The [spell] elements the slicer reads: those below the first [spells]
    element of the node. *)
Definition spells_of (nodeDomnode : domnode) : list domnode :=
  match getElementsByTagName nodeDomnode "spells" with
  | spellsDomnode :: _ => getElementsByTagName spellsDomnode "spell"
  | [] => []
  end.

Definition spec_active_interval (timeformat : string) (nodeDomnode : domnode)
    (s : slice) : bool :=
  interval_overlaps timeformat nodeDomnode s
  || existsb (fun sp => interval_overlaps timeformat sp s) (spells_of nodeDomnode).

End WithHost.

End Slicer.

(** ** The sampled slice ([--sample]) of layout-slices and render-video *)

Module Sample.

Import JS.

(** A property key is an array index when it is the canonical decimal
    writing of a natural number: digits only, no leading zero. *)
Definition canonical_index (key : string) : option nat :=
  match key with
  | EmptyString => None
  | String c r =>
      if (Ascii.eqb c "0"%char && negb (String.eqb r ""))%bool then None
      else option_map Z.to_nat (digits_val key 0)
  end.

(** [data.slices[options.sample]]: [None] is [undefined]. *)
Definition slices_at {A : Type} (slices : list A) (sample : string) : option A :=
  match canonical_index sample with
  | Some i => slices !! i
  | None => None
  end.

(** [options.sample < 0 || options.sample > data.slices.length] *)
Definition out_of_range {A : Type} (slices : list A) (sample : string) : bool :=
  lt (to_number sample) (Fin 0)
  || lt (Fin (inject_Z (Z.of_nat (length slices)))) (to_number sample).

(** The branch taken on [options.sample]. *)
Inductive sample_outcome (A : Type) : Type :=
| AllSlices
| Rejected
| Sampled (s : option A).

Arguments AllSlices {A}.
Arguments Rejected {A}.
Arguments Sampled {A} s.

Definition sample_slice {A : Type} (slices : list A) (sample : option string)
    : sample_outcome A :=
  if truthy_opt sample then
    let s := default EmptyString sample in
    if out_of_range slices s then Rejected
    else Sampled (slices_at slices s)
  else AllSlices.

End Sample.

(** ** The graph of a slice *)

Module Graph.

Record edge : Type := mkEdge {
  e_source : string;
  e_target : string;
  e_undirected : bool
}.

(** A mixed graph without self loops nor parallel edges: nodes, with
    their attributes of type [A], and edges, in insertion order. *)
Record graph (A : Type) : Type := mkGraph {
  g_nodes : list (string * A);
  g_edges : list edge
}.

Arguments mkGraph {A} g_nodes g_edges.
Arguments g_nodes {A} g.
Arguments g_edges {A} g.

Section Operations.
Context {A : Type}.

Definition empty : graph A := mkGraph [] [].

(** [g.nodes()] *)
Definition nodes (g : graph A) : list string := (g_nodes g).*1.

(** [g.order] *)
Definition order (g : graph A) : nat := length (g_nodes g).

Definition hasNode (g : graph A) (nid : string) : bool :=
  existsb (fun p => String.eqb (fst p) nid) (g_nodes g).

(** [g.getNodeAttributes(nid)] *)
Definition getNodeAttributes (g : graph A) (nid : string) : option A :=
  option_map snd (List.find (fun p => String.eqb (fst p) nid) (g_nodes g)).

Definition hasDirectedEdge (g : graph A) (s t : string) : bool :=
  existsb (fun e => negb (e_undirected e)
                    && String.eqb (e_source e) s && String.eqb (e_target e) t)
          (g_edges g).

(** [g.addNode(nid, attributes)]: fails on a node that exists. *)
Definition addNode (g : graph A) (nid : string) (a : A) : option (graph A) :=
  if hasNode g nid then None
  else Some (mkGraph (g_nodes g ++ [(nid, a)]) (g_edges g)).

(** [g.addEdge(source, target)]: on a mixed graph the edge is directed;
    fails on a missing end, a self loop, or an edge that exists. *)
Definition addEdge (g : graph A) (s t : string) : option (graph A) :=
  if negb (hasNode g s) || negb (hasNode g t) then None
  else if String.eqb s t then None
  else if hasDirectedEdge g s t then None
  else Some (mkGraph (g_nodes g) (g_edges g ++ [mkEdge s t false])).

(** Modelled from the spec: the graph library is not part of the
    sources; in-degree on the mixed graph counts the incoming directed
    edges plus all undirected incident edges. *)
Definition incoming (nid : string) (e : edge) : bool :=
  if e_undirected e
  then String.eqb (e_source e) nid || String.eqb (e_target e) nid
  else String.eqb (e_target e) nid.

Definition inDegree (g : graph A) (nid : string) : nat :=
  length (List.filter (incoming nid) (g_edges g)).

(** The number of directed edges that end at the node. *)
Definition directedInDegree (g : graph A) (nid : string) : nat :=
  length (List.filter (fun e => negb (e_undirected e) && String.eqb (e_target e) nid)
                      (g_edges g)).

(** [g.forEachNeighbor(nid, callback)]: each adjacent node once, those of
    the incoming edges, then of the outgoing ones, then of the undirected
    ones. *)
Definition neighbors (g : graph A) (nid : string) : list string :=
  let dir := List.filter (fun e => negb (e_undirected e)) (g_edges g) in
  let und := List.filter e_undirected (g_edges g) in
  let ins := List.map e_source (List.filter (fun e => String.eqb (e_target e) nid) dir) in
  let outs := List.map e_target (List.filter (fun e => String.eqb (e_source e) nid) dir) in
  let us := List.map (fun e => if String.eqb (e_source e) nid then e_target e else e_source e)
              (List.filter (fun e => String.eqb (e_source e) nid || String.eqb (e_target e) nid) und) in
  List.nodup string_dec (ins ++ outs ++ us).

(** Assignment to the attributes of one node. *)
Definition updateNode (f : A -> A) (nid : string) (g : graph A) : graph A :=
  mkGraph (List.map (fun p => if String.eqb (fst p) nid then (fst p, f (snd p)) else p)
                    (g_nodes g))
          (g_edges g).

(** The slice as read from the JSON file: the objects of its nodes, and
    the source and target of its edges. *)
Record slice : Type := mkSlice {
  s_nodes : list A;
  s_edges : list (string * string)
}.

(** [buildNetwork(slice)], and the first lines of [renderFrame(slice)];
    [id_of] reads the [id] of a node object. *)
Definition buildNetwork (id_of : A -> string) (s : slice) : option (graph A) :=
  g1 ← foldl (fun og n => og ≫= fun g => addNode g (id_of n) n)
             (Some empty) (s_nodes s);
  foldl (fun og e => og ≫= fun g => addEdge g (fst e) (snd e))
        (Some g1) (s_edges s).

End Operations.

Arguments slice A : clear implicits.
Arguments mkSlice {A} s_nodes s_edges.

End Graph.

(** ** The temporal layout (layout-slices) *)

Module Layout.

Import JS Graph.
Local Open Scope Q_scope.

(** The attributes of a node: the object of the slice, with the
    coordinates and the size the layout adds.  [None] is [undefined]. *)
Record node : Type := mkNode {
  n_id : string;
  n_label : string;
  n_x : option Q;
  n_y : option Q;
  n_size : option Q
}.

Abbreviation graph := (Graph.graph node).

Record options : Type := mkOptions {
  opt_sample : option string;
  opt_nodesizemin : option string;
  opt_nodesizefactor : option string;
  opt_nodesizepower : option string
}.

(** [+value || d]: the number of the option, [d] when the option is
    absent (its number is then NaN) or when its number is [0] or NaN.  The
    decimal literals convert to a finite number or to NaN. *)
Definition number_or (value : option string) (d : Q) : Q :=
  match value with
  | Some s =>
      match to_number s with
      | Fin q => if Qeq_bool q 0 then d else q
      | _ => d
      end
  | None => d
  end.

Definition sizeMin (o : options) : Q := number_or (opt_nodesizemin o) 10.
Definition sizeFactor (o : options) : Q := number_or (opt_nodesizefactor o) 2.
Definition sizePower (o : options) : Q := number_or (opt_nodesizepower o) 1.

(** Truthiness of a coordinate: a number that is not [0]. *)
Definition truthy_coord (c : option Q) : bool :=
  match c with
  | Some q => negb (Qeq_bool q 0)
  | None => false
  end.

Definition coord (c : option Q) : Q := default 0%Q c.

Section WithHost.
Context {math : MathHost} {random : RandomHost}.

Definition node_size (o : options) (g : graph) (nid : string) : Q :=
  Math_sqrt (sizeMin o
             + sizeFactor o
               * Math_pow (inject_Z (Z.of_nat (inDegree g nid))) (sizePower o)).

(** [setNodeSizes(g)] *)
Definition setNodeSizes (o : options) (g : graph) : graph :=
  foldl (fun g' nid =>
           updateNode (fun n => mkNode (n_id n) (n_label n) (n_x n) (n_y n)
                                       (Some (node_size o g nid)))
                      nid g')
        g (nodes g).

(** [Math.sqrt(g.order) * 100] *)
Definition spreading (g : graph) : Q :=
  Math_sqrt (inject_Z (Z.of_nat (order g))) * 100.

(** The callback of [forEachNeighbor]: the running [x], [y] and
    [count]. *)
Definition add_neighbor (g : graph) (acc : Q * Q * nat) (n2id : string)
    : Q * Q * nat :=
  let '(x, y, count) := acc in
  match getNodeAttributes g n2id with
  | Some n2 =>
      if truthy_coord (n_x n2) && truthy_coord (n_y n2)
      then (x + coord (n_x n2), y + coord (n_y n2), S count)
      else acc
  | None => acc
  end.

(** One turn of the first loop of the seeding: the index of the new
    positions and the number of calls of [Math.random] so far. *)
Definition seed_node (g : graph) (st : gmap string (Q * Q) * nat) (nid : string)
    : gmap string (Q * Q) * nat :=
  let '(nodesIndex, calls) := st in
  match getNodeAttributes g nid with
  | Some n =>
      if negb (truthy_coord (n_x n)) || negb (truthy_coord (n_y n)) then
        let '(x, y, count) := foldl (add_neighbor g) (0, 0, O) (neighbors g nid) in
        if Nat.eqb count 0 then
          let x' := (Math_random calls - (1 # 2)) * spreading g in
          let y' := (Math_random (S calls) - (1 # 2)) * spreading g in
          (<[nid := (x', y')]> nodesIndex, S (S calls))
        else (<[nid := (x, y)]> nodesIndex, calls)
      else st
  | None => st
  end.

Definition seed_index (g : graph) : gmap string (Q * Q) * nat :=
  foldl (seed_node g) (∅, O) (nodes g).

(** The second loop: the positions of the index written to the nodes. *)
Definition assign_index (nodesIndex : gmap string (Q * Q)) (g : graph) : graph :=
  mkGraph
    (List.map (fun p =>
            match nodesIndex !! fst p with
            | Some (x, y) =>
                (fst p, mkNode (n_id (snd p)) (n_label (snd p)) (Some x) (Some y)
                               (n_size (snd p)))
            | None => p
            end) (g_nodes g))
    (g_edges g).

(** The initial positions of [renderLayout(g, false)]. *)
Definition initial_positions (g : graph) : graph :=
  assign_index (fst (seed_index g)) g.

(** The initial positions of [renderLayout(g, true)]: a random layout. *)
Definition random_positions (g : graph) : graph :=
  mkGraph
    (imap (fun i p =>
             (fst p, mkNode (n_id (snd p)) (n_label (snd p))
                       (Some ((Math_random (2 * i)%nat - (1 # 2)) * spreading g))
                       (Some ((Math_random (2 * i + 1)%nat - (1 # 2)) * spreading g))
                       (n_size (snd p))))
          (g_nodes g))
    (g_edges g).

(** The position of a node. *)
Definition position (g : graph) (nid : string) : option (Q * Q) :=
  n ← getNodeAttributes g nid;
  x ← n_x n;
  y ← n_y n;
  Some (x, y).

(** *** The seeding in the words of the specification

    The neighbours that have a position, and the arithmetic mean of their
    positions. *)
Definition positioned_neighbors (g : graph) (nid : string) : list (Q * Q) :=
  omap (fun n2id =>
          n2 ← getNodeAttributes g n2id;
          if truthy_coord (n_x n2) && truthy_coord (n_y n2)
          then Some (coord (n_x n2), coord (n_y n2)) else None)
       (neighbors g nid).

Definition sum_positions (ps : list (Q * Q)) : Q * Q :=
  foldl (fun acc p => (fst acc + fst p, snd acc + snd p)) (0, 0) ps.

Definition mean_position (ps : list (Q * Q)) : Q * Q :=
  let s := sum_positions ps in
  let n := inject_Z (Z.of_nat (length ps)) in
  (fst s / n, snd s / n).

End WithHost.

End Layout.

(** ** The rasterizer (render-video) *)

(** The canvas of the label collision test, a host object: the blank
    bitmap, the bounding area of the label of a node (nothing when the
    path is empty or the box is not a number or not positive), the test
    of the area against the bitmap, and the area and the node stamped into
    the bitmap. *)
Class Canvas (node : Type) : Type := {
  canvas : Type;
  area : Type;
  blank : canvas;
  label_area : node -> option area;
  hits : canvas -> area -> bool;
  stamp : canvas -> area -> node -> canvas
}.

Module Render.

Import JS Graph.
Local Open Scope Q_scope.

(** The attributes of a node once the missing data are filled in:
    coordinates and size are numbers; [n_vid] is [undefined] until the
    Voronoi pass. *)
Record node : Type := mkNode {
  n_id : string;
  n_label : string;
  n_x : Q;
  n_y : Q;
  n_size : Q;
  n_vid : option Z
}.

Abbreviation graph := (Graph.graph node).

Record settings : Type := mkSettings {
  image_width : Q;
  image_height : Q;
  rendering_dpi : Q;
  voronoi_range : Q;
  voronoi_resolution_max : Q;
  label_count : num
}.

(** [value || d] on a number. *)
Definition or_else (value d : Q) : Q :=
  if Qeq_bool value 0 then d else value.

Definition inch_per_mm : Q := 393701 # 10000000.

(** *** Typed arrays *)

(** [new Uint8Array(n)] and the like: [n] zeros. *)
Definition new_array (n : Z) : list Z := replicate (Z.to_nat n) 0%Z.

(** The value kept by an array of [bits]-bit unsigned integers. *)
Definition typed (bits : Z) (v : Z) : Z := (v mod 2 ^ bits)%Z.

(** [a[i]], [None] for [undefined]. *)
Definition read {B : Type} (a : list B) (i : Z) : option B :=
  if (i <? 0)%Z then None else a !! Z.to_nat i.

(** [a[i] = v] *)
Definition write (bits : Z) (a : list Z) (i : Z) (v : Z) : list Z :=
  if (i <? 0)%Z then a else <[Z.to_nat i := typed bits v]> a.

(** The integers of [for (x = lo; x <= hi; x++)]. *)
Definition for_range (lo hi : Z) : list Z := seqZ lo (hi - lo + 1).

(** *** The Voronoi field *)

(** The width of the elements of [vidPixelMap], chosen on [g.order]. *)
Definition vid_bits (order : nat) : Z :=
  if (Z.of_nat order <? 255)%Z then 8%Z
  else if (Z.of_nat order <? 65535)%Z then 16%Z
  else 32%Z.

(** [n.vid = vid] for every [vid > 0] of [nodesIndex]. *)
Definition assign_vids (g : graph) : graph :=
  foldl (fun g' '(vid, nid) =>
           updateNode (fun n => mkNode (n_id n) (n_label n) (n_x n) (n_y n)
                                       (n_size n) (Some (Z.of_nat vid)))
                      nid g')
        g (imap (fun i nid => (S i, nid)) (nodes g)).

Record voronoi : Type := mkVoronoi {
  vidPixelMap : list Z;
  dPixelMap : list Z;
  v_width : Z;
  v_height : Z;
  v_ratio : Q
}.

Section WithHost.
Context {math : MathHost}.

(** The reduction ratio and the reduced dimensions. *)
Definition reduce (resolution_max : Q) (w h : Z) : Q * Z * Z :=
  if Qltb resolution_max (inject_Z (w * h)) then
    let ratio := Math_sqrt (resolution_max / inject_Z (w * h)) in
    (ratio, Qfloor (ratio * inject_Z w), Qfloor (ratio * inject_Z h))
  else (1, w, h).

Definition dim_w (st : settings) : Z :=
  Qfloor (image_width st * rendering_dpi st * inch_per_mm).

Definition dim_h (st : settings) : Z :=
  Qfloor (image_height st * rendering_dpi st * inch_per_mm).

(** The geometry of one node in the reduced bitmap. *)
Definition nsize_of (ratio : Q) (n : node) : Q := ratio * n_size n * 1.
Definition nx_of (ratio : Q) (n : node) : Q := ratio * n_x n.
Definition ny_of (ratio : Q) (n : node) : Q := ratio * n_y n.

(** The distance of the pixel to the node. *)
Definition distance (ratio : Q) (n : node) (x y : Z) : Q :=
  Math_sqrt (Math_pow (nx_of ratio n - inject_Z x) 2
             + Math_pow (ny_of ratio n - inject_Z y) 2).

(** The modified distance. *)
Definition dmod_of (ratio vrange : Q) (n : node) (d : Q) : Q :=
  if Qle_bool d (nsize_of ratio n) then 0
  else (d - nsize_of ratio n) / (vrange * ratio).

(** The body of the two loops over the pixels of a node. *)
Definition voronoi_pixel (bits width : Z) (ratio vrange : Q) (n : node)
    (x y : Z) (maps : list Z * list Z) : list Z * list Z :=
  let '(vmap, dmap) := maps in
  let range := nsize_of ratio n + vrange * ratio in
  let d := distance ratio n x y in
  if Qltb d range then
    let dmod := dmod_of ratio vrange n d in
    let i := (x + (width + 1) * y)%Z in
    let closer :=
      (write bits vmap i (default 0%Z (n_vid n)),
       write 8 dmap i (Qfloor (dmod * 255))) in
    match read vmap i with
    | Some existingVid =>
        if (existingVid =? 0)%Z then closer
        else
          match read dmap i with
          | Some dstored =>
              if Qltb (dmod * 255) (inject_Z dstored) then closer else maps
          | None => maps
          end
    | None => maps
    end
  else maps.

Definition x_range (width : Z) (ratio vrange : Q) (n : node) : list Z :=
  let range := nsize_of ratio n + vrange * ratio in
  for_range (Z.max 0 (Qfloor (nx_of ratio n - range)))
            (Z.min width (Qfloor (nx_of ratio n + range))).

Definition y_range (height : Z) (ratio vrange : Q) (n : node) : list Z :=
  let range := nsize_of ratio n + vrange * ratio in
  for_range (Z.max 0 (Qfloor (ny_of ratio n - range)))
            (Z.min height (Qfloor (ny_of ratio n + range))).

(** The pixels of one node. *)
Definition voronoi_node (bits width height : Z) (ratio vrange : Q)
    (maps : list Z * list Z) (n : node) : list Z * list Z :=
  foldl (fun m x =>
           foldl (fun m' y => voronoi_pixel bits width ratio vrange n x y m')
                 m (y_range height ratio vrange n))
        maps (x_range width ratio vrange n).

(** The loop over [g.nodes()]. *)
Definition voronoi_nodes (bits width height : Z) (ratio vrange : Q)
    (g : graph) (maps : list Z * list Z) : list Z * list Z :=
  foldl (fun m nid =>
           match getNodeAttributes g nid with
           | Some n => voronoi_node bits width height ratio vrange m n
           | None => m
           end)
        maps (nodes g).

(** [getVoronoiData()]: the graph with its voronoi ids and the field. *)
Definition getVoronoiData (st : settings) (g : graph) : graph * voronoi :=
  let resolution_max := or_else (voronoi_resolution_max st) 100000000 in
  let vrange := voronoi_range st * rendering_dpi st * inch_per_mm in
  let '(ratio, width, height) := reduce resolution_max (dim_w st) (dim_h st) in
  let g' := assign_vids g in
  let bits := vid_bits (order g') in
  let cells := ((width + 1) * (height + 1))%Z in
  let vmap0 := new_array cells in
  let dmap0 := replicate (Z.to_nat cells) 255%Z in
  let '(vmap, dmap) :=
    voronoi_nodes bits width height ratio vrange g' (vmap0, dmap0) in
  (g', mkVoronoi vmap dmap width height ratio).

(** *** The Voronoi field, pixel by pixel

    The node claims the pixel when the two loops reach it and the pixel is
    in the range of the node; its claim is the stored modified
    distance. *)
Definition claims (width height : Z) (ratio vrange : Q) (n : node) (x y : Z)
    : option Z :=
  if bool_decide (x ∈ x_range width ratio vrange n)
     && bool_decide (y ∈ y_range height ratio vrange n)
     && Qltb (distance ratio n x y) (nsize_of ratio n + vrange * ratio)
  then Some (Qfloor (dmod_of ratio vrange n (distance ratio n x y) * 255))
  else None.

(** The first of the nodes with the least claim on the pixel: its rank
    in the iteration and its claim. *)
Fixpoint closest_from (k : nat) (cs : list (option Z)) (best : option (nat * Z))
    : option (nat * Z) :=
  match cs with
  | [] => best
  | c :: rest =>
      let best' :=
        match c, best with
        | Some d, Some (_, db) => if (d <? db)%Z then Some (k, d) else best
        | Some d, None => Some (k, d)
        | None, _ => best
        end in
      closest_from (S k) rest best'
  end.

Definition closest (cs : list (option Z)) : option (nat * Z) :=
  closest_from 0 cs None.

End WithHost.

(** *** Hillshading: the neighbours of a pixel *)

Definition i_left (width i : Z) : Z :=
  if (i mod (width + 1) =? 0)%Z then i else (i - 1)%Z.

Definition i_right (width i : Z) : Z :=
  if (i mod (width + 1) =? (width + 1) - 1)%Z then i else (i + 1)%Z.

Definition i_top (width i : Z) : Z :=
  if (i <? width + 1)%Z then i else (i - (width + 1))%Z.

Definition i_bottom (width height i : Z) : Z :=
  if (i >? (width + 1) * ((height + 1) - 1))%Z then i else (i + (width + 1))%Z.

(** The number read in the height map; [undefined] is NaN in the
    arithmetic. *)
Definition height_at (hPixelMap : list Q) (i : Z) : num :=
  match read hPixelMap i with
  | Some h => Fin h
  | None => NaN
  end.

(** [dx] and [dy] of the pixel [i]. *)
Definition hillshading_dx (width : Z) (hPixelMap : list Q) (i : Z) : num :=
  sub (height_at hPixelMap (i_left width i)) (height_at hPixelMap (i_right width i)).

Definition hillshading_dy (width height : Z) (hPixelMap : list Q) (i : Z) : num :=
  sub (height_at hPixelMap (i_top width i)) (height_at hPixelMap (i_bottom width height i)).

(** [dxPixelMap] and [dyPixelMap] of [getHillshadingData()]. *)
Definition hillshading_gradients (width height : Z) (hPixelMap : list Q)
    : list (num * num) :=
  imap (fun i _ => (hillshading_dx width hPixelMap (Z.of_nat i),
                    hillshading_dy width height hPixelMap (Z.of_nat i)))
       hPixelMap.

(** The four neighbours are elements of the height map. *)
Definition neighbours_in_bounds (width height i : Z) : bool :=
  let cells := ((width + 1) * (height + 1))%Z in
  let inb j := ((0 <=? j) && (j <? cells))%Z in
  inb (i_left width i) && inb (i_right width i)
  && inb (i_top width i) && inb (i_bottom width height i).

(** *** Nodes by size, and the visible labels *)

(** [Array.prototype.sort]: a stable sort; [compare a b > 0] puts [b]
    first. *)
Fixpoint sort_insert {B : Type} (compare : B -> B -> Z) (a : B) (l : list B) : list B :=
  match l with
  | [] => [a]
  | b :: rest =>
      if (compare a b >? 0)%Z then b :: sort_insert compare a rest
      else a :: l
  end.

Definition js_sort {B : Type} (compare : B -> B -> Z) (l : list B) : list B :=
  foldr (sort_insert compare) [] l.

(** The comparison of the attributes: by size, then by x. *)
Definition compare_attributes (na nb : node) : Z :=
  if Qltb (n_size na) (n_size nb) then 1
  else if Qltb (n_size nb) (n_size na) then (-1)
  else if Qltb (n_x na) (n_x nb) then 1
  else if Qltb (n_x nb) (n_x na) then (-1)
  else 0.

(** The comparison function of [getNodesBySize]; its arguments are
    identifiers of [g.nodes()], whose attributes exist. *)
Definition compare_nodes (g : graph) (naid nbid : string) : Z :=
  match getNodeAttributes g naid, getNodeAttributes g nbid with
  | Some na, Some nb => compare_attributes na nb
  | _, _ => 0
  end.

(** [getNodesBySize()] *)
Definition getNodesBySize (g : graph) : list string :=
  rev (js_sort (compare_nodes g) (nodes g)).

Section WithCanvas.
Context {cv : Canvas node}.

(** One turn of the loop over the nodes: the bitmap, [labelDrawCount] and
    [visibleLabels]. *)
Definition label_step (g : graph) (st : canvas * num * list string) (nid : string)
    : canvas * num * list string :=
  let '(ctx, labelDrawCount, visibleLabels) := st in
  match getNodeAttributes g nid with
  | Some n =>
      if gt labelDrawCount (Fin 0) then
        match label_area n with
        | Some a =>
            if hits ctx a then st
            else (stamp ctx a n, sub labelDrawCount (Fin 1), visibleLabels ++ [nid])
        | None => st
        end
      else st
  | None => st
  end.

(** [getVisibleLabels(options)] *)
Definition getVisibleLabels (st : settings) (g : graph) : list string :=
  let nodesBySize := rev (getNodesBySize g) in
  snd (foldl (label_step g) (blank, label_count st, []) nodesBySize).

End WithCanvas.

End Render.

(** ** Plain objects used as dictionaries *)

Module JSObject.

(** A plain object [{}] used as a dictionary is a [gmap]; the embedding is
    faithful for the keys that are not properties of [Object.prototype]: a
    read of such a key finds the inherited property, and an assignment to
    [__proto__] adds no key. *)
Definition prototype_keys : list string :=
  ["__proto__"; "constructor"; "hasOwnProperty"; "isPrototypeOf";
   "propertyIsEnumerable"; "toLocaleString"; "toString"; "valueOf";
   "__defineGetter__"; "__defineSetter__"; "__lookupGetter__";
   "__lookupSetter__"]%string.

Definition plain_key (k : string) : bool :=
  negb (existsb (String.eqb k) prototype_keys).

Definition plain_keys (ks : list string) : bool := forallb plain_key ks.

End JSObject.

(** ** The run of slice-gexf, from the document to the slices *)

Module SliceGexf.

Import JS Slicer.

(** How a run ends: by [process.exit()], which ends the process with the
    status 0; by an uncaught [TypeError]; still in the loop of the slices
    when the fuel is spent; or with the slices. *)
Inductive outcome : Type :=
| Exited (status : Z)
| Thrown
| Running
| Sliced (slices : list slice).

(** [graphDomnode.getAttribute("mode") !== "dynamic"] *)
Definition mode_dynamic (graphDomnode : domnode) : bool :=
  String.eqb (getAttribute graphDomnode "mode") "dynamic".

(** The time formats that pass the check. *)
Definition timeformat_supported (timeformat : string) : bool :=
  String.eqb timeformat "date" || String.eqb timeformat "dateTime"
  || String.eqb timeformat "integer" || String.eqb timeformat ""
  || String.eqb timeformat "double".

(** The time representations that pass the check. *)
Definition timerepresentation_supported (timerepresentation : string) : bool :=
  String.eqb timerepresentation "interval" || String.eqb timerepresentation ""
  || String.eqb timerepresentation "timestamp".

(** [pileDates], [overlapDomnodeSlice] and [checkNodeSlice] are assigned
    under these two representations only, and are [undefined] under any
    other. *)
Definition functions_assigned (timerepresentation : string) : bool :=
  String.eqb timerepresentation "interval"
  || String.eqb timerepresentation "timestamp".

(** The elements the program reads: the first [graph] of the first
    [gexf], the [node] elements of its first [nodes] element, and its first
    [edges] element. *)
Definition graph_element (doc : domnode) : option domnode :=
  gexfDomnode ← head (getElementsByTagName doc "gexf");
  head (getElementsByTagName gexfDomnode "graph").

Definition node_elements (graphDomnode : domnode) : option (list domnode) :=
  nodesDomnode ← head (getElementsByTagName graphDomnode "nodes");
  Some (getElementsByTagName nodesDomnode "node").

Definition edges_element (graphDomnode : domnode) : option domnode :=
  head (getElementsByTagName graphDomnode "edges").

(** The identifier and the label pushed for an active node. *)
Definition node_entry (nodeDomnode : domnode) : string * string :=
  (getAttribute nodeDomnode "id", getAttribute nodeDomnode "label").

Section WithHost.
Context {dates : DateHost}.

(** [checkNodeSlice], once assigned. *)
Definition checkNodeSlice (timeformat timerepresentation : string)
    : domnode -> slice -> option bool :=
  if String.eqb timerepresentation "interval"
  then checkNodeSlice_interval timeformat
  else checkNodeSlice_timestamp timeformat.

(** The program on the parsed document [doc].  [item(0)] of an empty
    list is [null], and the call of a method on [null], or of a function
    that is [undefined] (as [pileDates] is on the first node when it was
    not assigned), throws. *)
Definition slice_gexf (fuel : nat) (o : options) (doc : domnode) : outcome :=
  match getElementsByTagName doc "gexf" with
  | [] => Thrown
  | gexfDomnode :: _ =>
  match getElementsByTagName gexfDomnode "graph" with
  | [] => Thrown
  | graphDomnode :: _ =>
  match getElementsByTagName graphDomnode "nodes" with
  | [] => Thrown
  | nodesDomnode :: _ =>
  let nodeDomnodes := getElementsByTagName nodesDomnode "node" in
  match getElementsByTagName graphDomnode "edges" with
  | [] => Thrown
  | edgesDomnode :: _ =>
  if negb (mode_dynamic graphDomnode) then Exited 0 else
  let timeformat := getAttribute graphDomnode "timeformat" in
  if negb (timeformat_supported timeformat) then Exited 0 else
  let timerepresentation := getAttribute graphDomnode "timerepresentation" in
  if negb (timerepresentation_supported timerepresentation) then Exited 0 else
  if negb (functions_assigned timerepresentation)
     && negb (Nat.eqb (length nodeDomnodes) 0)
  then Thrown else
  let '(dateMin, dateMax) :=
    dateEnvelope timeformat timerepresentation nodeDomnodes in
  match build_slices fuel dateMin dateMax
                     (windowRange o timeformat) (windowStep o timeformat) with
  | None => Running
  | Some slices =>
      Sliced (fill_slices (checkNodeSlice timeformat timerepresentation)
                          nodeDomnodes slices)
  end
  end end end end.

End WithHost.

End SliceGexf.


(** ** The loop over the slices of layout-slices *)

Module LayoutRun.

Import JS Graph Layout.
Local Open Scope Q_scope.

(** The coordinates kept for the next slice: [{x: n.x, y: n.y}]. *)
Abbreviation last_position := (option Q * option Q)%type.

(** [n.x = last.x; n.y = last.y] *)
Definition set_position (last : last_position) (n : node) : node :=
  mkNode (n_id n) (n_label n) (fst last) (snd last) (n_size n).

(** "Get positions from last time": every node found in [lastNodesIndex]
    takes the coordinates kept there.  The test [if (last)] is on the
    object, which is truthy whatever its coordinates; the keys a plain
    object inherits from its prototype are left out of the index. *)
Definition inherit_positions (lastNodesIndex : gmap string last_position)
    (g : graph) : graph :=
  foldl (fun g' nid =>
           updateNode (fun n =>
                         match lastNodesIndex !! nid with
                         | Some last => set_position last n
                         | None => n
                         end)
                      nid g')
        g (nodes g).

(** "Update index": the index is emptied, then filled with the
    coordinates of the nodes of the slice that was just laid out. *)
Definition positions_index (g : graph) : gmap string last_position :=
  foldl (fun idx nid =>
           match getNodeAttributes g nid with
           | Some n => <[nid := (n_x n, n_y n)]> idx
           | None => idx
           end)
        ∅ (nodes g).

End LayoutRun.

(** ** The text of a label *)

Module LabelText.

Import JS.
Local Open Scope Q_scope.

Section Strings.
(** A string is the list of its code units; [ellipsis] is the code unit
    of the character U+2026. *)
Context {char : Type}.
Variable ellipsis : char.

(** [string.substr(0, length)]: the length is truncated to an integer, and
    nothing is taken when it is not positive or not a number. *)
Definition substr_from_0 (s : list char) (len : num) : list char :=
  match len with
  | Fin q => take (Z.to_nat (Qfloor q)) s
  | PosInf => s
  | _ => []
  end.

(** [string.length] *)
Definition string_length (s : list char) : num :=
  Fin (inject_Z (Z.of_nat (length s))).

(** [truncateWithEllipsis(string, n)] *)
Definition truncateWithEllipsis (s : list char) (n : num) : list char :=
  if truthy n && lt n PosInf
  then substr_from_0 s (sub n (Fin 1))
       ++ (if gt (string_length s) n then [ellipsis] else [])
  else s.

End Strings.

End LabelText.

(** ** The Voronoi field at the resolution of the image *)

Module Unpack.

Import JS Render.
Local Open Scope Q_scope.

(** [a / b] on finite numbers; the divisor [0] is the positive zero. *)
Definition quotient (a b : Q) : num :=
  if Qeq_bool b 0 then
    if Qeq_bool a 0 then NaN else if Qltb 0 a then PosInf else NegInf
  else Fin (a / b).

(** [value || 0] *)
Definition or_zero (value : num) : num :=
  if truthy value then value else Fin 0.

(** [Math.max(0, Math.min(bound, z))] *)
Definition clamp (bound z : Z) : Z := Z.max 0 (Z.min bound z).

(** The packed coordinate of an unpacked one: [xp = xu / ratio], where
    [ratio = 1 / voronoiData.ratio]; its two neighbours [xp1] and [xp2] in
    the packed map, and the weight [dx] of the second one. *)
Definition packed (v_ratio : Q) (xu : Z) : Q := inject_Z xu / (1 / v_ratio).

Definition packed_1 (bound : Z) (xp : Q) : Z := clamp bound (Qfloor xp).

Definition packed_2 (bound : Z) (xp : Q) : Z := clamp bound (Qceiling xp).

Definition weight (bound : Z) (xp : Q) : num :=
  or_zero (quotient (xp - inject_Z (packed_1 bound xp))
                    (inject_Z (packed_2 bound xp) - inject_Z (packed_1 bound xp))).

(** The packed pixel whose voronoi id the unpacked pixel [i] takes. *)
Definition unpacked_source (v : voronoi) (w : Z) (i : Z) : Z :=
  let xu := (i mod w)%Z in
  let yu := ((i - xu) / w)%Z in
  let xp := packed (v_ratio v) xu in
  let yp := packed (v_ratio v) yu in
  let xp1 := packed_1 (v_width v) xp in
  let xp2 := packed_2 (v_width v) xp in
  let yp1 := packed_1 (v_height v) yp in
  let yp2 := packed_2 (v_height v) yp in
  let dx := weight (v_width v) xp in
  let dy := weight (v_height v) yp in
  let ip_top_left := (xp1 + (v_width v + 1) * yp1)%Z in
  let ip_top_right := (xp2 + (v_width v + 1) * yp1)%Z in
  let ip_bottom_left := (xp1 + (v_width v + 1) * yp2)%Z in
  let ip_bottom_right := (xp2 + (v_width v + 1) * yp2)%Z in
  if lt dx (Fin (1 # 2)) then
    if lt dy (Fin (1 # 2)) then ip_top_left else ip_bottom_left
  else
    if lt dy (Fin (1 # 2)) then ip_top_right else ip_bottom_right.

(** [vidPixelMap_u[i]] after the loop, for [i] inside the array; a value
    read outside the packed map would be [undefined], stored as 0. *)
Definition vidPixelMap_u (v : voronoi) (w : Z) (i : Z) : Z :=
  default 0%Z (read (vidPixelMap v) (unpacked_source v w i)).

End Unpack.

(** ** The graph in the space of the image *)

Module Rescale.

Import JS Graph Render Unpack.
Local Open Scope Q_scope.

(** The options read by [rescaleGraphToGraphicSpace]; [None] is
    [undefined].  The rotation is the one of [renderFrame], 0, and the
    nodes are not contained in the inscribed circle, its default. *)
Record options : Type := mkOptions {
  flip_x : bool;
  flip_y : bool;
  use_barycenter_ratio : option Q;
  margin_top : option Q;
  margin_right : option Q;
  margin_bottom : option Q;
  margin_left : option Q
}.

(** [ns.mm_to_px(d)] *)
Definition mm_to_px (st : settings) (d : Q) : Q :=
  d * rendering_dpi st * inch_per_mm.

(** [(margin === undefined) ? 6 : margin], in pixels. *)
Definition margin_px (st : settings) (margin : option Q) : Q :=
  mm_to_px st (default 6 margin).

(** [options.use_barycenter_ratio || .2] *)
Definition barycenter_ratio (o : options) : Q :=
  match use_barycenter_ratio o with
  | Some r => or_else r (2 # 10)
  | None => 2 # 10
  end.

(** A loop [g.nodes().forEach] that assigns to the attributes of each
    node. *)
Definition for_each_node (f : node -> node) (g : graph) : graph :=
  foldl (fun g' nid => updateNode f nid g') g (nodes g).

(** The attributes of the nodes, in the order of [g.nodes()]. *)
Definition attributes (g : graph) : list node :=
  omap (getNodeAttributes g) (nodes g).

Definition set_x (x : Q) (n : node) : node :=
  mkNode (n_id n) (n_label n) x (n_y n) (n_size n) (n_vid n).

Definition set_y (y : Q) (n : node) : node :=
  mkNode (n_id n) (n_label n) (n_x n) y (n_size n) (n_vid n).

Definition set_size (size : Q) (n : node) : node :=
  mkNode (n_id n) (n_label n) (n_x n) (n_y n) size (n_vid n).

(** The two flips. *)
Definition flipped (o : options) (g : graph) : graph :=
  let g1 := if flip_x o then for_each_node (fun n => set_x (- n_x n) n) g else g in
  if flip_y o then for_each_node (fun n => set_y (- n_y n) n) g1 else g1.

(** [n.size = n.size || 1] *)
Definition weighted (g : graph) : graph :=
  for_each_node (fun n => set_size (or_else (n_size n) 1) n) g.

(** A sum accumulated over the nodes. *)
Definition total (v : node -> Q) (g : graph) : Q :=
  foldl (fun acc n => acc + v n) 0 (attributes g).

(** [d3.extent]: the least and the greatest value, nothing for no
    value. *)
Definition extent (values : list Q) : option (Q * Q) :=
  match values with
  | [] => None
  | v :: rest =>
      Some (foldl (fun mm x => (if Qltb x (fst mm) then x else fst mm,
                                if Qltb (snd mm) x then x else snd mm))
                  (v, v) rest)
  end.

(** [Math.abs] *)
Definition abs (q : Q) : Q := if Qltb q 0 then - q else q.

(** [Math.max] accumulated from 0 over the nodes. *)
Definition greatest (v : node -> Q) (g : graph) : Q :=
  foldl (fun acc n => if Qltb acc (v n) then v n else acc) 0 (attributes g).

(** The centre: the compromise of the barycenter, weighted by the sizes,
    and of the middle of the extent; nothing when the sizes sum to 0 or
    when there is no node, the centre being then not a number. *)
Definition center (o : options) (coordinate : node -> Q) (g : graph) : option Q :=
  let wtotal := total n_size g in
  match extent (List.map coordinate (attributes g)) with
  | Some (lo, hi) =>
      if Qeq_bool wtotal 0 then None
      else
        let barycenter := total (fun n => n_size n * coordinate n) g / wtotal in
        let geocenter := (lo + hi) / 2 in
        Some (barycenter_ratio o * barycenter
              + (1 - barycenter_ratio o) * geocenter)
  | None => None
  end.

(** The drawing area between the margins. *)
Definition inner_width (st : settings) (o : options) : Q :=
  inject_Z (dim_w st) - margin_px st (margin_right o) - margin_px st (margin_left o).

Definition inner_height (st : settings) (o : options) : Q :=
  inject_Z (dim_h st) - margin_px st (margin_top o) - margin_px st (margin_bottom o).

(** [Math.min((dim.w-m.r-m.l)/(2 * dxmax), (dim.h-m.t-m.b)/(2 * dymax))] *)
Definition rescale_ratio (st : settings) (o : options) (xcenter ycenter : Q)
    (g : graph) : num :=
  let dxmax := greatest (fun n => abs (n_x n - xcenter - n_size n)) g in
  let dymax := greatest (fun n => abs (n_y n - ycenter - n_size n)) g in
  JS.min (quotient (inner_width st o) (2 * dxmax))
         (quotient (inner_height st o) (2 * dymax)).

(** The last loop: the node in the space of the image. *)
Definition resized (st : settings) (o : options) (xcenter ycenter ratio : Q)
    (n : node) : node :=
  mkNode (n_id n) (n_label n)
         (margin_px st (margin_left o) + inner_width st o / 2
          + (n_x n - xcenter) * ratio)
         (margin_px st (margin_top o) + inner_height st o / 2
          + (n_y n - ycenter) * ratio)
         (n_size n * ratio)
         (n_vid n).

(** [rescaleGraphToGraphicSpace(options)]: the graph is left as it is
    when it has no node; the result is nothing when the centre or the
    ratio is not a finite number, the coordinates being then not finite
    either. *)
Definition rescaleGraphToGraphicSpace (st : settings) (o : options) (g : graph)
    : option graph :=
  match nodes g with
  | [] => Some g
  | _ :: _ =>
      let g1 := weighted (flipped o g) in
      xcenter ← center o n_x g1;
      ycenter ← center o n_y g1;
      match rescale_ratio st o xcenter ycenter g1 with
      | Fin ratio => Some (for_each_node (resized st o xcenter ycenter ratio) g1)
      | _ => None
      end
  end.

End Rescale.

(** ** The opacity of a layer *)

Module Alpha.

Import JS Render.
Local Open Scope Q_scope.

(** The byte kept by a [Uint8ClampedArray] for an integer, and for
    [undefined]. *)
Definition clamped (v : option Z) : Z :=
  match v with
  | Some z => Z.max 0 (Z.min 255 z)
  | None => 0%Z
  end.

(** [a[i] = v] on a [Uint8ClampedArray]. *)
Definition write_clamped (a : list Z) (i : Z) (v : option Z) : list Z :=
  if (i <? 0)%Z then a else <[Z.to_nat i := clamped v]> a.

(** The body of the loop of [multiplyAlpha], at the pixel that starts at
    [i]. *)
Definition alpha_step (pix : list Z) (alpha : Q) (pixo : list Z) (i : Z)
    : list Z :=
  let pixo1 := write_clamped pixo (i + 0) (read pix (i + 0)) in
  let pixo2 := write_clamped pixo1 (i + 1) (read pix (i + 1)) in
  let pixo3 := write_clamped pixo2 (i + 2) (read pix (i + 2)) in
  write_clamped pixo3 (i + 3)
    (option_map (fun a => Qfloor (alpha * inject_Z a)) (read pix (i + 3))).

(** [multiplyAlpha(imgd, alpha)] on the data of an image of [w] by [h]
    pixels: [for (i = 0; i < pixlen; i += 4)]. *)
Definition multiplyAlpha (w h : Z) (pix : list Z) (alpha : Q) : list Z :=
  foldl (alpha_step pix alpha) (new_array (4 * w * h))
        (List.map (fun k => (4 * k)%Z) (seqZ 0 (w * h))).

End Alpha.

(** * Properties *)

(** ** Comparisons of rationals *)

Module JSFacts.

Import JS.
Local Open Scope Q_scope.

Lemma Qltb_lt (x y : Q) : Qltb x y = true <-> x < y.
Proof.
  unfold Qltb. rewrite negb_true_iff. split.
  - intros H. apply Qnot_le_lt. intros Hle.
    apply Qle_bool_iff in Hle. congruence.
  - intros H. destruct (Qle_bool y x) eqn:E; [|reflexivity].
    apply Qle_bool_iff in E. lra.
Qed.

Lemma Qltb_ge (x y : Q) : Qltb x y = false <-> y <= x.
Proof.
  unfold Qltb. rewrite negb_false_iff. apply Qle_bool_iff.
Qed.

Lemma Qle_bool_gt (x y : Q) : Qle_bool x y = false <-> y < x.
Proof.
  rewrite <- Qltb_lt. unfold Qltb. rewrite negb_true_iff. tauto.
Qed.

Lemma eqv_refl (a : num) : eqv a a.
Proof. destruct a; simpl; auto. reflexivity. Qed.

Lemma inject_succ (k : nat) :
  inject_Z (Z.of_nat (S k)) == inject_Z (Z.of_nat k) + 1.
Proof.
  rewrite Nat2Z.inj_succ. unfold Z.succ. rewrite inject_Z_plus. reflexivity.
Qed.

End JSFacts.

(** ** The slicer *)

Module SlicerFacts.

Import JS Slicer JSFacts.
Local Open Scope Q_scope.

Section Window.
Variables dmin dmax range step : Q.
Hypothesis step_pos : 0 < step.

Lemma turns_spec (k : nat) :
  (k < turns dmin dmax range step)%nat
  <-> dmin + inject_Z (Z.of_nat k) * step + range <= dmax.
Proof.
  unfold turns.
  set (t := (dmax - range - dmin) / step).
  assert (Ht : t * step == dmax - range - dmin) by (unfold t; field; lra).
  pose proof (Qfloor_le t) as Hlo.
  pose proof (Qlt_floor t) as Hhi.
  split.
  - intros Hk.
    assert (Hz : (Z.of_nat k <= Qfloor t)%Z) by lia.
    assert (Hq : inject_Z (Z.of_nat k) <= inject_Z (Qfloor t))
      by (rewrite <- Zle_Qle; exact Hz).
    assert (Hkt : inject_Z (Z.of_nat k) <= t) by lra.
    assert (inject_Z (Z.of_nat k) * step <= t * step)
      by (apply Qmult_le_compat_r; lra).
    lra.
  - intros Hk.
    assert (Hmul : inject_Z (Z.of_nat k) * step <= t * step) by lra.
    assert (Hkt : inject_Z (Z.of_nat k) <= t).
    { apply Qmult_le_r in Hmul; [exact Hmul | exact step_pos]. }
    assert (Hq : inject_Z (Z.of_nat k) < inject_Z (Qfloor t + 1)) by lra.
    rewrite <- Zlt_Qlt in Hq. lia.
Qed.

Lemma expected_length i m : length (expected_slices range step i m) = m.
Proof. revert i; induction m; intros; simpl; auto. Qed.

Lemma expected_lookup m : forall i (k : nat) s,
  expected_slices range step i m !! k = Some s ->
  exists q, s = mkSlice (Fin q) (Fin (q + range)) [] []
            /\ q == i + inject_Z (Z.of_nat k) * step.
Proof.
  induction m as [|m IH]; intros i k s H; simpl in H.
  - destruct k; discriminate.
  - destruct k as [|k]; simpl in H.
    + injection H as <-. exists i. split; [reflexivity|].
      change (inject_Z (Z.of_nat 0)) with 0. lra.
    + apply IH in H as (q & -> & Hq). exists q. split; [reflexivity|].
      rewrite Hq, inject_succ. lra.
Qed.

(** The loop from its [k]-th turn on: it leaves after the turns that are
    left, with the windows pushed in order. *)
Lemma run_from (m : nat) : forall (k : nat) i acc fuel,
  i == dmin + inject_Z (Z.of_nat k) * step ->
  (k + m)%nat = turns dmin dmax range step ->
  (m < fuel)%nat ->
  slices_run fuel (Fin dmax) (Fin range) (Fin step) (Fin i, acc)
  = Some (acc ++ expected_slices range step i m).
Proof.
  induction m as [|m IH]; intros k i acc fuel Hi Hk Hf.
  - destruct fuel as [|fuel]; [lia|]. simpl.
    assert (Hout : Qle_bool i (dmax - range) = false).
    { apply Qle_bool_gt.
      assert (Hnot : ~ (k < turns dmin dmax range step)%nat) by lia.
      rewrite turns_spec in Hnot. lra. }
    rewrite Hout. simpl. rewrite app_nil_r. reflexivity.
  - destruct fuel as [|fuel]; [lia|]. simpl.
    assert (Hin : Qle_bool i (dmax - range) = true).
    { apply Qle_bool_iff.
      assert (Hlt : (k < turns dmin dmax range step)%nat) by lia.
      rewrite turns_spec in Hlt. lra. }
    rewrite Hin.
    rewrite (IH (S k) (i + step) _ fuel).
    + rewrite <- app_assoc. reflexivity.
    + rewrite Hi, inject_succ. lra.
    + lia.
    + lia.
Qed.

Lemma expected_enumerates :
  enumerates dmin dmax range step
    (expected_slices range step dmin (turns dmin dmax range step)).
Proof.
  repeat split.
  - rewrite expected_length. apply turns_spec.
  - rewrite expected_length. apply turns_spec.
  - apply expected_lookup in H as (q & -> & Hq). simpl. exact Hq.
  - apply expected_lookup in H as (q & -> & Hq). reflexivity.
  - intros k s s' Hs Hs'.
    apply expected_lookup in Hs as (q & -> & Hq).
    apply expected_lookup in Hs' as (q' & -> & Hq').
    simpl. rewrite Hq', Hq, inject_succ. lra.
Qed.

End Window.



(** The loop on a range and a stride that are both zero never leaves an
    envelope that is not empty. *)
Lemma zero_stride_runs_on (dmax : Q) (fuel : nat) : forall i acc,
  i <= dmax ->
  slices_run fuel (Fin dmax) (Fin (0 * 1)) (Fin (0 * 1)) (Fin i, acc) = None.
Proof.
  induction fuel as [|fuel IH]; intros i acc Hi; [reflexivity|].
  simpl.
  assert (Hin : Qle_bool i (dmax - 0 * 1) = true) by (apply Qle_bool_iff; lra).
  rewrite Hin. apply IH. lra.
Qed.

(** C3.  The stride of the slicer does not read the [step] option: it is
    the number of the [range] option, and with [--range 10 --step 5] the
    starts of consecutive windows differ by 10. *)
Theorem stride_mirrors_range :
  (forall (input : string) (range step step' : option string) (timeformat : string),
      windowStep (mkOptions input range step) timeformat
      = windowStep (mkOptions input range step') timeformat)
  /\ windowStep (mkOptions "graph.gexf" (Some "10"%string) (Some "5"%string)) "integer"
     = Fin 10
  /\ slicer 4 (mkOptions "graph.gexf" (Some "10"%string) (Some "5"%string)) "integer"
            (Fin 0) (Fin 30)
     = Some [mkSlice (Fin 0) (Fin 10) [] [];
             mkSlice (Fin 10) (Fin 20) [] [];
             mkSlice (Fin 20) (Fin 30) [] []].
Proof.
  split; [|split].
  - intros input range step step' timeformat. unfold windowStep. simpl. reflexivity.
  - vm_compute. reflexivity.
  - vm_compute. reflexivity.
Qed.

Lemma slices_iter_S (n : nat) (dM wR wS : num) (st : loop_state) :
  slices_iter (S n) dM wR wS st
  = match slices_step dM wR wS st with
    | Some st' => slices_iter n dM wR wS st'
    | None => st
    end.
Proof. reflexivity. Qed.

Lemma slices_run_S (fuel : nat) (dM wR wS : num) (st : loop_state) :
  slices_run (S fuel) dM wR wS st
  = match slices_step dM wR wS st with
    | Some st' => slices_run fuel dM wR wS st'
    | None => Some (snd st)
    end.
Proof. reflexivity. Qed.

(** The window of the option [--range 0] has no width. *)
Lemma zero_range_window (input : string) (step : option string) (timeformat : string) :
  exists w : Q,
    windowRange (mkOptions input (Some "0"%string) step) timeformat = Fin w /\ w == 0.
Proof.
  unfold windowRange. simpl.
  exists (0 * windowUnitRatio timeformat). split; [reflexivity | lra].
Qed.

(** C9, as the code has it.  With the option [--range 0] the loop builds
    no slice when the envelope is empty (no node carries a date:
    [dateMin] is [Infinity] and [dateMax] is [-Infinity]); on an envelope
    [dateMin <= dateMax] its first turn pushes the window that starts at
    [dateMin], whatever the stride, so that it never ends with zero
    slices. *)
Theorem zero_range_slices (input : string) (step : option string)
    (timeformat : string) (wStep : num) :
  let wRange := windowRange (mkOptions input (Some "0"%string) step) timeformat in
  (forall fuel : nat, build_slices (S fuel) PosInf NegInf wRange wStep = Some [])
  /\ (forall (dmin dmax : Q) (n : nat),
         dmin <= dmax ->
         exists rest : list slice,
           snd (slices_iter (S n) (Fin dmax) wRange wStep (Fin dmin, []))
           = mkSlice (Fin dmin) (add (Fin dmin) wRange) [] [] :: rest)
  /\ (forall (dmin dmax : Q) (fuel : nat),
         dmin <= dmax ->
         build_slices fuel (Fin dmin) (Fin dmax) wRange wStep <> Some []).
Proof.
  intros wRange.
  destruct (zero_range_window input step timeformat) as (w & Hw & Hw0).
  fold wRange in Hw. rewrite Hw. clear wRange Hw.
  assert (Hfirst : forall dmin dmax, dmin <= dmax ->
            slices_step (Fin dmax) (Fin w) wStep (Fin dmin, [])
            = Some (add (Fin dmin) wStep,
                    [mkSlice (Fin dmin) (add (Fin dmin) (Fin w)) [] []])).
  { intros dmin dmax Hle. unfold slices_step. simpl le.
    assert (Hin : Qle_bool dmin (dmax - w) = true) by (apply Qle_bool_iff; lra).
    rewrite Hin. reflexivity. }
  assert (Hkeep_iter : forall n dM st s rest,
            snd st = s :: rest ->
            exists rest', snd (slices_iter n dM (Fin w) wStep st) = s :: rest').
  { induction n as [|n IH]; intros dM st s rest Hst; simpl.
    - eauto.
    - destruct (slices_step dM (Fin w) wStep st) as [st'|] eqn:E; [|eauto].
      destruct st as [i sl]. unfold slices_step in E.
      destruct (le i (sub dM (Fin w))); [|discriminate].
      injection E as <-. simpl in Hst. subst sl.
      eapply IH. simpl. reflexivity. }
  assert (Hkeep_run : forall fuel dM st s rest,
            snd st = s :: rest ->
            slices_run fuel dM (Fin w) wStep st <> Some []).
  { induction fuel as [|fuel IH]; intros dM st s rest Hst; simpl; [discriminate|].
    destruct (slices_step dM (Fin w) wStep st) as [st'|] eqn:E.
    - destruct st as [i sl]. unfold slices_step in E.
      destruct (le i (sub dM (Fin w))); [|discriminate].
      injection E as <-. simpl in Hst. subst sl.
      eapply IH. simpl. reflexivity.
    - rewrite Hst. discriminate. }
  split; [|split].
  - intros fuel. reflexivity.
  - intros dmin dmax n Hle. rewrite slices_iter_S, (Hfirst dmin dmax Hle).
    eapply Hkeep_iter. reflexivity.
  - intros dmin dmax fuel Hle. unfold build_slices.
    destruct fuel as [|fuel]; [discriminate|].
    rewrite slices_run_S, (Hfirst dmin dmax Hle).
    eapply Hkeep_run. reflexivity.
Qed.

(** C9 fails as stated: with [--range 0] on the envelope [0, 10] the loop
    never leaves, and its first turn has pushed a slice. *)
Lemma zero_range_never_returns :
  (forall fuel : nat,
      slicer fuel (mkOptions "graph.gexf" (Some "0"%string) None) "integer"
             (Fin 0) (Fin 10) = None)
  /\ snd (slices_iter 1 (Fin 10)
            (windowRange (mkOptions "graph.gexf" (Some "0"%string) None) "integer")
            (windowStep (mkOptions "graph.gexf" (Some "0"%string) None) "integer")
            (Fin 0, []))
     = [mkSlice (Fin 0) (Fin (0 + 0 * 1)) [] []].
Proof.
  split.
  - intros fuel. unfold slicer, build_slices.
    change (windowRange _ _) with (Fin (0 * 1)).
    change (windowStep _ _) with (Fin (0 * 1)).
    apply zero_stride_runs_on. discriminate.
  - vm_compute. reflexivity.
Qed.

Section Membership.
Context {dates : DateHost}.

Lemma overlap_interval_truthy (timeformat : string) (d : domnode) (s : slice) :
  truthy_ob (overlapDomnodeSlice_interval timeformat d s)
  = interval_overlaps timeformat d s.
Proof.
  unfold overlapDomnodeSlice_interval, interval_overlaps, has_interval,
    overlaps, startDate_of, endDate_of.
  destruct (truthy_str (getAttribute d "start"));
    destruct (truthy_str (getAttribute d "end")); reflexivity.
Qed.

Lemma spells_loop_truthy (overlap : domnode -> slice -> option bool)
    (spellDomnodes : list domnode) (s : slice) :
  truthy_ob (spells_loop overlap spellDomnodes s) = true
  <-> exists sp, In sp spellDomnodes /\ truthy_ob (overlap sp s) = true.
Proof.
  induction spellDomnodes as [|sp rest IH]; simpl.
  - split; [discriminate | intros (sp & [] & _)].
  - destruct (truthy_ob (overlap sp s)) eqn:E; simpl.
    + split; [|reflexivity]. intros _. exists sp. auto.
    + rewrite IH. split.
      * intros (sp' & Hin & Hov). exists sp'. auto.
      * intros (sp' & [-> | Hin] & Hov); [congruence|]. exists sp'. auto.
Qed.

Lemma check_spells_truthy (overlap : domnode -> slice -> option bool)
    (nodeDomnode : domnode) (s : slice) :
  truthy_ob (check_spells overlap nodeDomnode s) = true
  <-> exists sp, In sp (spells_of nodeDomnode) /\ truthy_ob (overlap sp s) = true.
Proof.
  unfold check_spells, spells_of.
  destruct (getElementsByTagName nodeDomnode "spells") as [|spellsDomnode rest].
  - simpl. split; [discriminate | intros (sp & [] & _)].
  - apply spells_loop_truthy.
Qed.

(** C1, as the code has it.  Under the interval representation a node
    that carries [start] or [end] is active in a slice exactly when its
    own interval overlaps the slice, and its spells are not read; a node
    without [start] and [end] is active exactly when one of the spells of
    its first [spells] element carries [start] or [end] and overlaps the
    slice.  A missing start is [-Infinity], a missing end [Infinity], and
    the overlap is NOT([endDate < S.start] OR [S.end < startDate]).  A node
    with no interval and no spells is active in no slice. *)
Theorem interval_membership (timeformat : string) (nodeDomnode : domnode) (s : slice) :
  (active_interval timeformat nodeDomnode s = true
   <-> (has_interval nodeDomnode = true
        /\ negb (lt (endDate_of timeformat nodeDomnode) (s_start s)
                 || lt (s_end s) (startDate_of timeformat nodeDomnode)) = true)
       \/ (has_interval nodeDomnode = false
           /\ exists sp : domnode,
                In sp (spells_of nodeDomnode)
                /\ has_interval sp = true
                /\ negb (lt (endDate_of timeformat sp) (s_start s)
                         || lt (s_end s) (startDate_of timeformat sp)) = true))
  /\ (has_interval nodeDomnode = false ->
      spells_of nodeDomnode = [] ->
      active_interval timeformat nodeDomnode s = false).
Proof.
  assert (Hown : has_interval nodeDomnode = true ->
                 active_interval timeformat nodeDomnode s
                 = interval_overlaps timeformat nodeDomnode s).
  { intros H. unfold active_interval, checkNodeSlice_interval.
    unfold has_interval in H. rewrite H. apply overlap_interval_truthy. }
  assert (Hspells : has_interval nodeDomnode = false ->
                    active_interval timeformat nodeDomnode s
                    = truthy_ob (check_spells (overlapDomnodeSlice_interval timeformat)
                                              nodeDomnode s)).
  { intros H. unfold active_interval, checkNodeSlice_interval.
    unfold has_interval in H. rewrite H. reflexivity. }
  split.
  - destruct (has_interval nodeDomnode) eqn:Hhas.
    + rewrite (Hown eq_refl). unfold interval_overlaps, overlaps.
      rewrite Hhas. simpl. split.
      * intros H. left. auto.
      * intros [[_ H] | [H _]]; [exact H | discriminate].
    + rewrite (Hspells eq_refl), check_spells_truthy. split.
      * intros (sp & Hin & Hov). right. split; [reflexivity|].
        rewrite overlap_interval_truthy in Hov.
        unfold interval_overlaps, overlaps in Hov.
        apply andb_true_iff in Hov as [Hsp Hov]. exists sp. auto.
      * intros [[H _] | [_ (sp & Hin & Hsp & Hov)]]; [discriminate|].
        exists sp. split; [exact Hin|].
        rewrite overlap_interval_truthy. unfold interval_overlaps, overlaps.
        rewrite Hsp. exact Hov.
  - intros Hhas Hnone. rewrite (Hspells Hhas).
    destruct (truthy_ob _) eqn:E; [|reflexivity].
    apply check_spells_truthy in E as (sp & Hin & _).
    rewrite Hnone in Hin. destruct Hin.
Qed.

End Membership.

(** A host whose [Date.parse] reads no date; the integer time format
    does not call it. *)
Definition no_dates : DateHost := {| Date_parse := fun _ => NaN |}.

(** A node that carries the interval [0, 1] and a spell [5, 6]. *)
Definition node_with_interval_and_spell : domnode :=
  Element "node" {[ "id" := "a"; "start" := "0"; "end" := "1" ]}%string
    [Element "spells" ∅
       [Element "spell" {[ "start" := "5"; "end" := "6" ]}%string []]].

(** C1 fails as stated: the spell [5, 6] of the node overlaps the slice
    [5, 6], and the slicer leaves the node out of the slice, because the
    node carries an interval of its own. *)
Lemma spell_of_dated_node_not_read :
  @spec_active_interval no_dates "integer" node_with_interval_and_spell
     (mkSlice (Fin 5) (Fin 6) [] []) = true
  /\ @active_interval no_dates "integer" node_with_interval_and_spell
       (mkSlice (Fin 5) (Fin 6) [] []) = false.
Proof.
  split; vm_compute; reflexivity.
Qed.

End SlicerFacts.

(** ** The sampled slice *)

Module SampleFacts.

Import JS Sample JSFacts.
Local Open Scope Q_scope.

Lemma canonical_index_truthy (key : string) (i : nat) :
  canonical_index key = Some i -> truthy_str key = true.
Proof. destruct key; [discriminate | reflexivity]. Qed.

(** An index inside the array passes the test and is an element. *)
Lemma sample_inside {A : Type} (slices : list A) (sample : string) (i : nat) :
  canonical_index sample = Some i ->
  to_number sample = Fin (inject_Z (Z.of_nat i)) ->
  (i < length slices)%nat ->
  exists s : A, sample_slice slices (Some sample) = Sampled (Some s).
Proof.
  intros Hkey Hnum Hlt.
  destruct (lookup_lt_is_Some_2 slices i Hlt) as [s Hs].
  exists s. unfold sample_slice, out_of_range, slices_at. simpl truthy_opt.
  rewrite (canonical_index_truthy _ _ Hkey). simpl default.
  rewrite Hnum, Hkey, Hs. simpl lt.
  assert (H0 : Qltb (inject_Z (Z.of_nat i)) 0 = false).
  { apply Qltb_ge. change 0 with (inject_Z 0). rewrite <- Zle_Qle. lia. }
  assert (H1 : Qltb (inject_Z (Z.of_nat (length slices))) (inject_Z (Z.of_nat i)) = false).
  { apply Qltb_ge. rewrite <- Zle_Qle. lia. }
  rewrite H0, H1. reflexivity.
Qed.

(** C10.  The test of the sampled slice lets the length of the array
    through, and the slice read there is [undefined]: with two slices,
    [--sample 2] is not rejected and samples nothing; so does the length of
    every array. *)
Theorem sample_check_admits_length :
  sample_slice ["slice 0"; "slice 1"]%string (Some "2"%string) = Sampled None
  /\ sample_slice ["slice 0"; "slice 1"]%string (Some "3"%string) = Rejected
  /\ (forall (A : Type) (slices : list A) (sample : string),
         canonical_index sample = Some (length slices) ->
         to_number sample = Fin (inject_Z (Z.of_nat (length slices))) ->
         sample_slice slices (Some sample) = Sampled None).
Proof.
  split; [|split].
  - vm_compute. reflexivity.
  - vm_compute. reflexivity.
  - intros A slices sample Hkey Hnum.
    unfold sample_slice, out_of_range, slices_at. simpl truthy_opt.
    rewrite (canonical_index_truthy _ _ Hkey). simpl default.
    rewrite Hnum, Hkey. simpl lt.
    assert (H0 : Qltb (inject_Z (Z.of_nat (length slices))) 0 = false).
    { apply Qltb_ge. change 0 with (inject_Z 0). rewrite <- Zle_Qle. lia. }
    assert (H1 : Qltb (inject_Z (Z.of_nat (length slices)))
                      (inject_Z (Z.of_nat (length slices))) = false).
    { apply Qltb_ge. lra. }
    rewrite H0, H1. simpl.
    rewrite (lookup_ge_None_2 slices (length slices)); [reflexivity | lia].
Qed.

End SampleFacts.

(** ** The graph *)

Module GraphFacts.

Import Graph.

Section Lookup.
Context {A : Type}.

Lemma find_map_same_id (h : string * A -> string * A) (l : list (string * A))
    (nid : string) :
  (forall p, fst (h p) = fst p) ->
  List.find (fun p => String.eqb (fst p) nid) (List.map h l)
  = option_map h (List.find (fun p => String.eqb (fst p) nid) l).
Proof.
  intros Hid. induction l as [|p l IH]; simpl; [reflexivity|].
  rewrite Hid. destruct (String.eqb (fst p) nid); [reflexivity | exact IH].
Qed.

Lemma getNodeAttributes_map (h : string * A -> string * A) (g : graph A)
    (es : list edge) (nid : string) :
  (forall p, fst (h p) = fst p) ->
  getNodeAttributes (mkGraph (List.map h (g_nodes g)) es) nid
  = option_map (fun p => snd (h p))
      (List.find (fun p => String.eqb (fst p) nid) (g_nodes g)).
Proof.
  intros Hid. unfold getNodeAttributes. simpl.
  rewrite (find_map_same_id h _ nid Hid).
  destruct (List.find _ (g_nodes g)); reflexivity.
Qed.

Lemma find_node_id (l : list (string * A)) (nid : string) (p : string * A) :
  List.find (fun p => String.eqb (fst p) nid) l = Some p -> fst p = nid.
Proof.
  intros H. apply List.find_some in H as [_ H]. apply String.eqb_eq. exact H.
Qed.

Lemma find_node_in (l : list (string * A)) (nid : string) :
  In nid (l.*1) ->
  exists p, List.find (fun p => String.eqb (fst p) nid) l = Some p.
Proof.
  induction l as [|q l IH]; simpl; [intros []|].
  intros [Hq | Hin].
  - exists q. rewrite Hq, String.eqb_refl. reflexivity.
  - destruct (String.eqb (fst q) nid); [eauto | auto].
Qed.

(** The updates of a loop over identifiers, node by node. *)
Lemma foldl_updateNode (f : string -> A -> A) (ids : list string) :
  forall g : graph A,
    foldl (fun g' nid => updateNode (f nid) nid g') g ids
    = mkGraph
        (List.map (fun p =>
               foldl (fun q nid =>
                        if String.eqb (fst q) nid then (fst q, f nid (snd q)) else q)
                     p ids)
             (g_nodes g))
        (g_edges g).
Proof.
  induction ids as [|nid ids IH]; intros g; simpl.
  - rewrite List.map_id. destruct g; reflexivity.
  - rewrite IH. unfold updateNode. simpl. rewrite List.map_map. reflexivity.
Qed.

Lemma foldl_update_id (f : string -> A -> A) (ids : list string) :
  forall p : string * A,
    fst (foldl (fun q nid =>
                  if String.eqb (fst q) nid then (fst q, f nid (snd q)) else q)
               p ids) = fst p.
Proof.
  induction ids as [|nid ids IH]; intros p; simpl; [reflexivity|].
  rewrite IH. destruct (String.eqb (fst p) nid); reflexivity.
Qed.

(** The edges of a built graph are directed. *)
Lemma addEdge_directed (g g' : graph A) (s t : string) :
  addEdge g s t = Some g' ->
  Forall (fun e => e_undirected e = false) (g_edges g) ->
  Forall (fun e => e_undirected e = false) (g_edges g').
Proof.
  unfold addEdge. intros H Hall.
  destruct (negb (hasNode g s) || negb (hasNode g t)); [discriminate|].
  destruct (String.eqb s t); [discriminate|].
  destruct (hasDirectedEdge g s t); [discriminate|].
  injection H as <-. simpl. apply Forall_app. split; [exact Hall|].
  constructor; [reflexivity | constructor].
Qed.

Lemma addNode_edges (g g' : graph A) (nid : string) (a : A) :
  addNode g nid a = Some g' -> g_edges g' = g_edges g.
Proof.
  unfold addNode. destruct (hasNode g nid); [discriminate|].
  intros H. injection H as <-. reflexivity.
Qed.

Lemma foldl_addNode_edges (id_of : A -> string) (ns : list A) :
  forall (og : option (graph A)) (g1 : graph A),
    foldl (fun og n => og ≫= fun g => addNode g (id_of n) n) og ns = Some g1 ->
    exists g0, og = Some g0 /\ g_edges g1 = g_edges g0.
Proof.
  induction ns as [|n ns IH]; intros og g1 H; simpl in H.
  - exists g1. auto.
  - apply IH in H as (g' & Hg' & He).
    destruct og as [g0|]; [|discriminate]. simpl in Hg'.
    exists g0. split; [reflexivity|].
    rewrite He. apply (addNode_edges _ _ _ _ Hg').
Qed.

Lemma foldl_addEdge_directed (es : list (string * string)) :
  forall (og : option (graph A)) (g1 : graph A),
    foldl (fun og e => og ≫= fun g => addEdge g (fst e) (snd e)) og es = Some g1 ->
    exists g0, og = Some g0
               /\ (Forall (fun e => e_undirected e = false) (g_edges g0) ->
                   Forall (fun e => e_undirected e = false) (g_edges g1)).
Proof.
  induction es as [|e es IH]; intros og g1 H; simpl in H.
  - exists g1. auto.
  - apply IH in H as (g' & Hg' & Hd).
    destruct og as [g0|]; [|discriminate]. simpl in Hg'.
    exists g0. split; [reflexivity|].
    intros H0. apply Hd. apply (addEdge_directed _ _ _ _ Hg' H0).
Qed.

Lemma buildNetwork_directed (id_of : A -> string) (s : slice A) (g : graph A) :
  buildNetwork id_of s = Some g ->
  Forall (fun e => e_undirected e = false) (g_edges g).
Proof.
  unfold buildNetwork. intros H.
  destruct (foldl _ (Some empty) (s_nodes s)) as [g1|] eqn:E1; [|discriminate].
  simpl in H.
  apply foldl_addNode_edges in E1 as (g0 & Hg0 & He).
  injection Hg0 as <-.
  apply foldl_addEdge_directed in H as (g1' & Hg1 & Hd).
  injection Hg1 as <-. apply Hd. rewrite He. constructor.
Qed.

(** On directed edges only, the in-degree of the mixed graph is the
    number of the incoming directed edges. *)
Lemma inDegree_directed (g : graph A) (nid : string) :
  Forall (fun e => e_undirected e = false) (g_edges g) ->
  inDegree g nid = directedInDegree g nid.
Proof.
  unfold inDegree, directedInDegree. intros H.
  induction H as [|e es He Hes IH]; simpl; [reflexivity|].
  unfold incoming at 1. rewrite He. simpl.
  destruct (String.eqb (e_target e) nid); simpl; rewrite IH; reflexivity.
Qed.

End Lookup.

End GraphFacts.

(** ** The temporal layout *)

Module LayoutFacts.

Import JS Graph Layout JSFacts GraphFacts.
Local Open Scope Q_scope.

Definition set_size (v : Q) (n : node) : node :=
  mkNode (n_id n) (n_label n) (n_x n) (n_y n) (Some v).

Section WithHost.
Context {math : MathHost} {random : RandomHost}.

Lemma setNodeSizes_pairs (o : options) (g : graph) (ids : list string) :
  forall p : string * node,
    foldl (fun q nid =>
             if String.eqb (fst q) nid
             then (fst q, set_size (node_size o g nid) (snd q)) else q)
          p ids
    = if existsb (String.eqb (fst p)) ids
      then (fst p, set_size (node_size o g (fst p)) (snd p))
      else p.
Proof.
  induction ids as [|nid ids IH]; intros p; simpl; [reflexivity|].
  rewrite IH. destruct (String.eqb (fst p) nid) eqn:E; simpl.
  - apply String.eqb_eq in E. subst nid.
    destruct (existsb _ ids); reflexivity.
  - reflexivity.
Qed.


(** *** The seeding of the positions *)

Definition lacks_coordinates (n : node) : bool :=
  negb (truthy_coord (n_x n)) || negb (truthy_coord (n_y n)).

Lemma neighbor_fold_sum (g : graph) (l : list string) :
  forall (x y : Q) (count : nat),
    foldl (add_neighbor g) (x, y, count) l
    = (let ps :=
         omap (fun n2id =>
                 n2 ← getNodeAttributes g n2id;
                 if truthy_coord (n_x n2) && truthy_coord (n_y n2)
                 then Some (coord (n_x n2), coord (n_y n2)) else None) l in
       let s := foldl (fun a p => (fst a + fst p, snd a + snd p)) (x, y) ps in
       (fst s, snd s, (count + length ps)%nat)).
Proof.
  induction l as [|n2id l IH]; intros x y count; simpl.
  - rewrite Nat.add_0_r. reflexivity.
  - destruct (getNodeAttributes g n2id) as [n2|]; simpl.
    + destruct (truthy_coord (n_x n2) && truthy_coord (n_y n2)); simpl.
      * rewrite IH. simpl. rewrite Nat.add_succ_r. reflexivity.
      * apply IH.
    + apply IH.
Qed.

(** The turn of a node without coordinates that has a positioned
    neighbour writes the sum of the positions of these neighbours. *)
Lemma seed_node_sum (g : graph) (st : gmap string (Q * Q) * nat)
    (nid : string) (n : node) :
  getNodeAttributes g nid = Some n ->
  lacks_coordinates n = true ->
  positioned_neighbors g nid <> [] ->
  fst (seed_node g st nid) !! nid
  = Some (sum_positions (positioned_neighbors g nid)).
Proof.
  intros Hn Hlack Hpos. destruct st as [nodesIndex calls].
  unfold seed_node. rewrite Hn. unfold lacks_coordinates in Hlack. rewrite Hlack.
  rewrite neighbor_fold_sum. cbv zeta.
  fold (positioned_neighbors g nid). fold (sum_positions (positioned_neighbors g nid)).
  destruct (positioned_neighbors g nid) as [|p ps] eqn:E; [congruence|].
  simpl Nat.eqb. cbv iota. simpl fst.
  rewrite lookup_insert_eq. destruct (sum_positions (p :: ps)); reflexivity.
Qed.

Lemma seed_node_other (g : graph) (st : gmap string (Q * Q) * nat)
    (nid other : string) :
  other <> nid ->
  fst (seed_node g st other) !! nid = fst st !! nid.
Proof.
  intros Hne. destruct st as [nodesIndex calls]. unfold seed_node.
  destruct (getNodeAttributes g other) as [n|]; [|reflexivity].
  destruct (negb (truthy_coord (n_x n)) || negb (truthy_coord (n_y n))); [|reflexivity].
  destruct (foldl (add_neighbor g) (0, 0, O) (neighbors g other)) as [[x y] count].
  destruct (Nat.eqb count 0); simpl; rewrite lookup_insert_ne; auto.
Qed.

Lemma seed_fold_sum (g : graph) (nid : string) (n : node) (l : list string) :
  getNodeAttributes g nid = Some n ->
  lacks_coordinates n = true ->
  positioned_neighbors g nid <> [] ->
  forall st : gmap string (Q * Q) * nat,
    In nid l \/ fst st !! nid = Some (sum_positions (positioned_neighbors g nid)) ->
    fst (foldl (seed_node g) st l) !! nid
    = Some (sum_positions (positioned_neighbors g nid)).
Proof.
  intros Hn Hlack Hpos. induction l as [|a l IH]; intros st H; simpl.
  - destruct H as [[] | H]. exact H.
  - apply IH. destruct (String.eqb_spec a nid) as [-> | Hne].
    + right. apply (seed_node_sum g st nid n Hn Hlack Hpos).
    + destruct H as [[Ha | Hin] | Hst]; [congruence | auto |].
      right. rewrite seed_node_other; auto.
Qed.

(** The layout gives a node without coordinates the sum of the positions
    of its positioned neighbours, when it has one. *)
Lemma seeded_position_is_sum (g : graph) (nid : string) (n : node) :
  getNodeAttributes g nid = Some n ->
  lacks_coordinates n = true ->
  positioned_neighbors g nid <> [] ->
  position (initial_positions g) nid
  = Some (sum_positions (positioned_neighbors g nid)).
Proof.
  intros Hn Hlack Hpos.
  assert (Hin : In nid (nodes g)).
  { unfold getNodeAttributes in Hn.
    destruct (List.find _ (g_nodes g)) as [p|] eqn:E; [|discriminate].
    pose proof (find_node_id _ _ _ E) as Hid.
    apply List.find_some in E as [E _].
    unfold nodes. rewrite <- Hid. apply in_map. exact E. }
  pose proof (seed_fold_sum g nid n (nodes g) Hn Hlack Hpos (∅, O) (or_introl Hin))
    as Hidx.
  fold (seed_index g) in Hidx.
  unfold position, initial_positions, assign_index.
  rewrite getNodeAttributes_map.
  - unfold getNodeAttributes in Hn.
    destruct (List.find _ (g_nodes g)) as [p|] eqn:E; [|discriminate].
    simpl. rewrite (find_node_id _ _ _ E), Hidx.
    destruct (sum_positions (positioned_neighbors g nid)) as [x y]. reflexivity.
  - intros p. destruct (fst (seed_index g) !! fst p) as [[x y]|]; reflexivity.
Qed.

(** A node without coordinates between two positioned neighbours. *)
Definition seeding_example : Graph.slice node :=
  Graph.mkSlice
    [mkNode "a" "A" None None None;
     mkNode "b" "B" (Some 10) (Some 20) None;
     mkNode "c" "C" (Some 30) (Some 40) None]
    [("a", "b"); ("c", "a")]%string.

(** C4.  The seeding writes the sum of the positions of the positioned
    neighbours, not their mean: the node [a], without coordinates, between
    [b] at (10, 20) and [c] at (30, 40), is placed at (40, 60), and the
    mean of the positions of its neighbours is (20, 30). *)
Theorem seeding_sums_neighbours :
  exists g : graph,
    buildNetwork n_id seeding_example = Some g
    /\ positioned_neighbors g "a" = [(30, 40); (10, 20)]
    /\ position (initial_positions g) "a" = Some (40, 60)
    /\ (fst (mean_position (positioned_neighbors g "a")) == 20
        /\ snd (mean_position (positioned_neighbors g "a")) == 30)
    /\ position (initial_positions g) "b" = Some (10, 20).
Proof.
  eexists. split; [vm_compute; reflexivity|].
  split; [vm_compute; reflexivity|].
  split.
  - erewrite seeded_position_is_sum.
    + vm_compute. reflexivity.
    + vm_compute. reflexivity.
    + reflexivity.
    + vm_compute. discriminate.
  - split; [split; vm_compute; reflexivity|].
    vm_compute. reflexivity.
Qed.

End WithHost.

End LayoutFacts.

(** ** The rasterizer *)

Module RenderFacts.

Import JS Graph Render JSFacts GraphFacts.
Local Open Scope Z_scope.

(** *** Hillshading *)

Lemma left_right_top_in_bounds (width height i : Z) :
  0 <= width -> 0 <= height ->
  0 <= i < (width + 1) * (height + 1) ->
  (0 <= i_left width i < (width + 1) * (height + 1))
  /\ (0 <= i_right width i < (width + 1) * (height + 1))
  /\ (0 <= i_top width i < (width + 1) * (height + 1)).
Proof.
  intros Hw Hh Hi.
  pose proof (Z.div_mod i (width + 1) ltac:(lia)) as Hdm.
  pose proof (Z.mod_pos_bound i (width + 1) ltac:(lia)) as Hr.
  assert (Hq : 0 <= i / (width + 1) <= height).
  { split; [apply Z.div_pos; lia|].
    apply Z.lt_succ_r. apply Z.div_lt_upper_bound; lia. }
  unfold i_left, i_right, i_top. repeat split.
  - destruct (Z.eqb_spec (i mod (width + 1)) 0); lia.
  - destruct (Z.eqb_spec (i mod (width + 1)) 0); lia.
  - destruct (Z.eqb_spec (i mod (width + 1)) (width + 1 - 1)); lia.
  - destruct (Z.eqb_spec (i mod (width + 1)) (width + 1 - 1)); [lia|]. nia.
  - destruct (Z.ltb_spec i (width + 1)); lia.
  - destruct (Z.ltb_spec i (width + 1)); lia.
Qed.

Lemma bottom_in_bounds (width height i : Z) :
  0 <= width -> 0 <= height ->
  0 <= i < (width + 1) * (height + 1) ->
  i <> (width + 1) * height ->
  0 <= i_bottom width height i < (width + 1) * (height + 1).
Proof.
  intros Hw Hh Hi Hne. unfold i_bottom.
  replace (height + 1 - 1) with height by lia.
  destruct (Z.gtb_spec i ((width + 1) * height)); lia.
Qed.

(** C7.  The pixel [(width+1) * height], the first of the last row, is
    not taken as a border pixel: its bottom neighbour is the index
    [(width+1) * (height+1)], one past the height map, and [dy] is computed
    from [undefined].  On the map of 2 x 2 pixels this is the pixel 2.
    Every other pixel has its four neighbours in the map. *)
Theorem bottom_left_pixel_reads_past_the_map :
  i_bottom 1 1 2 = 4
  /\ neighbours_in_bounds 1 1 2 = false
  /\ hillshading_dy 1 1 [1; 2; 3; 4]%Q 2 = NaN
  /\ (forall width height : Z,
         0 <= width -> 0 <= height ->
         i_bottom width height ((width + 1) * height) = (width + 1) * (height + 1))
  /\ (forall width height i : Z,
         0 <= width -> 0 <= height ->
         0 <= i < (width + 1) * (height + 1) ->
         i <> (width + 1) * height ->
         neighbours_in_bounds width height i = true).
Proof.
  split; [reflexivity|]. split; [reflexivity|]. split; [reflexivity|]. split.
  - intros width height Hw Hh. unfold i_bottom.
    replace (height + 1 - 1) with height by lia.
    destruct (Z.gtb_spec ((width + 1) * height) ((width + 1) * height)); lia.
  - intros width height i Hw Hh Hi Hne.
    destruct (left_right_top_in_bounds width height i Hw Hh Hi) as (Hl & Hr & Ht).
    pose proof (bottom_in_bounds width height i Hw Hh Hi Hne) as Hb.
    unfold neighbours_in_bounds.
    repeat (apply andb_true_intro; split);
      first [apply Z.leb_le | apply Z.ltb_lt]; lia.
Qed.

(** *** The stable sort *)

Section Sort.
Context {B : Type}.

Lemma sort_insert_perm (compare : B -> B -> Z) (a : B) (l : list B) :
  Permutation (sort_insert compare a l) (a :: l).
Proof.
  induction l as [|b l IH]; simpl; [reflexivity|].
  destruct (compare a b >? 0); [|reflexivity].
  rewrite IH. apply perm_swap.
Qed.

Lemma js_sort_perm (compare : B -> B -> Z) (l : list B) :
  Permutation (js_sort compare l) l.
Proof.
  induction l as [|a l IH]; simpl; [reflexivity|].
  rewrite sort_insert_perm. constructor. exact IH.
Qed.

Lemma sort_insert_ext (c c' : B -> B -> Z) (a : B) (l : list B) :
  (forall b, In b l -> c a b = c' a b) ->
  sort_insert c a l = sort_insert c' a l.
Proof.
  induction l as [|b l IH]; intros H; simpl; [reflexivity|].
  rewrite (H b (or_introl eq_refl)).
  destruct (c' a b >? 0); [|reflexivity].
  f_equal. apply IH. intros b' Hb'. apply H. right. exact Hb'.
Qed.

(** The sort reads the comparison on the elements of the array only. *)
Lemma js_sort_ext (c c' : B -> B -> Z) (l : list B) :
  (forall a b, In a l -> In b l -> c a b = c' a b) ->
  js_sort c l = js_sort c' l.
Proof.
  induction l as [|a l IH]; intros H; simpl; [reflexivity|].
  fold (js_sort c l). fold (js_sort c' l).
  rewrite IH.
  - apply sort_insert_ext. intros b Hb. apply H; [left; reflexivity|].
    right. apply (Permutation_in _ (js_sort_perm c' l) Hb).
  - intros x y Hx Hy. apply H; right; assumption.
Qed.

Section Ordered.
Variable compare : B -> B -> Z.

(** [a] may stand before [b]. *)
Definition before (a b : B) : Prop := (compare a b >? 0) = false.

Hypothesis before_total : forall a b, ~ before a b -> before b a.
Hypothesis before_trans : forall a b c, before a b -> before b c -> before a c.

Lemma sort_insert_sorted (a : B) (l : list B) :
  StronglySorted before l -> StronglySorted before (sort_insert compare a l).
Proof.
  induction l as [|b l IH]; intros Hs; simpl.
  - constructor; constructor.
  - inversion Hs as [|? ? Hl Hb]; subst.
    destruct (compare a b >? 0) eqn:E.
    + constructor; [apply IH; exact Hl|].
      apply List.Forall_forall. intros x Hx.
      apply (Permutation_in _ (sort_insert_perm compare a l)) in Hx.
      destruct Hx as [<- | Hx].
      * apply before_total. unfold before. rewrite E. discriminate.
      * rewrite List.Forall_forall in Hb. apply Hb. exact Hx.
    + constructor; [exact Hs|].
      constructor; [exact E|].
      rewrite List.Forall_forall in Hb |- *. intros x Hx.
      apply (before_trans a b x E). apply Hb. exact Hx.
Qed.

Lemma js_sort_sorted (l : list B) : StronglySorted before (js_sort compare l).
Proof.
  induction l as [|a l IH]; simpl; [constructor|].
  apply sort_insert_sorted. exact IH.
Qed.

(** Two sorted arrangements of the same elements are the same array,
    when no two of the elements compare equal. *)
Lemma sorted_unique (l1 : list B) : forall l2 : list B,
  StronglySorted before l1 -> StronglySorted before l2 ->
  Permutation l1 l2 ->
  (forall a b, In a l1 -> In b l1 -> before a b -> before b a -> a = b) ->
  l1 = l2.
Proof.
  induction l1 as [|a l1 IH]; intros l2 H1 H2 Hp Hanti.
  - apply Permutation_nil in Hp. auto.
  - destruct l2 as [|b l2].
    + apply Permutation_sym, Permutation_nil in Hp. discriminate.
    + inversion H1 as [|? ? Hs1 Ha]; subst.
      inversion H2 as [|? ? Hs2 Hb]; subst.
      rewrite List.Forall_forall in Ha, Hb.
      assert (Hab : a = b).
      { assert (Hbin : In b (a :: l1))
          by (apply (Permutation_in _ (Permutation_sym Hp)); left; reflexivity).
        assert (Hain : In a (b :: l2))
          by (apply (Permutation_in _ Hp); left; reflexivity).
        destruct Hbin as [-> | Hbin]; [reflexivity|].
        destruct Hain as [-> | Hain]; [reflexivity|].
        apply Hanti; [left; reflexivity | right; exact Hbin | auto | auto]. }
      subst b. f_equal. apply IH; auto.
      * apply (Permutation_cons_inv Hp).
      * intros x y Hx Hy. apply Hanti; right; assumption.
Qed.

End Ordered.
End Sort.

(** *** The comparison of the nodes *)

Local Open Scope Q_scope.

(** [a] is below [b]: smaller, or as large and more to the left. *)
Definition below (a b : node) : Prop :=
  n_size a < n_size b \/ (n_size a == n_size b /\ n_x a < n_x b).

Lemma compare_attributes_gt (a b : node) :
  (compare_attributes a b >? 0)%Z = true <-> below a b.
Proof.
  unfold compare_attributes, below.
  destruct (Qltb (n_size a) (n_size b)) eqn:E1.
  - apply Qltb_lt in E1. split; [auto | reflexivity].
  - apply Qltb_ge in E1.
    destruct (Qltb (n_size b) (n_size a)) eqn:E2.
    + apply Qltb_lt in E2. split; [discriminate|]. intros [H | [H _]]; lra.
    + apply Qltb_ge in E2.
      destruct (Qltb (n_x a) (n_x b)) eqn:E3.
      * apply Qltb_lt in E3. split; [|reflexivity]. intros _. right. split; lra.
      * apply Qltb_ge in E3.
        assert (Hno : ~ (n_size a < n_size b \/ n_size a == n_size b /\ n_x a < n_x b))
          by (intros [H | [_ H]]; lra).
        destruct (Qltb (n_x b) (n_x a)); (split; [discriminate | tauto]).
Qed.

Lemma before_attributes (a b : node) :
  (compare_attributes a b >? 0)%Z = false <-> ~ below a b.
Proof.
  rewrite <- compare_attributes_gt.
  destruct (compare_attributes a b >? 0)%Z; split; congruence.
Qed.

Lemma not_below_cases (a b : node) :
  ~ below a b <->
  n_size b < n_size a \/ (n_size a == n_size b /\ n_x b <= n_x a).
Proof.
  unfold below. split.
  - intros H.
    destruct (Qlt_le_dec (n_size b) (n_size a)) as [Hlt | Hle]; [auto|].
    right.
    destruct (Qlt_le_dec (n_size a) (n_size b)) as [Hlt' | Hle']; [tauto|].
    assert (Heq : n_size a == n_size b) by lra.
    split; [exact Heq|].
    destruct (Qlt_le_dec (n_x a) (n_x b)) as [Hx | Hx]; [tauto | exact Hx].
  - intros [H | [H1 H2]] [H' | [H1' H2']]; lra.
Qed.

Lemma below_asym (a b : node) : below a b -> ~ below b a.
Proof. unfold below. intros [H | [H1 H2]] [H' | [H1' H2']]; lra. Qed.

Lemma not_below_trans (a b c : node) :
  ~ below a b -> ~ below b c -> ~ below a c.
Proof.
  rewrite !not_below_cases.
  intros [H1 | [H1 H1']] [H2 | [H2 H2']]; [left | left | left | right]; lra.
Qed.

Lemma not_below_both (a b : node) :
  ~ below a b -> ~ below b a -> n_size a == n_size b /\ n_x a == n_x b.
Proof.
  rewrite !not_below_cases.
  intros [H1 | [H1 H1']] [H2 | [H2 H2']]; split; lra.
Qed.

(** *** The nodes of a graph in another order *)

Lemma find_unique_key {A : Type} (l : list (string * A)) (p : string * A) :
  NoDup (l.*1) -> In p l ->
  List.find (fun q => String.eqb (fst q) (fst p)) l = Some p.
Proof.
  induction l as [|q l IH]; intros Hnd Hin; [destruct Hin|].
  simpl in Hnd. inversion Hnd as [|? ? Hq Hl]; subst. simpl.
  destruct (String.eqb_spec (fst q) (fst p)) as [Heq | Hne].
  - destruct Hin as [-> | Hin]; [reflexivity|].
    exfalso. apply Hq. rewrite Heq.
    apply list_elem_of_fmap_2, list_elem_of_In. exact Hin.
  - destruct Hin as [-> | Hin]; [congruence|]. apply IH; assumption.
Qed.

Lemma find_permutation {A : Type} (l1 l2 : list (string * A)) (nid : string) :
  NoDup (l1.*1) -> Permutation l1 l2 ->
  List.find (fun q => String.eqb (fst q) nid) l1
  = List.find (fun q => String.eqb (fst q) nid) l2.
Proof.
  intros Hnd Hp.
  assert (Hnd2 : NoDup (l2.*1)) by (rewrite <- Hp; exact Hnd).
  destruct (List.find _ l1) as [p|] eqn:E1.
  - pose proof (find_node_id _ _ _ E1) as Hid.
    apply List.find_some in E1 as [Hin _].
    apply (Permutation_in _ Hp) in Hin.
    rewrite <- Hid. symmetry. apply find_unique_key; assumption.
  - destruct (List.find _ l2) as [q|] eqn:E2; [|reflexivity].
    apply List.find_some in E2 as [Hin Hq].
    apply (Permutation_in _ (Permutation_sym Hp)) in Hin.
    pose proof (List.find_none _ _ E1 q Hin) as Hno. simpl in Hno. congruence.
Qed.

Lemma getNodeAttributes_permutation (g1 g2 : graph) (nid : string) :
  NoDup (nodes g1) -> Permutation (g_nodes g1) (g_nodes g2) ->
  getNodeAttributes g1 nid = getNodeAttributes g2 nid.
Proof.
  intros Hnd Hp. unfold getNodeAttributes.
  rewrite (find_permutation _ _ nid Hnd Hp). reflexivity.
Qed.

Lemma getNodeAttributes_in (g : graph) (nid : string) :
  In nid (nodes g) -> exists n, getNodeAttributes g nid = Some n.
Proof.
  intros Hin. destruct (find_node_in (g_nodes g) nid Hin) as [p Hp].
  exists (snd p). unfold getNodeAttributes. rewrite Hp. reflexivity.
Qed.

(** The attributes of a node of the graph; any node elsewhere. *)
Definition attributes_of (g : graph) (nid : string) : node :=
  default (mkNode "" "" 0 0 0 None) (getNodeAttributes g nid).

Lemma compare_nodes_attributes (g : graph) (a b : string) :
  In a (nodes g) -> In b (nodes g) ->
  compare_nodes g a b
  = compare_attributes (attributes_of g a) (attributes_of g b).
Proof.
  intros Ha Hb. unfold compare_nodes, attributes_of.
  destruct (getNodeAttributes_in g a Ha) as [na ->].
  destruct (getNodeAttributes_in g b Hb) as [nb ->]. reflexivity.
Qed.

(** The nodes by size do not depend on the order of the nodes, when no
    two nodes have the same size and the same x. *)
Lemma nodes_by_size_permutation (g1 g2 : graph) :
  NoDup (nodes g1) ->
  Permutation (g_nodes g1) (g_nodes g2) ->
  (forall (ida idb : string) (a b : node),
      getNodeAttributes g1 ida = Some a ->
      getNodeAttributes g1 idb = Some b ->
      ida <> idb -> n_size a == n_size b -> ~ n_x a == n_x b) ->
  getNodesBySize g1 = getNodesBySize g2.
Proof.
  intros Hnd Hp Hx.
  assert (Hpn : Permutation (nodes g1) (nodes g2))
    by (apply Permutation_map; exact Hp).
  set (c := fun a b => compare_attributes (attributes_of g1 a) (attributes_of g1 b)).
  assert (H1 : js_sort (compare_nodes g1) (nodes g1) = js_sort c (nodes g1)).
  { apply js_sort_ext. intros a b Ha Hb. apply compare_nodes_attributes; assumption. }
  assert (H2 : js_sort (compare_nodes g2) (nodes g2) = js_sort c (nodes g2)).
  { apply js_sort_ext. intros a b Ha Hb. unfold c, attributes_of.
    rewrite !(getNodeAttributes_permutation g1 g2 _ Hnd Hp).
    apply compare_nodes_attributes; assumption. }
  unfold getNodesBySize. rewrite H1, H2. f_equal.
  assert (Htotal : forall a b, ~ before c a b -> before c b a).
  { intros a b H. unfold before, c in *.
    apply before_attributes. apply below_asym.
    apply compare_attributes_gt.
    destruct (compare_attributes _ _ >? 0)%Z; [reflexivity | congruence]. }
  assert (Htrans : forall a b d, before c a b -> before c b d -> before c a d).
  { intros a b d Hab Hbd. unfold before, c in *.
    rewrite before_attributes in *. eapply not_below_trans; eassumption. }
  apply (sorted_unique c).
  - apply js_sort_sorted; assumption.
  - apply js_sort_sorted; assumption.
  - rewrite !js_sort_perm. exact Hpn.
  - intros a b Ha Hb Hab Hba.
    apply (Permutation_in _ (js_sort_perm c (nodes g1))) in Ha, Hb.
    destruct (string_dec a b) as [Heq | Hne]; [exact Heq | exfalso].
    unfold before, c in Hab, Hba. rewrite before_attributes in Hab, Hba.
    destruct (not_below_both _ _ Hab Hba) as [Hs Hxx].
    unfold attributes_of in Hs, Hxx.
    destruct (getNodeAttributes_in g1 a Ha) as [na Hna].
    destruct (getNodeAttributes_in g1 b Hb) as [nb Hnb].
    rewrite Hna, Hnb in Hs, Hxx. simpl in Hs, Hxx.
    apply (Hx a b na nb Hna Hnb Hne Hs Hxx).
Qed.

Section Labels.
Context {cv : Canvas node}.

Lemma label_fold_ext (g1 g2 : graph) (ids : list string) :
  (forall nid, getNodeAttributes g1 nid = getNodeAttributes g2 nid) ->
  forall st, foldl (label_step g1) st ids = foldl (label_step g2) st ids.
Proof.
  intros Hg. induction ids as [|nid ids IH]; intros st; simpl; [reflexivity|].
  rewrite IH. f_equal. unfold label_step. rewrite Hg. reflexivity.
Qed.

(** C8, as the code has it.  Two runs of the label selection on the same
    nodes and settings, given in any two orders, keep the same labels,
    provided no two nodes have the same size and the same x: the nodes
    are then visited in the one order that the size and the x fix. *)
Theorem visible_labels_order_independent (st : settings) (g1 g2 : graph) :
  NoDup (nodes g1) ->
  Permutation (g_nodes g1) (g_nodes g2) ->
  (forall (ida idb : string) (a b : node),
      getNodeAttributes g1 ida = Some a ->
      getNodeAttributes g1 idb = Some b ->
      ida <> idb -> n_size a == n_size b -> ~ n_x a == n_x b) ->
  getVisibleLabels st g1 = getVisibleLabels st g2.
Proof.
  intros Hnd Hp Hx. unfold getVisibleLabels.
  rewrite (nodes_by_size_permutation g1 g2 Hnd Hp Hx).
  rewrite (label_fold_ext g1 g2).
  - reflexivity.
  - intros nid. apply getNodeAttributes_permutation; assumption.
Qed.

End Labels.

(** A bitmap that keeps the centres of the areas stamped so far: the
    area of a label is the point of its node, and it hits the bitmap when
    an area was stamped at that point. *)
Definition point_canvas : Canvas node := {|
  canvas := list (Q * Q);
  area := Q * Q;
  blank := [];
  label_area := fun n => Some (n_x n, n_y n);
  hits := fun ctx a =>
            existsb (fun p => Qeq_bool (fst p) (fst a) && Qeq_bool (snd p) (snd a)) ctx;
  stamp := fun ctx a _ => a :: ctx
|}.

Definition frame_settings : settings :=
  mkSettings 304 171 (320842 # 1000) (12 # 10) 10000000 (Fin 80).

(** Two nodes of the same size at the same place, in the two orders. *)
Definition twins_ab : graph :=
  mkGraph [("a", mkNode "a" "A" 0 0 1 None); ("b", mkNode "b" "B" 0 0 1 None)]%string [].

Definition twins_ba : graph :=
  mkGraph [("b", mkNode "b" "B" 0 0 1 None); ("a", mkNode "a" "A" 0 0 1 None)]%string [].

(** Two nodes of the same size side by side, in the two orders. *)
Definition pair_ab : graph :=
  mkGraph [("a", mkNode "a" "A" 0 0 1 None); ("b", mkNode "b" "B" 5 0 1 None)]%string [].

Definition pair_ba : graph :=
  mkGraph [("b", mkNode "b" "B" 5 0 1 None); ("a", mkNode "a" "A" 0 0 1 None)]%string [].

(** C8 fails as stated: two nodes with the same size and the same x are
    kept in their input order by the sort, and the label of the first one
    hides the label of the other. *)
Lemma twins_label_follows_input_order :
  Permutation (g_nodes twins_ab) (g_nodes twins_ba)
  /\ @getVisibleLabels point_canvas frame_settings twins_ab = ["a"]%string
  /\ @getVisibleLabels point_canvas frame_settings twins_ba = ["b"]%string.
Proof.
  split; [apply perm_swap|].
  split; vm_compute; reflexivity.
Qed.

(** Two nodes of the same size with different x, in the two orders. *)
Lemma visible_labels_order_independent_witness :
  NoDup (nodes pair_ab)
  /\ Permutation (g_nodes pair_ab) (g_nodes pair_ba)
  /\ @getVisibleLabels point_canvas frame_settings pair_ab
     = @getVisibleLabels point_canvas frame_settings pair_ba.
Proof.
  assert (Hnd : NoDup (nodes pair_ab)).
  { apply (bool_decide_unpack _). vm_compute. reflexivity. }
  assert (Hp : Permutation (g_nodes pair_ab) (g_nodes pair_ba)) by apply perm_swap.
  split; [exact Hnd|]. split; [exact Hp|].
  apply (@visible_labels_order_independent point_canvas frame_settings
           pair_ab pair_ba Hnd Hp).
  intros ida idb a b Ha Hb Hne Hs.
  unfold getNodeAttributes, pair_ab in Ha, Hb.
  cbn [g_nodes List.find fst] in Ha, Hb.
  destruct (String.eqb_spec "a" ida) as [Ea | Ea];
    destruct (String.eqb_spec "a" idb) as [Eb | Eb]; try congruence.
  - destruct (String.eqb_spec "b" idb) as [Eb' | Eb']; [|discriminate].
    injection Ha as <-. injection Hb as <-. discriminate.
  - destruct (String.eqb_spec "b" ida) as [Ea' | Ea']; [|discriminate].
    injection Ha as <-. injection Hb as <-. discriminate.
  - destruct (String.eqb_spec "b" ida) as [Ea' | Ea']; [|discriminate].
    destruct (String.eqb_spec "b" idb) as [Eb' | Eb']; [|discriminate].
    congruence.
Defined.

(** *** The Voronoi field *)

(** **** Typed arrays *)

Lemma read_write_same (bits : Z) (a : list Z) (i v : Z) :
  (0 <= i < Z.of_nat (length a))%Z ->
  read (write bits a i v) i = Some (typed bits v).
Proof.
  intros Hi. unfold read, write.
  destruct (Z.ltb_spec i 0); [lia|].
  apply list_lookup_insert_eq. lia.
Qed.

Lemma read_write_other (bits : Z) (a : list Z) (i j v : Z) :
  i <> j -> read (write bits a i v) j = read a j.
Proof.
  intros Hne. unfold read, write.
  destruct (Z.ltb_spec j 0); [reflexivity|].
  destruct (Z.ltb_spec i 0); [reflexivity|].
  apply list_lookup_insert_ne. lia.
Qed.

Lemma length_write (bits : Z) (a : list Z) (i v : Z) :
  length (write bits a i v) = length a.
Proof.
  unfold write. destruct (i <? 0)%Z; [reflexivity | apply length_insert].
Qed.

Lemma read_replicate (n i v : Z) :
  (0 <= i < n)%Z -> read (replicate (Z.to_nat n) v) i = Some v.
Proof.
  intros Hi. unfold read. destruct (Z.ltb_spec i 0); [lia|].
  apply lookup_replicate_2. lia.
Qed.

Lemma typed_small (bits v : Z) : (0 <= v < 2 ^ bits)%Z -> typed bits v = v.
Proof. intros H. unfold typed. apply Z.mod_small. exact H. Qed.

(** **** The modified distance *)

Lemma Qfloor_lt_int (q : Q) (z : Z) : q < inject_Z z <-> (Qfloor q < z)%Z.
Proof.
  pose proof (Qfloor_le q) as Hlo. pose proof (Qlt_floor q) as Hhi. split.
  - intros H.
    assert (Hq : inject_Z (Qfloor q) < inject_Z z) by lra.
    rewrite <- Zlt_Qlt in Hq. exact Hq.
  - intros H.
    assert (Hz : (Qfloor q + 1 <= z)%Z) by lia.
    rewrite Zle_Qle in Hz. lra.
Qed.

Lemma Qfloor_bounds (q : Q) (lo hi : Z) :
  inject_Z lo <= q -> q < inject_Z hi -> (lo <= Qfloor q < hi)%Z.
Proof.
  intros Hlo Hhi. split.
  - rewrite <- (Qfloor_Z lo). apply Qfloor_resp_le. exact Hlo.
  - apply Qfloor_lt_int. exact Hhi.
Qed.

Section Voronoi.
Context {math : MathHost}.
Variables (bits width height : Z) (ratio vrange : Q).

(** In the range of the node the modified distance is in [0, 1), and its
    stored value in [0, 254]. *)
Lemma dmod_unit (n : node) (d : Q) :
  d < nsize_of ratio n + vrange * ratio ->
  0 <= dmod_of ratio vrange n d /\ dmod_of ratio vrange n d < 1.
Proof.
  intros Hd. unfold dmod_of.
  destruct (Qle_bool d (nsize_of ratio n)) eqn:E; [lra|].
  apply Qle_bool_gt in E.
  assert (Hpos : 0 < vrange * ratio) by lra.
  split.
  - apply Qle_shift_div_l; [exact Hpos | lra].
  - apply Qlt_shift_div_r; [exact Hpos | lra].
Qed.

Lemma dmod_stored (n : node) (d : Q) :
  d < nsize_of ratio n + vrange * ratio ->
  (0 <= Qfloor (dmod_of ratio vrange n d * 255) < 255)%Z.
Proof.
  intros Hd. destruct (dmod_unit n d Hd) as [H0 H1].
  apply Qfloor_bounds.
  - change (inject_Z 0) with 0. nra.
  - change (inject_Z 255) with 255. lra.
Qed.

End Voronoi.

End RenderFacts.


(** ** The Voronoi field *)

Module VoronoiFacts.

Import JS Graph Render JSFacts GraphFacts RenderFacts.
Local Open Scope Z_scope.

(** The state of one pixel: its owner and its stored distance. *)
Definition cell (maps : list Z * list Z) (i : Z) : option (Z * Z) :=
  match read (fst maps) i, read (snd maps) i with
  | Some vid, Some d => Some (vid, d)
  | _, _ => None
  end.

(** A claim of stored distance [dq] by the node of voronoi id [vid]. *)
Definition claim_update (vid dq : Z) (c : Z * Z) : Z * Z :=
  if (fst c =? 0) then (vid, dq)
  else if (dq <? snd c) then (vid, dq)
  else c.

Section Pixels.
Context {math : MathHost}.
Variables (bits width height : Z) (ratio vrange : Q).

Definition cells : Z := (width + 1) * (height + 1).

Definition idx (x y : Z) : Z := x + (width + 1) * y.

Definition sized (maps : list Z * list Z) : Prop :=
  Z.of_nat (length (fst maps)) = cells /\ Z.of_nat (length (snd maps)) = cells.

Lemma idx_bounds (x y : Z) :
  0 <= x <= width -> 0 <= y <= height -> 0 <= idx x y < cells.
Proof. unfold idx, cells. intros Hx Hy. nia. Qed.

Lemma idx_inj (x y x' y' : Z) :
  0 <= x <= width -> 0 <= x' <= width ->
  idx x y = idx x' y' -> x = x' /\ y = y'.
Proof.
  unfold idx. intros Hx Hx' H.
  destruct (Z.lt_trichotomy y y') as [Hlt | [Heq | Hgt]].
  - exfalso. nia.
  - subst y'. split; lia.
  - exfalso. nia.
Qed.

Lemma cell_sized (maps : list Z * list Z) (i : Z) :
  sized maps -> 0 <= i < cells -> exists c, cell maps i = Some c.
Proof.
  intros [Hv Hd] Hi. unfold cell, read.
  destruct (Z.ltb_spec i 0); [lia|].
  destruct (lookup_lt_is_Some_2 (fst maps) (Z.to_nat i)) as [a ->]; [lia|].
  destruct (lookup_lt_is_Some_2 (snd maps) (Z.to_nat i)) as [b ->]; [lia|].
  eauto.
Qed.

(** What the body of the loops does to the pixel it visits. *)
Definition visit (n : node) (x y : Z) (c : Z * Z) : Z * Z :=
  match claims width height ratio vrange n x y with
  | Some dq => claim_update (typed bits (default 0 (n_vid n))) dq c
  | None => c
  end.

Lemma voronoi_pixel_sized (n : node) (x y : Z) (maps : list Z * list Z) :
  sized maps -> sized (voronoi_pixel bits width ratio vrange n x y maps).
Proof.
  intros Hs. destruct maps as [vmap dmap]. unfold voronoi_pixel.
  destruct (Qltb _ _); [|exact Hs].
  destruct (read vmap _) as [ev|]; [|exact Hs].
  destruct (ev =? 0).
  - destruct Hs as [Hv Hd]. split; simpl in *; rewrite length_write; assumption.
  - destruct (read dmap _) as [ds|]; [|exact Hs].
    destruct (Qltb _ _); [|exact Hs].
    destruct Hs as [Hv Hd]. split; simpl in *; rewrite length_write; assumption.
Qed.

Lemma voronoi_pixel_other (n : node) (x y j : Z) (maps : list Z * list Z) :
  j <> idx x y ->
  cell (voronoi_pixel bits width ratio vrange n x y maps) j = cell maps j.
Proof.
  intros Hne. destruct maps as [vmap dmap]. unfold voronoi_pixel.
  fold (idx x y).
  destruct (Qltb _ _); [|reflexivity].
  destruct (read vmap (idx x y)) as [ev|]; [|reflexivity].
  assert (Hw : cell (write bits vmap (idx x y) (default 0 (n_vid n)),
                     write 8 dmap (idx x y)
                           (Qfloor (dmod_of ratio vrange n (distance ratio n x y) * 255))) j
               = cell (vmap, dmap) j).
  { unfold cell. cbn [fst snd]. rewrite !read_write_other by auto. reflexivity. }
  destruct (ev =? 0); [exact Hw|].
  destruct (read dmap (idx x y)) as [ds|]; [|reflexivity].
  destruct (Qltb _ _); [exact Hw | reflexivity].
Qed.

(** The pixel visited by the body, when the loops reach it. *)
Lemma voronoi_pixel_same (n : node) (x y : Z) (maps : list Z * list Z) (c : Z * Z) :
  sized maps ->
  x ∈ x_range width ratio vrange n ->
  y ∈ y_range height ratio vrange n ->
  0 <= x <= width -> 0 <= y <= height ->
  cell maps (idx x y) = Some c ->
  cell (voronoi_pixel bits width ratio vrange n x y maps) (idx x y)
  = Some (visit n x y c).
Proof.
  intros Hs Hxr Hyr Hx Hy Hc. destruct maps as [vmap dmap].
  pose proof (idx_bounds x y Hx Hy) as Hi.
  destruct Hs as [Hv Hd]. simpl in Hv, Hd.
  unfold visit, claims. rewrite !bool_decide_eq_true_2 by assumption. simpl andb.
  unfold voronoi_pixel. fold (idx x y).
  destruct (Qltb (distance ratio n x y) (nsize_of ratio n + vrange * ratio))
    eqn:Erange; [|exact Hc].
  apply Qltb_lt in Erange.
  pose proof (dmod_stored ratio vrange n _ Erange) as Hdq.
  set (dm := (dmod_of ratio vrange n (distance ratio n x y) * 255)%Q) in *.
  unfold cell in Hc. simpl in Hc.
  destruct (read vmap (idx x y)) as [ev|] eqn:Ev; [|discriminate].
  destruct (read dmap (idx x y)) as [ds|] eqn:Ed; [|discriminate].
  injection Hc as <-.
  assert (Hw : cell (write bits vmap (idx x y) (default 0 (n_vid n)),
                     write 8 dmap (idx x y) (Qfloor dm)) (idx x y)
               = Some (typed bits (default 0 (n_vid n)), Qfloor dm)).
  { unfold cell. cbn [fst snd]. rewrite !read_write_same by lia.
    rewrite (typed_small 8 (Qfloor dm)) by lia. reflexivity. }
  unfold claim_update. simpl fst. simpl snd.
  destruct (ev =? 0); [exact Hw|].
  destruct (Qltb dm (inject_Z ds)) eqn:Elt.
  - apply Qltb_lt, Qfloor_lt_int in Elt.
    destruct (Z.ltb_spec (Qfloor dm) ds); [exact Hw | lia].
  - apply Qltb_ge in Elt.
    destruct (Z.ltb_spec (Qfloor dm) ds) as [Hlt|]; [|unfold cell; simpl; rewrite Ev, Ed; reflexivity].
    apply Qfloor_lt_int in Hlt. lra.
Qed.

Lemma x_range_bounds (n : node) (x : Z) :
  x ∈ x_range width ratio vrange n -> 0 <= x <= width.
Proof. unfold x_range, for_range. rewrite elem_of_seqZ. lia. Qed.

Lemma y_range_bounds (n : node) (y : Z) :
  y ∈ y_range height ratio vrange n -> 0 <= y <= height.
Proof. unfold y_range, for_range. rewrite elem_of_seqZ. lia. Qed.

Lemma visit_outside (n : node) (x y : Z) (c : Z * Z) :
  ~ (x ∈ x_range width ratio vrange n /\ y ∈ y_range height ratio vrange n) ->
  visit n x y c = c.
Proof.
  intros Hout. unfold visit, claims.
  destruct (bool_decide (x ∈ x_range width ratio vrange n)) eqn:Ex;
    [|reflexivity].
  destruct (bool_decide (y ∈ y_range height ratio vrange n)) eqn:Ey;
    [|reflexivity].
  apply bool_decide_eq_true_1 in Ex, Ey. tauto.
Qed.

(** The loop over [y], for one [x]: the pixel is visited once when the
    loop reaches it, and is not written otherwise. *)
Lemma inner_loop (n : node) (x px py : Z) (ys : list Z) :
  forall (maps : list Z * list Z) (c : Z * Z),
    sized maps -> NoDup ys ->
    (forall y, y ∈ ys -> y ∈ y_range height ratio vrange n) ->
    x ∈ x_range width ratio vrange n ->
    0 <= px <= width -> 0 <= py <= height ->
    cell maps (idx px py) = Some c ->
    sized (foldl (fun m y => voronoi_pixel bits width ratio vrange n x y m) maps ys)
    /\ cell (foldl (fun m y => voronoi_pixel bits width ratio vrange n x y m) maps ys)
            (idx px py)
       = Some (if bool_decide (x = px /\ py ∈ ys) then visit n px py c else c).
Proof.
  induction ys as [|y ys IH]; intros maps c Hs Hnd Hys Hx Hpx Hpy Hc.
  - simpl foldl. split; [exact Hs|]. rewrite bool_decide_eq_false_2; [exact Hc|].
    intros [_ H]. inversion H.
  - apply NoDup_cons in Hnd as [Hy Hnd].
    assert (Hyr : y ∈ y_range height ratio vrange n) by (apply Hys; left).
    pose proof (x_range_bounds n x Hx) as Hxb.
    pose proof (y_range_bounds n y Hyr) as Hyb.
    pose proof (voronoi_pixel_sized n x y maps Hs) as Hs1.
    simpl foldl.
    destruct (decide (x = px /\ y = py)) as [[-> ->] | Hne].
    + pose proof (voronoi_pixel_same n px py maps c Hs Hx Hyr Hxb Hyb Hc) as Hc1.
      destruct (IH _ _ Hs1 Hnd (fun z Hz => Hys z (list_elem_of_further _ _ _ Hz))
                   Hx Hpx Hpy Hc1) as [Hs2 Hc2].
      split; [exact Hs2|]. rewrite Hc2.
      rewrite (bool_decide_eq_false_2 (px = px /\ py ∈ ys)) by tauto.
      rewrite bool_decide_eq_true_2; [reflexivity|]. split; [reflexivity | left].
    + assert (Hidx : idx px py <> idx x y).
      { intros H. apply idx_inj in H; [|lia|lia]. destruct H. auto. }
      pose proof (voronoi_pixel_other n x y (idx px py) maps Hidx) as Hc1.
      rewrite Hc in Hc1.
      destruct (IH _ _ Hs1 Hnd (fun z Hz => Hys z (list_elem_of_further _ _ _ Hz))
                   Hx Hpx Hpy Hc1) as [Hs2 Hc2].
      split; [exact Hs2|]. rewrite Hc2.
      apply f_equal. apply (f_equal (fun b : bool => if b then _ else _)).
      apply bool_decide_ext. rewrite elem_of_cons. split; [tauto|].
      intros [Hxp [Hyp | Hin]]; [exfalso; auto | tauto].
Qed.

(** The two loops of one node. *)
Lemma outer_loop (n : node) (px py : Z) (xs : list Z) :
  forall (maps : list Z * list Z) (c : Z * Z),
    sized maps -> NoDup xs ->
    (forall x, x ∈ xs -> x ∈ x_range width ratio vrange n) ->
    0 <= px <= width -> 0 <= py <= height ->
    cell maps (idx px py) = Some c ->
    let maps' :=
      foldl (fun m x =>
               foldl (fun m' y => voronoi_pixel bits width ratio vrange n x y m')
                     m (y_range height ratio vrange n))
            maps xs in
    sized maps'
    /\ cell maps' (idx px py)
       = Some (if bool_decide (px ∈ xs /\ py ∈ y_range height ratio vrange n)
               then visit n px py c else c).
Proof.
  induction xs as [|x xs IH]; intros maps c Hs Hnd Hxs Hpx Hpy Hc; cbv zeta.
  - simpl foldl. split; [exact Hs|]. rewrite bool_decide_eq_false_2; [exact Hc|].
    intros [H _]. inversion H.
  - apply NoDup_cons in Hnd as [Hx Hnd].
    assert (Hxr : x ∈ x_range width ratio vrange n) by (apply Hxs; left).
    simpl foldl.
    destruct (inner_loop n x px py (y_range height ratio vrange n) maps c Hs
                (NoDup_seqZ _ _) (fun y Hy => Hy) Hxr Hpx Hpy Hc) as [Hs1 Hc1].
    destruct (IH _ _ Hs1 Hnd (fun z Hz => Hxs z (list_elem_of_further _ _ _ Hz))
                 Hpx Hpy Hc1) as [Hs2 Hc2].
    split; [exact Hs2|]. rewrite Hc2.
    destruct (decide (x = px)) as [-> | Hne].
    + rewrite (bool_decide_eq_false_2
                 (px ∈ xs /\ py ∈ y_range height ratio vrange n)) by tauto.
      apply f_equal. apply (f_equal (fun b : bool => if b then _ else _)).
      apply bool_decide_ext. rewrite elem_of_cons. tauto.
    + rewrite (bool_decide_eq_false_2
                 (x = px /\ py ∈ y_range height ratio vrange n)) by tauto.
      apply f_equal. apply (f_equal (fun b : bool => if b then _ else _)).
      apply bool_decide_ext. rewrite elem_of_cons. split; [tauto|].
      intros [[Heq | Hin] Hy]; [congruence | tauto].
Qed.

(** The pass of one node, seen from a pixel. *)
Lemma voronoi_node_cell (n : node) (px py : Z) (maps : list Z * list Z) (c : Z * Z) :
  sized maps ->
  0 <= px <= width -> 0 <= py <= height ->
  cell maps (idx px py) = Some c ->
  sized (voronoi_node bits width height ratio vrange maps n)
  /\ cell (voronoi_node bits width height ratio vrange maps n) (idx px py)
     = Some (visit n px py c).
Proof.
  intros Hs Hpx Hpy Hc. unfold voronoi_node.
  destruct (outer_loop n px py (x_range width ratio vrange n) maps c Hs
              (NoDup_seqZ _ _) (fun x Hx => Hx) Hpx Hpy Hc) as [Hs1 Hc1].
  split; [exact Hs1|]. rewrite Hc1.
  destruct (bool_decide _) eqn:E; [reflexivity|].
  apply bool_decide_eq_false_1 in E. rewrite (visit_outside n px py c E).
  reflexivity.
Qed.

Lemma voronoi_fold_cell (px py : Z) (ns : list node) :
  forall (maps : list Z * list Z) (c : Z * Z),
    sized maps ->
    0 <= px <= width -> 0 <= py <= height ->
    cell maps (idx px py) = Some c ->
    cell (foldl (voronoi_node bits width height ratio vrange) maps ns) (idx px py)
    = Some (foldl (fun c' n => visit n px py c') c ns).
Proof.
  induction ns as [|n ns IH]; intros maps c Hs Hpx Hpy Hc; simpl; [exact Hc|].
  destruct (voronoi_node_cell n px py maps c Hs Hpx Hpy Hc) as [Hs1 Hc1].
  apply IH; assumption.
Qed.

(** The state of the pixel after the nodes of rank below [k]: no owner
    and the distance 255, or the voronoi id and the claim of the best node
    so far. *)
Definition tracks (best : option (nat * Z)) (c : Z * Z) : Prop :=
  match best with
  | None => c = (0, 255)
  | Some (kb, db) => c = (Z.of_nat (S kb), db)
  end.

Lemma visits_track (px py : Z) (ns : list node) :
  forall (k : nat) (best : option (nat * Z)) (c : Z * Z),
    tracks best c ->
    (forall (j : nat) n, ns !! j = Some n -> n_vid n = Some (Z.of_nat (S (k + j)))) ->
    Z.of_nat (k + length ns) < 2 ^ bits ->
    tracks (closest_from k (List.map (fun n => claims width height ratio vrange n px py) ns)
                         best)
           (foldl (fun c' n => visit n px py c') c ns).
Proof.
  induction ns as [|n ns IH]; intros k best c Ht Hvid Hbits; simpl; [exact Ht|].
  apply IH.
  - pose proof (Hvid O n eq_refl) as Hn. rewrite Nat.add_0_r in Hn.
    unfold visit. rewrite Hn. simpl default.
    rewrite typed_small by (simpl length in Hbits; lia).
    destruct (claims width height ratio vrange n px py) as [dq|]; [|exact Ht].
    unfold claim_update. destruct best as [[kb db]|]; simpl in Ht; subst c; simpl.
    + destruct (Z.eqb_spec (Z.pos (Pos.of_succ_nat kb)) 0); [lia|].
      destruct (dq <? db); reflexivity.
    + reflexivity.
  - intros j n' Hj. rewrite (Hvid (S j) n' Hj). do 3 f_equal. lia.
  - simpl length in Hbits. lia.
Qed.

End Pixels.

(** **** The first of the least claims *)

Lemma closest_from_least (cs : list (option Z)) :
  forall (k0 : nat) (best : option (nat * Z)),
    (forall kb db, best = Some (kb, db) -> (kb < k0)%nat) ->
    match closest_from k0 cs best with
    | None => best = None /\ forall (j : nat) d, cs !! j = Some (Some d) -> False
    | Some (k, d) =>
        (best = Some (k, d) \/ exists j : nat, k = (k0 + j)%nat /\ cs !! j = Some (Some d))
        /\ (forall kb db, best = Some (kb, db) -> d < db \/ (d = db /\ (k <= kb)%nat))
        /\ (forall (j : nat) d',
               cs !! j = Some (Some d') -> d < d' \/ (d = d' /\ (k <= k0 + j)%nat))
    end.
Proof.
  induction cs as [|c cs IH]; intros k0 best Hbest; simpl.
  - destruct best as [[kb db]|].
    + split; [left; reflexivity|]. split.
      * intros kb' db' H. injection H as <- <-. right. split; lia.
      * intros j d' H. destruct j; discriminate.
    + split; [reflexivity|]. intros j d H. destruct j; discriminate.
  - set (best' := match c, best with
                  | Some d, Some (_, db) => if d <? db then Some (k0, d) else best
                  | Some d, None => Some (k0, d)
                  | None, _ => best
                  end).
    assert (Hbest' : forall kb db, best' = Some (kb, db) -> (kb < S k0)%nat).
    { intros kb db H. unfold best' in H.
      destruct c as [dc|]; destruct best as [[kb0 db0]|];
        try destruct (dc <? db0); try injection H as <- <-;
        try discriminate; try lia;
        match goal with
        | Hb : forall _ _, Some _ = Some _ -> _ |- _ =>
            specialize (Hb _ _ eq_refl); lia
        end. }
    specialize (IH (S k0) best' Hbest').
    destruct (closest_from (S k0) cs best') as [[k d]|].
    + destruct IH as (Hmem & Hb & Hrest).
      assert (Hrest' : forall (j : nat) d',
                 cs !! j = Some (Some d') -> d < d' \/ (d = d' /\ (k <= k0 + S j)%nat)).
      { intros j d' H. destruct (Hrest j d' H) as [? | [? ?]]; [left | right]; lia. }
      unfold best' in Hmem, Hb.
      destruct c as [dc|]; destruct best as [[kb0 db0]|].
      * pose proof (Hbest _ _ eq_refl) as Hkb.
        destruct (Z.ltb_spec dc db0) as [Hlt | Hge].
        -- specialize (Hb _ _ eq_refl).
           split; [|split].
           ++ right. destruct Hmem as [H | (j & -> & Hj)].
              ** injection H as <- <-. exists O. split; [lia | reflexivity].
              ** exists (S j). split; [lia | exact Hj].
           ++ intros kb db H. injection H as <- <-. lia.
           ++ intros j d' H. destruct j as [|j]; simpl in H.
              ** injection H as <-. destruct Hb as [? | [? ?]]; [left | right]; lia.
              ** apply Hrest'. exact H.
        -- specialize (Hb _ _ eq_refl).
           split; [|split].
           ++ destruct Hmem as [H | (j & -> & Hj)]; [left; exact H|].
              right. exists (S j). split; [lia | exact Hj].
           ++ intros kb db H. injection H as <- <-. exact Hb.
           ++ intros j d' H. destruct j as [|j]; simpl in H.
              ** injection H as <-. lia.
              ** apply Hrest'. exact H.
      * specialize (Hb _ _ eq_refl).
        split; [|split].
        -- right. destruct Hmem as [H | (j & -> & Hj)].
           ++ injection H as <- <-. exists O. split; [lia | reflexivity].
           ++ exists (S j). split; [lia | exact Hj].
        -- intros kb db H. discriminate.
        -- intros j d' H. destruct j as [|j]; simpl in H.
           ++ injection H as <-. destruct Hb as [? | [? ?]]; [left | right]; lia.
           ++ apply Hrest'. exact H.
      * split; [|split].
        -- destruct Hmem as [H | (j & -> & Hj)]; [left; exact H|].
           right. exists (S j). split; [lia | exact Hj].
        -- exact Hb.
        -- intros j d' H. destruct j as [|j]; simpl in H; [discriminate|].
           apply Hrest'. exact H.
      * split; [|split].
        -- destruct Hmem as [H | (j & -> & Hj)]; [discriminate|].
           right. exists (S j). split; [lia | exact Hj].
        -- intros kb db H. discriminate.
        -- intros j d' H. destruct j as [|j]; simpl in H; [discriminate|].
           apply Hrest'. exact H.
    + destruct IH as [Hnone Hrest]. unfold best' in Hnone.
      destruct c as [dc|]; destruct best as [[kb0 db0]|];
        try destruct (dc <? db0); try discriminate.
      split; [reflexivity|].
      intros j d H. destruct j as [|j]; simpl in H; [discriminate|].
      apply (Hrest j d H).
Qed.

(** The node that [closest] names is the first of those with the least
    claim. *)
Lemma closest_first_least (cs : list (option Z)) (k : nat) (d : Z) :
  cs !! k = Some (Some d) ->
  (forall (j : nat) d', cs !! j = Some (Some d') -> d < d' \/ (d = d' /\ (k <= j)%nat)) ->
  closest cs = Some (k, d).
Proof.
  intros Hk Hleast. unfold closest.
  pose proof (closest_from_least cs O None ltac:(discriminate)) as H.
  destruct (closest_from 0 cs None) as [[k' d']|].
  - destruct H as (Hmem & _ & Hrest).
    destruct Hmem as [? | (j & -> & Hj)]; [discriminate|]. simpl in *.
    destruct (Hrest k d Hk) as [? | [? ?]];
      destruct (Hleast j d' Hj) as [? | [? ?]]; try lia.
    f_equal. f_equal; lia.
  - destruct H as [_ H]. exfalso. apply (H k d Hk).
Qed.

Lemma closest_none (cs : list (option Z)) :
  (forall (j : nat) d, cs !! j = Some (Some d) -> False) -> closest cs = None.
Proof.
  intros Hnone. unfold closest.
  pose proof (closest_from_least cs O None ltac:(discriminate)) as H.
  destruct (closest_from 0 cs None) as [[k d]|]; [|reflexivity].
  destruct H as (Hmem & _ & _).
  destruct Hmem as [? | (j & _ & Hj)]; [discriminate|].
  exfalso. apply (Hnone j d Hj).
Qed.

Lemma closest_in_range (cs : list (option Z)) (k : nat) (d : Z) :
  closest cs = Some (k, d) -> (k < length cs)%nat.
Proof.
  unfold closest. intros Hc.
  pose proof (closest_from_least cs O None ltac:(discriminate)) as H.
  rewrite Hc in H. destruct H as (Hmem & _ & _).
  destruct Hmem as [? | (j & -> & Hj)]; [discriminate|].
  apply lookup_lt_Some in Hj. lia.
Qed.

(** **** The voronoi ids *)

Definition set_vid (vid : nat) (n : node) : node :=
  mkNode (n_id n) (n_label n) (n_x n) (n_y n) (n_size n) (Some (Z.of_nat vid)).

Definition vid_step (q : string * node) (p : nat * string) : string * node :=
  if String.eqb (fst q) (snd p) then (fst q, set_vid (fst p) (snd q)) else q.

Lemma foldl_assign (ps : list (nat * string)) :
  forall g : graph,
    foldl (fun g' '(vid, nid) => updateNode (set_vid vid) nid g') g ps
    = mkGraph (List.map (fun q => foldl vid_step q ps) (g_nodes g)) (g_edges g).
Proof.
  induction ps as [|[vid nid] ps IH]; intros g; simpl.
  - rewrite List.map_id. destruct g; reflexivity.
  - rewrite IH. unfold updateNode. simpl. rewrite List.map_map. reflexivity.
Qed.

Lemma vid_steps_absent (ps : list (nat * string)) :
  forall q : string * node, fst q ∉ ps.*2 -> foldl vid_step q ps = q.
Proof.
  induction ps as [|[vid nid] ps IH]; intros q Hq; simpl; [reflexivity|].
  rewrite fmap_cons, not_elem_of_cons in Hq. destruct Hq as [Hne Hq].
  unfold vid_step at 2. simpl.
  destruct (String.eqb_spec (fst q) nid); [contradiction|]. apply IH. exact Hq.
Qed.

Lemma vid_steps_present (ps : list (nat * string)) :
  forall (q : string * node) (k vid : nat),
    NoDup (ps.*2) -> ps !! k = Some (vid, fst q) ->
    foldl vid_step q ps = (fst q, set_vid vid (snd q)).
Proof.
  induction ps as [|[vid0 nid] ps IH]; intros q k vid Hnd Hk; [destruct k; discriminate|].
  rewrite fmap_cons in Hnd. apply NoDup_cons in Hnd as [Hnid Hnd]. simpl in Hnid.
  simpl foldl. unfold vid_step at 2. simpl fst. simpl snd.
  destruct k as [|k]; simpl in Hk.
  - injection Hk as -> ->. rewrite String.eqb_refl.
    apply vid_steps_absent. exact Hnid.
  - destruct (String.eqb_spec (fst q) nid) as [<- | Hne].
    + exfalso. apply Hnid.
      apply (list_elem_of_fmap_2' snd _ (vid, fst q)); [|reflexivity].
      apply list_elem_of_lookup. eauto.
    + apply (IH q k vid Hnd Hk).
Qed.

(** The voronoi id of the node of rank [k] is [k + 1]. *)
Lemma assign_vids_nodes (g : graph) :
  NoDup (nodes g) ->
  g_nodes (assign_vids g)
  = imap (fun k q => (fst q, set_vid (S k) (snd q))) (g_nodes g).
Proof.
  intros Hnd.
  assert (Hfold : assign_vids g
                  = mkGraph
                      (List.map (fun q => foldl vid_step q
                                       (imap (fun i nid => (S i, nid)) (nodes g)))
                           (g_nodes g))
                      (g_edges g))
    by exact (foldl_assign (imap (fun i nid => (S i, nid)) (nodes g)) g).
  rewrite Hfold. cbn [g_nodes].
  assert (Hps : (imap (fun i nid => (S i, nid)) (nodes g)).*2 = nodes g).
  { apply list_eq. intros i. rewrite list_lookup_fmap, list_lookup_imap.
    destruct (nodes g !! i); reflexivity. }
  apply list_eq. intros k.
  change (List.map ?f ?l) with (f <$> l).
  rewrite list_lookup_fmap, list_lookup_imap.
  destruct (g_nodes g !! k) as [q|] eqn:Eq; [|reflexivity]. simpl.
  f_equal. apply (vid_steps_present _ q k (S k)).
  - rewrite Hps. exact Hnd.
  - rewrite list_lookup_imap. unfold nodes. rewrite list_lookup_fmap, Eq.
    reflexivity.
Qed.

Lemma assign_vids_ids (g : graph) :
  NoDup (nodes g) -> nodes (assign_vids g) = nodes g.
Proof.
  intros Hnd. unfold nodes at 1. rewrite (assign_vids_nodes g Hnd).
  apply list_eq. intros k. unfold nodes.
  rewrite !list_lookup_fmap, list_lookup_imap.
  destruct (g_nodes g !! k); reflexivity.
Qed.

(** The loop over the identifiers reads the attributes in the order of
    the nodes. *)
Lemma fold_attributes {M : Type} (F : M -> node -> M) (g : graph) :
  NoDup (nodes g) ->
  forall (l : list (string * node)) (m : M),
    (forall q, In q l -> In q (g_nodes g)) ->
    foldl (fun m' nid =>
             match getNodeAttributes g nid with
             | Some n => F m' n
             | None => m'
             end) m (l.*1)
    = foldl F m (l.*2).
Proof.
  intros Hnd. induction l as [|q l IH]; intros m Hl; simpl; [reflexivity|].
  unfold getNodeAttributes at 2.
  rewrite (find_unique_key (g_nodes g) q Hnd (Hl q (or_introl eq_refl))). simpl.
  apply IH. intros q' Hq'. apply Hl. right. exact Hq'.
Qed.

Lemma claims_set_vid {math : MathHost} (width height : Z) (ratio vrange : Q)
    (vid : nat) (n : node) (x y : Z) :
  claims width height ratio vrange (set_vid vid n) x y
  = claims width height ratio vrange n x y.
Proof. reflexivity. Qed.

Lemma vid_bits_fit (order : nat) :
  Z.of_nat order < 2 ^ 32 -> Z.of_nat order < 2 ^ vid_bits order.
Proof.
  intros H. unfold vid_bits.
  destruct (Z.ltb_spec (Z.of_nat order) 255); [lia|].
  destruct (Z.ltb_spec (Z.of_nat order) 65535); [lia | exact H].
Qed.

Lemma cell_reads (maps : list Z * list Z) (i vid d : Z) :
  cell maps i = Some (vid, d) ->
  read (fst maps) i = Some vid /\ read (snd maps) i = Some d.
Proof.
  unfold cell. destruct (read (fst maps) i); [|discriminate].
  destruct (read (snd maps) i); [|discriminate].
  intros H. injection H as -> ->. auto.
Qed.

Section Field.
Context {math : MathHost}.

(** The state of a pixel of the field follows the first of the least
    claims on it. *)
Lemma field_tracks_closest (bits width height : Z) (ratio vrange : Q)
    (g : graph) (x y : Z) :
  NoDup (nodes g) ->
  Z.of_nat (order g) < 2 ^ bits ->
  0 <= x <= width -> 0 <= y <= height ->
  exists c : Z * Z,
    cell (voronoi_nodes bits width height ratio vrange (assign_vids g)
            (new_array ((width + 1) * (height + 1)),
             replicate (Z.to_nat ((width + 1) * (height + 1))) 255))
         (x + (width + 1) * y) = Some c
    /\ tracks (closest (List.map (fun q => claims width height ratio vrange (snd q) x y)
                                 (g_nodes g))) c.
Proof.
  intros Hnd Hbits Hx Hy.
  pose proof (idx_bounds width height x y Hx Hy) as Hi.
  unfold idx, cells in Hi.
  set (maps0 := (new_array ((width + 1) * (height + 1)),
                 replicate (Z.to_nat ((width + 1) * (height + 1))) 255)).
  assert (Hs0 : sized width height maps0).
  { unfold sized, cells, maps0, new_array. simpl.
    rewrite !length_replicate. lia. }
  assert (Hc0 : cell maps0 (idx width x y) = Some (0, 255)).
  { unfold cell, maps0, new_array, idx. simpl.
    rewrite !read_replicate by lia. reflexivity. }
  pose proof (assign_vids_nodes g Hnd) as Hnodes.
  assert (Hnd' : NoDup (nodes (assign_vids g)))
    by (rewrite (assign_vids_ids g Hnd); exact Hnd).
  exists (foldl (fun c' n => visit bits width height ratio vrange n x y c')
                (0, 255) ((g_nodes (assign_vids g)).*2)).
  split.
  - unfold voronoi_nodes.
    change (nodes (assign_vids g)) with ((g_nodes (assign_vids g)).*1).
    rewrite (fold_attributes (voronoi_node bits width height ratio vrange)
               (assign_vids g) Hnd' (g_nodes (assign_vids g)) maps0 (fun q Hq => Hq)).
    apply (voronoi_fold_cell bits width height ratio vrange x y _ maps0 (0, 255)
             Hs0 Hx Hy Hc0).
  - assert (Hcs : List.map (fun q => claims width height ratio vrange (snd q) x y)
                           (g_nodes g)
                  = List.map (fun n => claims width height ratio vrange n x y)
                             ((g_nodes (assign_vids g)).*2)).
    { rewrite Hnodes. apply list_eq. intros k.
      change (List.map ?f ?l) with (f <$> l).
      rewrite !list_lookup_fmap, list_lookup_imap.
      destruct (g_nodes g !! k) as [q|]; reflexivity. }
    rewrite Hcs. unfold closest.
    apply (visits_track bits width height ratio vrange x y _ O None (0, 255)).
    + reflexivity.
    + intros j n Hj. rewrite Hnodes, list_lookup_fmap, list_lookup_imap in Hj.
      destruct (g_nodes g !! j) as [q|]; [|discriminate].
      simpl in Hj. injection Hj as <-. reflexivity.
    + rewrite length_fmap, Hnodes, length_imap. exact Hbits.
Qed.


End Field.

(** A host that computes: the square root to three decimals, rounded
    down, and the powers of integer exponent. *)
Definition approx_math : MathHost := {|
  Math_sqrt := fun q => (inject_Z (Z.sqrt (Qfloor (q * 1000000))) / 1000)%Q;
  Math_pow := fun a b => Qpower a (Qfloor b)
|}.

(** A frame of 10 x 5 pixels with a range of 3 pixels, and two nodes. *)
Definition small_frame : settings :=
  mkSettings 1 (1 # 2) 254 (3 # 10) 0 (Fin 80).

Definition two_nodes : graph :=
  mkGraph [("a", mkNode "a" "A" 2 2 1 None); ("b", mkNode "b" "B" 7 3 1 None)]%string [].

Example two_nodes_field :
  vidPixelMap (snd (@getVoronoiData approx_math small_frame two_nodes))
  = [1; 1; 1; 1; 1; 1; 2; 2; 2; 2; 0;
     1; 1; 1; 1; 1; 2; 2; 2; 2; 2; 2;
     1; 1; 1; 1; 1; 2; 2; 2; 2; 2; 2;
     1; 1; 1; 1; 1; 2; 2; 2; 2; 2; 2;
     1; 1; 1; 1; 1; 2; 2; 2; 2; 2; 2;
     1; 1; 1; 1; 1; 2; 2; 2; 2; 2; 2].
Proof. vm_compute. reflexivity. Qed.


End VoronoiFacts.

(** * Further properties *)

(** ** The slicer: the other representation, the program and its loop *)

Module SlicerCases.

Import JS Slicer SliceGexf JSFacts SlicerFacts.
Local Open Scope Q_scope.

Section Timestamps.
Context {dates : DateHost}.

Lemma overlap_timestamp_truthy (timeformat : string) (d : domnode) (s : slice) :
  truthy_ob (overlapDomnodeSlice_timestamp timeformat d s)
  = truthy_str (getAttribute d "timestamp")
    && (le (s_start s) (timeParser timeformat (getAttribute d "timestamp"))
        && lt (timeParser timeformat (getAttribute d "timestamp")) (s_end s)).
Proof.
  unfold overlapDomnodeSlice_timestamp.
  destruct (truthy_str (getAttribute d "timestamp")); reflexivity.
Qed.

(** X1.  Under the timestamp representation a node that carries a timestamp
    is active in a slice exactly when [S.start <= timestamp < S.end], and
    its spells are not read; a node without timestamp is active exactly
    when a spell of its first [spells] element carries a timestamp in that
    half-open window. *)
Theorem timestamp_membership (timeformat : string) (nodeDomnode : domnode) (s : slice) :
  truthy_ob (checkNodeSlice_timestamp timeformat nodeDomnode s) = true
  <-> (truthy_str (getAttribute nodeDomnode "timestamp") = true
       /\ le (s_start s) (timeParser timeformat (getAttribute nodeDomnode "timestamp"))
          && lt (timeParser timeformat (getAttribute nodeDomnode "timestamp")) (s_end s)
          = true)
      \/ (truthy_str (getAttribute nodeDomnode "timestamp") = false
          /\ exists sp : domnode,
               In sp (spells_of nodeDomnode)
               /\ truthy_str (getAttribute sp "timestamp") = true
               /\ le (s_start s) (timeParser timeformat (getAttribute sp "timestamp"))
                  && lt (timeParser timeformat (getAttribute sp "timestamp")) (s_end s)
                  = true).
Proof.
  unfold checkNodeSlice_timestamp.
  destruct (truthy_str (getAttribute nodeDomnode "timestamp")) eqn:Ets.
  - rewrite overlap_timestamp_truthy, Ets. simpl. split.
    + intros H. left. auto.
    + intros [[_ H] | [H _]]; [exact H | discriminate].
  - rewrite check_spells_truthy. split.
    + intros (sp & Hin & Hov). right. split; [reflexivity|].
      rewrite overlap_timestamp_truthy in Hov.
      apply andb_true_iff in Hov as [Hts Hov]. exists sp. auto.
    + intros [[H _] | [_ (sp & Hin & Hts & Hov)]]; [discriminate|].
      exists sp. split; [exact Hin|].
      rewrite overlap_timestamp_truthy, Hts. exact Hov.
Qed.

(** *** The membership test reads the window of the slice only *)

Lemma spells_loop_window (overlap : domnode -> slice -> option bool)
    (spellDomnodes : list domnode) (s s' : slice) :
  (forall sp, overlap sp s = overlap sp s') ->
  spells_loop overlap spellDomnodes s = spells_loop overlap spellDomnodes s'.
Proof.
  intros H. induction spellDomnodes as [|sp rest IH]; simpl; [reflexivity|].
  rewrite H, IH. reflexivity.
Qed.

Lemma checkNodeSlice_window (timeformat timerepresentation : string)
    (nodeDomnode : domnode) (s s' : slice) :
  s_start s = s_start s' -> s_end s = s_end s' ->
  checkNodeSlice timeformat timerepresentation nodeDomnode s
  = checkNodeSlice timeformat timerepresentation nodeDomnode s'.
Proof.
  intros Hs He. unfold checkNodeSlice.
  destruct (String.eqb timerepresentation "interval").
  - unfold checkNodeSlice_interval, check_spells.
    assert (Hov : forall d, overlapDomnodeSlice_interval timeformat d s
                            = overlapDomnodeSlice_interval timeformat d s')
      by (intros d; unfold overlapDomnodeSlice_interval; rewrite Hs, He; reflexivity).
    rewrite Hov.
    destruct (getElementsByTagName nodeDomnode "spells"); [reflexivity|].
    rewrite (spells_loop_window _ _ s s' Hov). reflexivity.
  - unfold checkNodeSlice_timestamp, check_spells.
    assert (Hov : forall d, overlapDomnodeSlice_timestamp timeformat d s
                            = overlapDomnodeSlice_timestamp timeformat d s')
      by (intros d; unfold overlapDomnodeSlice_timestamp; rewrite Hs, He; reflexivity).
    rewrite Hov.
    destruct (getElementsByTagName nodeDomnode "spells"); [reflexivity|].
    rewrite (spells_loop_window _ _ s s' Hov). reflexivity.
Qed.

(** The slices after the loop over the nodes: each slice has received
    the entries of its active nodes, in the order of the document. *)
Definition filled (timeformat timerepresentation : string)
    (nodeDomnodes : list domnode) (s : slice) : slice :=
  mkSlice (s_start s) (s_end s)
    (s_nodes s
     ++ List.map node_entry
          (List.filter
             (fun nd => truthy_ob (checkNodeSlice timeformat timerepresentation nd s))
             nodeDomnodes))
    (s_edges s).

Lemma fill_slices_cons (check : domnode -> slice -> option bool)
    (nd : domnode) (rest : list domnode) (slices : list slice) :
  fill_slices check (nd :: rest) slices
  = fill_slices check rest
      (List.map (fun s =>
              if truthy_ob (check nd s)
              then mkSlice (s_start s) (s_end s) (s_nodes s ++ [node_entry nd])
                           (s_edges s)
              else s) slices).
Proof. reflexivity. Qed.

Lemma fill_slices_map (timeformat timerepresentation : string)
    (nodeDomnodes : list domnode) :
  forall slices : list slice,
    fill_slices (checkNodeSlice timeformat timerepresentation) nodeDomnodes slices
    = List.map (filled timeformat timerepresentation nodeDomnodes) slices.
Proof.
  induction nodeDomnodes as [|nd rest IH]; intros slices.
  - unfold fill_slices, filled. simpl.
    induction slices as [|s slices IHs]; simpl; [reflexivity|].
    rewrite app_nil_r. destruct s. simpl. f_equal. exact IHs.
  - rewrite fill_slices_cons, IH, List.map_map. apply List.map_ext. intros s.
    unfold filled. simpl List.filter.
    destruct (truthy_ob (checkNodeSlice timeformat timerepresentation nd s)) eqn:E.
    + simpl. rewrite <- app_assoc. simpl. f_equal. f_equal. f_equal. f_equal.
      apply List.filter_ext. intros nd'. f_equal.
      apply checkNodeSlice_window; reflexivity.
    + reflexivity.
Qed.

(** *** The loop of the empty slices, on any numbers *)

(** An empty slice of the window that starts at [s_start]. *)
Definition empty_window (wRange : num) (s : slice) : Prop :=
  s_end s = add (s_start s) wRange /\ s_nodes s = [] /\ s_edges s = [].

Lemma slices_run_windows (wRange wStep dateMax : num) (fuel : nat) :
  forall (st : loop_state) (slices : list slice),
    slices_run fuel dateMax wRange wStep st = Some slices ->
    Forall (empty_window wRange) (snd st) ->
    Forall (empty_window wRange) slices.
Proof.
  induction fuel as [|fuel IH]; intros st slices H Hacc; [discriminate|].
  rewrite slices_run_S in H.
  destruct (slices_step dateMax wRange wStep st) as [st'|] eqn:E.
  - apply (IH st' slices H). destruct st as [i acc]. unfold slices_step in E.
    destruct (le i (sub dateMax wRange)); [|discriminate].
    injection E as <-. simpl in *. apply Forall_app. split; [exact Hacc|].
    constructor; [|constructor]. repeat split.
  - injection H as <-. exact Hacc.
Qed.

(** X2.  Whatever the envelope, the range and the stride, under the interval
    or the timestamp representation, the slices the slicer ends with are
    in the number the loop built; each has
    [end = start + range], no edge, and for nodes the entries (identifier
    and label) of the nodes that are active in it, in the order of the
    document. *)
Theorem built_slices_shape (timeformat timerepresentation : string)
    (nodeDomnodes : list domnode) (fuel : nat)
    (dateMin dateMax wRange wStep : num) (slices0 : list slice) :
  functions_assigned timerepresentation = true ->
  build_slices fuel dateMin dateMax wRange wStep = Some slices0 ->
  let slices :=
    fill_slices (checkNodeSlice timeformat timerepresentation) nodeDomnodes slices0 in
  length slices = length slices0
  /\ forall (k : nat) (s : slice),
       slices !! k = Some s ->
       s_end s = add (s_start s) wRange
       /\ s_edges s = []
       /\ s_nodes s
          = List.map node_entry
              (List.filter
                 (fun nd =>
                    truthy_ob (checkNodeSlice timeformat timerepresentation nd s))
                 nodeDomnodes).
Proof.
  intros _ Hrun slices. unfold slices. rewrite fill_slices_map.
  split; [apply length_map|].
  intros k s Hk.
  change (List.map ?f ?l) with (f <$> l) in Hk.
  rewrite list_lookup_fmap in Hk.
  destruct (slices0 !! k) as [s0|] eqn:E0; [|discriminate].
  simpl in Hk. injection Hk as <-.
  assert (Hw : empty_window wRange s0).
  { pose proof (slices_run_windows wRange wStep dateMax fuel (dateMin, []) slices0
                  Hrun (List.Forall_nil _)) as Hall.
    rewrite List.Forall_forall in Hall. apply Hall.
    apply list_elem_of_In, list_elem_of_lookup. eauto. }
  destruct Hw as (He & Hn & Hed). unfold filled. simpl.
  rewrite Hn, Hed. simpl. split; [exact He|]. split; [reflexivity|].
  f_equal. apply List.filter_ext. intros nd. f_equal.
  apply checkNodeSlice_window; reflexivity.
Qed.

(** *** How the program ends *)

Lemma supported_not_assigned (timerepresentation : string) :
  timerepresentation_supported timerepresentation = true ->
  functions_assigned timerepresentation = false ->
  timerepresentation = EmptyString.
Proof.
  unfold timerepresentation_supported, functions_assigned.
  destruct (String.eqb_spec timerepresentation "interval"); [discriminate|].
  destruct (String.eqb_spec timerepresentation ""); [auto|].
  destruct (String.eqb_spec timerepresentation "timestamp"); discriminate.
Qed.

(** What the program does once the elements of the document are found. *)
Definition after_parse (fuel : nat) (o : options) (graphDomnode : domnode)
    (nodeDomnodes : list domnode) : outcome :=
  if negb (mode_dynamic graphDomnode) then Exited 0 else
  let timeformat := getAttribute graphDomnode "timeformat" in
  if negb (timeformat_supported timeformat) then Exited 0 else
  let timerepresentation := getAttribute graphDomnode "timerepresentation" in
  if negb (timerepresentation_supported timerepresentation) then Exited 0 else
  if negb (functions_assigned timerepresentation)
     && negb (Nat.eqb (length nodeDomnodes) 0) then Thrown else
  let '(dateMin, dateMax) := dateEnvelope timeformat timerepresentation nodeDomnodes in
  match build_slices fuel dateMin dateMax (windowRange o timeformat)
          (windowStep o timeformat) with
  | None => Running
  | Some slices =>
      Sliced (fill_slices (checkNodeSlice timeformat timerepresentation)
                nodeDomnodes slices)
  end.

Lemma slice_gexf_parse (fuel : nat) (o : options) (doc : domnode) :
  slice_gexf fuel o doc =
  match graph_element doc with
  | None => Thrown
  | Some graphDomnode =>
      match node_elements graphDomnode with
      | None => Thrown
      | Some nodeDomnodes =>
          match edges_element graphDomnode with
          | None => Thrown
          | Some _ => after_parse fuel o graphDomnode nodeDomnodes
          end
      end
  end.
Proof.
  unfold slice_gexf, graph_element, node_elements, edges_element, after_parse.
  destruct (getElementsByTagName doc "gexf") as [|gexfDomnode ?]; [reflexivity|].
  cbn [head mbind option_bind].
  destruct (getElementsByTagName gexfDomnode "graph") as [|graphDomnode ?];
    [reflexivity|].
  cbn [head mbind option_bind].
  destruct (getElementsByTagName graphDomnode "nodes") as [|nodesDomnode ?];
    [reflexivity|].
  cbn [head mbind option_bind].
  destruct (getElementsByTagName graphDomnode "edges") as [|edgesDomnode ?];
    reflexivity.
Qed.

Lemma after_parse_exits (fuel : nat) (o : options) (graphDomnode : domnode)
    (nodeDomnodes : list domnode) (status : Z) :
  after_parse fuel o graphDomnode nodeDomnodes = Exited status
  <-> status = 0%Z
      /\ (mode_dynamic graphDomnode = false
          \/ timeformat_supported (getAttribute graphDomnode "timeformat") = false
          \/ timerepresentation_supported
               (getAttribute graphDomnode "timerepresentation") = false).
Proof.
  unfold after_parse.
  destruct (mode_dynamic graphDomnode); cbn [negb].
  2:{ split; [intros H; injection H; auto | intros [-> _]; reflexivity]. }
  destruct (timeformat_supported _); cbn [negb].
  2:{ split; [intros H; injection H; auto | intros [-> _]; reflexivity]. }
  destruct (timerepresentation_supported _); cbn [negb].
  2:{ split; [intros H; injection H; auto | intros [-> _]; reflexivity]. }
  split.
  - destruct (negb (functions_assigned _) && _); [discriminate|].
    destruct (dateEnvelope _ _ _) as [dateMin dateMax].
    destruct (build_slices _ _ _ _ _); discriminate.
  - intros [_ [H | [H | H]]]; discriminate.
Qed.

Lemma after_parse_throws (fuel : nat) (o : options) (graphDomnode : domnode)
    (nodeDomnodes : list domnode) :
  after_parse fuel o graphDomnode nodeDomnodes = Thrown
  <-> nodeDomnodes <> []
      /\ mode_dynamic graphDomnode = true
      /\ timeformat_supported (getAttribute graphDomnode "timeformat") = true
      /\ getAttribute graphDomnode "timerepresentation" = EmptyString.
Proof.
  unfold after_parse.
  destruct (mode_dynamic graphDomnode); cbn [negb].
  2:{ split; [discriminate | intros (_ & H & _); discriminate]. }
  destruct (timeformat_supported _); cbn [negb].
  2:{ split; [discriminate | intros (_ & _ & H & _); discriminate]. }
  destruct (timerepresentation_supported _) eqn:Er; cbn [negb].
  2:{ split; [discriminate|]. intros (_ & _ & _ & H). rewrite H in Er. discriminate. }
  destruct (functions_assigned _) eqn:Ea; cbn [negb andb].
  - split.
    + destruct (dateEnvelope _ _ _) as [dateMin dateMax].
      destruct (build_slices _ _ _ _ _); discriminate.
    + intros (_ & _ & _ & H). rewrite H in Ea. discriminate.
  - pose proof (supported_not_assigned _ Er Ea) as Hempty.
    destruct nodeDomnodes as [|nd rest]; cbn [length Nat.eqb negb].
    + split.
      * destruct (dateEnvelope _ _ _) as [dateMin dateMax].
        destruct (build_slices _ _ _ _ _); discriminate.
      * intros [H _]. congruence.
    + split; [|reflexivity]. intros _. repeat split; auto.
Qed.

(** X3.  The program never exits with a status other than 0; it exits, with
    the status 0, exactly when the document has its [graph], [nodes] and
    [edges] elements and the mode is not dynamic, or the time format or the
    time representation is not a supported one. *)
Theorem slice_gexf_exits (fuel : nat) (o : options) (doc : domnode) :
  (forall status : Z, slice_gexf fuel o doc = Exited status -> status = 0%Z)
  /\ (slice_gexf fuel o doc = Exited 0
      <-> exists (graphDomnode : domnode) (nodeDomnodes : list domnode)
                 (edgesDomnode : domnode),
            graph_element doc = Some graphDomnode
            /\ node_elements graphDomnode = Some nodeDomnodes
            /\ edges_element graphDomnode = Some edgesDomnode
            /\ (mode_dynamic graphDomnode = false
                \/ timeformat_supported (getAttribute graphDomnode "timeformat") = false
                \/ timerepresentation_supported
                     (getAttribute graphDomnode "timerepresentation") = false)).
Proof.
  rewrite slice_gexf_parse.
  destruct (graph_element doc) as [graphDomnode|].
  2:{ split; [discriminate|]. split; [discriminate|].
      intros (? & ? & ? & H & _). discriminate. }
  destruct (node_elements graphDomnode) as [nodeDomnodes|] eqn:En.
  2:{ split; [discriminate|]. split; [discriminate|].
      intros (g & ? & ? & H & H' & _). injection H as <-. congruence. }
  destruct (edges_element graphDomnode) as [edgesDomnode|] eqn:Ee.
  2:{ split; [discriminate|]. split; [discriminate|].
      intros (g & ? & ? & H & _ & H' & _). injection H as <-. congruence. }
  split.
  - intros status H. apply after_parse_exits in H. tauto.
  - rewrite after_parse_exits. split.
    + intros [_ H]. exists graphDomnode, nodeDomnodes, edgesDomnode. auto.
    + intros (g & ns & e & H & Hn & _ & Hor). injection H as <-.
      split; [reflexivity | exact Hor].
Qed.

(** X4.  The program throws exactly when the document lacks its [gexf], [graph],
    [nodes] or [edges] element, or when, the checks passed, the time
    representation is absent and there is a node: the absent attribute is
    accepted as the interval representation, but the functions that read
    the dates are then not assigned. *)
Theorem slice_gexf_throws (fuel : nat) (o : options) (doc : domnode) :
  slice_gexf fuel o doc = Thrown
  <-> graph_element doc = None
      \/ exists graphDomnode : domnode,
           graph_element doc = Some graphDomnode
           /\ (node_elements graphDomnode = None
               \/ edges_element graphDomnode = None
               \/ exists nodeDomnodes : list domnode,
                    node_elements graphDomnode = Some nodeDomnodes
                    /\ nodeDomnodes <> []
                    /\ mode_dynamic graphDomnode = true
                    /\ timeformat_supported (getAttribute graphDomnode "timeformat") = true
                    /\ getAttribute graphDomnode "timerepresentation" = EmptyString).
Proof.
  rewrite slice_gexf_parse.
  destruct (graph_element doc) as [graphDomnode|]; [|split; auto].
  destruct (node_elements graphDomnode) as [nodeDomnodes|] eqn:En.
  2:{ split; [|reflexivity]. intros _. right. exists graphDomnode. auto. }
  destruct (edges_element graphDomnode) as [edgesDomnode|] eqn:Ee.
  2:{ split; [|reflexivity]. intros _. right. exists graphDomnode. auto. }
  rewrite after_parse_throws. split.
  - intros H. right. exists graphDomnode. split; [reflexivity|].
    right. right. exists nodeDomnodes. auto.
  - intros [H | (g & H & Hg)]; [discriminate|]. injection H as <-.
    destruct Hg as [H | [H | (ns & H & Hrest)]]; [congruence | congruence |].
    rewrite En in H. injection H as <-. exact Hrest.
Qed.

End Timestamps.

(** The envelope [0, 30] with windows of 10 every 10, and one node on
    [12, 14]. *)
Definition node_12_14 : domnode :=
  Element "node" {[ "id" := "n"; "label" := "N"; "start" := "12"; "end" := "14" ]}%string [].

Lemma built_slices_shape_witness :
  exists slices0 : list slice,
    functions_assigned "interval" = true
    /\ build_slices 5 (Fin 0) (Fin 30) (Fin 10) (Fin 10) = Some slices0
    /\ length (fill_slices (@checkNodeSlice no_dates "integer" "interval")
                           [node_12_14] slices0) = length slices0
    /\ forall (k : nat) (s : slice),
         fill_slices (@checkNodeSlice no_dates "integer" "interval")
                     [node_12_14] slices0 !! k = Some s ->
         s_end s = add (s_start s) (Fin 10)
         /\ s_edges s = []
         /\ s_nodes s
            = List.map node_entry
                (List.filter
                   (fun nd =>
                      truthy_ob (@checkNodeSlice no_dates "integer" "interval" nd s))
                   [node_12_14]).
Proof.
  eexists. split; [reflexivity|]. split; [vm_compute; reflexivity|].
  apply (@built_slices_shape no_dates "integer" "interval" [node_12_14] 5
           (Fin 0) (Fin 30) (Fin 10) (Fin 10)).
  - reflexivity.
  - vm_compute. reflexivity.
Defined.

End SlicerCases.

(** ** The date envelope *)

Module EnvelopeFacts.

Import JS JSObject Slicer SliceGexf JSFacts SlicerFacts SlicerCases.
Local Open Scope Q_scope.

(** *** The order of the numbers that are not NaN *)

Lemma le_refl (a : num) : a <> NaN -> le a a = true.
Proof.
  destruct a; simpl; try congruence; intros _.
  apply Qle_bool_iff. lra.
Qed.

Lemma le_trans (a b c : num) : le a b = true -> le b c = true -> le a c = true.
Proof.
  destruct a, b, c; simpl; try congruence.
  rewrite !Qle_bool_iff. intros; lra.
Qed.

Lemma not_lt_le (a b : num) :
  a <> NaN -> b <> NaN -> lt b a = false -> le a b = true.
Proof.
  destruct a, b; simpl; try congruence; intros _ _.
  rewrite Qltb_ge. apply Qle_bool_iff.
Qed.

Lemma lt_le (a b : num) : lt a b = true -> le a b = true.
Proof.
  destruct a, b; simpl; try congruence.
  rewrite Qltb_lt, Qle_bool_iff. intros; lra.
Qed.

Lemma min_cases (a b : num) :
  a <> NaN -> b <> NaN -> JS.min a b = a \/ JS.min a b = b.
Proof.
  intros Ha Hb. destruct a, b; try congruence; simpl;
    try (destruct (Qltb _ _)); auto.
Qed.

Lemma max_cases (a b : num) :
  a <> NaN -> b <> NaN -> JS.max a b = a \/ JS.max a b = b.
Proof.
  intros Ha Hb. destruct a, b; try congruence; simpl;
    try (destruct (Qltb _ _)); auto.
Qed.

Lemma min_if (a b : num) :
  a <> NaN -> b <> NaN -> JS.min a b = if lt b a then b else a.
Proof. intros Ha Hb. destruct a, b; try congruence; reflexivity. Qed.

Lemma max_if (a b : num) :
  a <> NaN -> b <> NaN -> JS.max a b = if lt a b then b else a.
Proof. intros Ha Hb. destruct a, b; try congruence; reflexivity. Qed.

Lemma min_le (a b : num) :
  a <> NaN -> b <> NaN ->
  le (JS.min a b) a = true /\ le (JS.min a b) b = true.
Proof.
  intros Ha Hb. rewrite min_if by assumption.
  destruct (lt b a) eqn:E.
  - split; [apply lt_le; exact E | apply le_refl; exact Hb].
  - split; [apply le_refl; exact Ha | apply not_lt_le; assumption].
Qed.

Lemma max_le (a b : num) :
  a <> NaN -> b <> NaN ->
  le a (JS.max a b) = true /\ le b (JS.max a b) = true.
Proof.
  intros Ha Hb. rewrite max_if by assumption.
  destruct (lt a b) eqn:E.
  - split; [apply lt_le; exact E | apply le_refl; exact Hb].
  - split; [apply le_refl; exact Ha | apply not_lt_le; assumption].
Qed.

Lemma min_NaN_l (b : num) : JS.min NaN b = NaN.
Proof. reflexivity. Qed.

Lemma min_NaN_r (a : num) : JS.min a NaN = NaN.
Proof. destruct a; reflexivity. Qed.

Lemma max_NaN_r (a : num) : JS.max a NaN = NaN.
Proof. destruct a; reflexivity. Qed.

(** *** The scan as one fold over the parsed dates *)

(** One turn of [dates.forEach]: [dateMin] and [dateMax] after a date. *)
Definition widen (mm : num * num) (date : num) : num * num :=
  (JS.min mm.1 date, JS.max mm.2 date).

Lemma widen_fold (l : list num) : forall lo hi lo' hi',
  Forall (fun x => x <> NaN) l -> lo <> NaN -> hi <> NaN ->
  fold_left widen l (lo, hi) = (lo', hi') ->
  lo' <> NaN /\ hi' <> NaN
  /\ le lo' lo = true /\ le hi hi' = true
  /\ (forall x, In x l -> le lo' x = true /\ le x hi' = true)
  /\ (lo' = lo \/ In lo' l) /\ (hi' = hi \/ In hi' l).
Proof.
  induction l as [|x l IH]; intros lo hi lo' hi' Hl Hlo Hhi Hfold.
  - simpl in Hfold. injection Hfold as <- <-.
    repeat split; auto using le_refl; intros x [].
  - apply Forall_cons in Hl as [Hx Hl].
    simpl in Hfold. unfold widen at 2 in Hfold. cbn [fst snd] in Hfold.
    destruct (min_cases lo x Hlo Hx) as [Emin | Emin];
      destruct (max_cases hi x Hhi Hx) as [Emax | Emax].
    all: pose proof (min_le lo x Hlo Hx) as [Hm1 Hm2].
    all: pose proof (max_le hi x Hhi Hx) as [HM1 HM2].
    all: assert (Hmin : JS.min lo x <> NaN) by (rewrite Emin; assumption).
    all: assert (Hmax : JS.max hi x <> NaN) by (rewrite Emax; assumption).
    all: destruct (IH _ _ _ _ Hl Hmin Hmax Hfold)
      as (Hlo' & Hhi' & Hle1 & Hle2 & Hall & Hin1 & Hin2).
    all: split; [exact Hlo'|]; split; [exact Hhi'|].
    all: split; [eapply le_trans; eassumption|].
    all: split; [eapply le_trans; eassumption|].
    all: split;
      [intros y [<- | Hy];
       [split; eapply le_trans; eassumption | apply Hall; exact Hy]|].
    all: rewrite Emin in Hin1; rewrite Emax in Hin2.
    all: split; [destruct Hin1 as [-> | ?] | destruct Hin2 as [-> | ?]];
      simpl; auto.
Qed.

Lemma widen_fold_NaN (l : list num) : forall lo hi,
  (lo = NaN /\ hi = NaN) \/ In NaN l ->
  fold_left widen l (lo, hi) = (NaN, NaN).
Proof.
  induction l as [|x l IH]; intros lo hi H.
  - destruct H as [[-> ->] | []]. reflexivity.
  - simpl. unfold widen at 2. cbn [fst snd]. apply IH.
    destruct H as [[-> ->] | [-> | H]].
    + left. split; reflexivity.
    + left. rewrite min_NaN_r, max_NaN_r. auto.
    + right. exact H.
Qed.

Section Envelope.
Context {dates : DateHost}.

(** The dates of all node elements, parsed, in the order of the scan. *)
Definition all_dates (timeformat timerepresentation : string)
    (nodeDomnodes : list domnode) : list num :=
  flat_map (fun nd => List.map (timeParser timeformat)
                        (nodeDates timerepresentation nd))
           nodeDomnodes.

(** No date string of the document is a property of [Object.prototype]:
    the object [dates] then keeps exactly the strings assigned to it. *)
Definition plain_dates (timerepresentation : string)
    (nodeDomnodes : list domnode) : bool :=
  forallb (fun nd => plain_keys (nodeDates timerepresentation nd)) nodeDomnodes.

Lemma node_fold (timeformat : string) (ds : list string) : forall mm,
  fold_left (fun '(lo, hi) d0 =>
               let date := timeParser timeformat d0 in
               (JS.min lo date, JS.max hi date)) ds mm
  = fold_left widen (List.map (timeParser timeformat) ds) mm.
Proof.
  induction ds as [|d ds IH]; intros [lo hi]; [reflexivity|].
  simpl. rewrite IH. reflexivity.
Qed.

Lemma dateEnvelope_fold (timeformat timerepresentation : string)
    (nodeDomnodes : list domnode) :
  dateEnvelope timeformat timerepresentation nodeDomnodes
  = fold_left widen (all_dates timeformat timerepresentation nodeDomnodes)
              (PosInf, NegInf).
Proof.
  unfold dateEnvelope, all_dates.
  generalize (PosInf, NegInf).
  induction nodeDomnodes as [|nd rest IH]; intros mm; [reflexivity|].
  simpl. rewrite fold_left_app, IH, node_fold. reflexivity.
Qed.

(** *** The date strings the scan reads *)

(** The date attributes of one element. *)
Definition own_dates (timerepresentation : string) (e : domnode) : list string :=
  if String.eqb timerepresentation "interval"
  then [getAttribute e "start"; getAttribute e "end"]
  else [getAttribute e "timestamp"].

Lemma pileDates_keys (timerepresentation : string) (e : domnode)
    (m : gmap string bool) (d : string) :
  is_Some (pileDates timerepresentation e m !! d)
  <-> is_Some (m !! d)
      \/ (truthy_str d = true /\ In d (own_dates timerepresentation e)).
Proof.
  unfold pileDates, own_dates.
  destruct (String.eqb timerepresentation "interval").
  - destruct (truthy_str (getAttribute e "start")) eqn:Es;
      destruct (truthy_str (getAttribute e "end")) eqn:Ee;
      rewrite ?lookup_insert_is_Some'; simpl In; split.
    all: intros H; intuition (subst; auto; congruence).
  - destruct (truthy_str (getAttribute e "timestamp")) eqn:Et;
      rewrite ?lookup_insert_is_Some'; simpl In; split.
    all: intros H; intuition (subst; auto; congruence).
Qed.

Lemma pileDates_fold_keys (timerepresentation : string) (sps : list domnode)
    (d : string) : forall m : gmap string bool,
  is_Some (fold_left (fun acc sp => pileDates timerepresentation sp acc) sps m !! d)
  <-> is_Some (m !! d)
      \/ (truthy_str d = true
          /\ exists sp, In sp sps /\ In d (own_dates timerepresentation sp)).
Proof.
  induction sps as [|sp sps IH]; intros m; simpl.
  - split; [auto | intros [H | (_ & sp & [] & _)]; exact H].
  - rewrite IH, pileDates_keys. split.
    + intros [[H | [Ht H]] | (Ht & sp' & Hin & H)]; eauto 7.
    + intros [H | (Ht & sp' & [<- | Hin] & H)]; eauto 7.
Qed.

Lemma keys_In (m : gmap string bool) (d : string) :
  In d (map_to_list m).*1 <-> is_Some (m !! d).
Proof.
  rewrite <- list_elem_of_In, list_elem_of_fmap. split.
  - intros ([k v] & -> & Hkv). apply elem_of_map_to_list in Hkv.
    simpl. eauto.
  - intros [v Hv]. exists (d, v). split; [reflexivity|].
    apply elem_of_map_to_list. exact Hv.
Qed.

Lemma nodeDates_keys (timerepresentation : string) (nd : domnode) (d : string) :
  In d (nodeDates timerepresentation nd)
  <-> truthy_str d = true
      /\ exists e, (e = nd \/ In e (spells_of nd))
                   /\ In d (own_dates timerepresentation e).
Proof.
  unfold nodeDates, spells_of. cbv zeta. rewrite keys_In.
  destruct (getElementsByTagName nd "spells") as [|spellsDomnode ?].
  - rewrite pileDates_keys, lookup_empty. split.
    + intros [[? H] | [Ht H]]; [discriminate|]. eauto.
    + intros (Ht & e & [-> | []] & H). auto.
  - rewrite pileDates_fold_keys, pileDates_keys, lookup_empty. split.
    + intros [[[? H] | [Ht H]] | (Ht & sp & Hin & H)]; [discriminate| |]; eauto 7.
    + intros (Ht & e & [-> | Hin] & H); eauto 7.
Qed.

(** X5.  The date strings read for a node are the non-empty values of the
    date attributes of the node element and of the spell elements below
    its first spells element: start and end under the interval
    representation, timestamp under the timestamp representation.  The
    string is any but a property name of [Object.prototype]. *)
Theorem node_dates_read (nd : domnode) (d : string) :
  plain_key d = true ->
  (In d (nodeDates "interval" nd)
   <-> d <> EmptyString
       /\ exists e, (e = nd \/ In e (spells_of nd))
                    /\ (d = getAttribute e "start" \/ d = getAttribute e "end"))
  /\ (In d (nodeDates "timestamp" nd)
      <-> d <> EmptyString
          /\ exists e, (e = nd \/ In e (spells_of nd))
                       /\ d = getAttribute e "timestamp").
Proof.
  intros _.
  assert (Ht : truthy_str d = true <-> d <> EmptyString).
  { unfold truthy_str. rewrite negb_true_iff.
    destruct (String.eqb_spec d ""); split; congruence. }
  rewrite !nodeDates_keys, Ht. unfold own_dates. simpl.
  split; split.
  - intros (Hd & e & He & [H | [H | []]]); split; eauto.
  - intros (Hd & e & He & [H | H]); split; eauto 6.
  - intros (Hd & e & He & [H | []]); split; eauto.
  - intros (Hd & e & He & H); split; eauto 6.
Qed.

(** X6.  When every date of the node elements parses to a number, the scan
    ends with the least and the greatest of the parsed dates: both are
    dates of the document and every date lies between them; without any
    date the envelope stays at (Infinity, -Infinity). *)
Theorem date_envelope_bounds (timeformat timerepresentation : string)
    (nodeDomnodes : list domnode) :
  functions_assigned timerepresentation = true ->
  plain_dates timerepresentation nodeDomnodes = true ->
  Forall (fun date => date <> NaN)
         (all_dates timeformat timerepresentation nodeDomnodes) ->
  let dateMin := (dateEnvelope timeformat timerepresentation nodeDomnodes).1 in
  let dateMax := (dateEnvelope timeformat timerepresentation nodeDomnodes).2 in
  (forall date, In date (all_dates timeformat timerepresentation nodeDomnodes) ->
                le dateMin date = true /\ le date dateMax = true)
  /\ (all_dates timeformat timerepresentation nodeDomnodes <> [] ->
      In dateMin (all_dates timeformat timerepresentation nodeDomnodes)
      /\ In dateMax (all_dates timeformat timerepresentation nodeDomnodes))
  /\ (all_dates timeformat timerepresentation nodeDomnodes = [] ->
      dateMin = PosInf /\ dateMax = NegInf).
Proof.
  intros _ _ Hall. rewrite dateEnvelope_fold.
  destruct (fold_left widen _ _) as [lo hi] eqn:Efold. cbn [fst snd].
  assert (Hp : PosInf <> NaN) by discriminate.
  assert (Hn : NegInf <> NaN) by discriminate.
  destruct (widen_fold _ _ _ _ _ Hall Hp Hn Efold)
    as (Hlo & Hhi & _ & _ & Hbetween & Hin1 & Hin2).
  split; [exact Hbetween|]. split.
  - intros Hne.
    destruct (all_dates timeformat timerepresentation nodeDomnodes) as [|x l] eqn:E;
      [congruence|].
    destruct (Hbetween x (or_introl eq_refl)) as [H1 H2].
    split.
    + destruct Hin1 as [-> | H]; [|exact H].
      destruct x; simpl in H1; try discriminate. left. reflexivity.
    + destruct Hin2 as [-> | H]; [|exact H].
      destruct x; simpl in H2; try discriminate. left. reflexivity.
  - intros E. rewrite E in Efold. simpl in Efold. injection Efold as <- <-. auto.
Qed.

(** A date that does not parse to a number turns both ends of the
    envelope into NaN, and they stay so. *)
Lemma dateEnvelope_NaN (timeformat timerepresentation : string)
    (nodeDomnodes : list domnode) :
  In NaN (all_dates timeformat timerepresentation nodeDomnodes) ->
  dateEnvelope timeformat timerepresentation nodeDomnodes = (NaN, NaN).
Proof.
  intros H. rewrite dateEnvelope_fold. apply widen_fold_NaN. auto.
Qed.

Lemma fill_slices_nil (check : domnode -> slice -> option bool)
    (nodeDomnodes : list domnode) :
  fill_slices check nodeDomnodes [] = [].
Proof.
  unfold fill_slices. induction nodeDomnodes as [|nd rest IH]; simpl; auto.
Qed.


End Envelope.

(** A node on [12, 14] with a spell on [3, 20]. *)
Definition node_with_spell : domnode :=
  Element "node" {[ "id" := "n"; "start" := "12"; "end" := "14" ]}%string
    [Element "spells" ∅
       [Element "spell" {[ "start" := "3"; "end" := "20" ]}%string []]].

Lemma node_dates_read_witness :
  plain_key "12" = true
  /\ (In "12"%string (nodeDates "interval" node_with_spell)
      <-> "12"%string <> EmptyString
          /\ exists e, (e = node_with_spell \/ In e (spells_of node_with_spell))
                       /\ ("12"%string = getAttribute e "start"
                           \/ "12"%string = getAttribute e "end")).
Proof.
  assert (H1 : plain_key "12" = true) by reflexivity.
  split; [exact H1|].
  exact (proj1 (node_dates_read node_with_spell "12" H1)).
Defined.

Lemma date_envelope_bounds_witness :
  functions_assigned "interval" = true
  /\ plain_dates "interval" [node_with_spell] = true
  /\ Forall (fun date => date <> NaN)
            (@all_dates no_dates "integer" "interval" [node_with_spell])
  /\ (forall date,
         In date (@all_dates no_dates "integer" "interval" [node_with_spell]) ->
         le (@dateEnvelope no_dates "integer" "interval" [node_with_spell]).1 date = true
         /\ le date (@dateEnvelope no_dates "integer" "interval" [node_with_spell]).2
            = true)
  /\ (@all_dates no_dates "integer" "interval" [node_with_spell] <> [] ->
      In (@dateEnvelope no_dates "integer" "interval" [node_with_spell]).1
         (@all_dates no_dates "integer" "interval" [node_with_spell])
      /\ In (@dateEnvelope no_dates "integer" "interval" [node_with_spell]).2
            (@all_dates no_dates "integer" "interval" [node_with_spell]))
  /\ (@all_dates no_dates "integer" "interval" [node_with_spell] = [] ->
      (@dateEnvelope no_dates "integer" "interval" [node_with_spell]).1 = PosInf
      /\ (@dateEnvelope no_dates "integer" "interval" [node_with_spell]).2 = NegInf).
Proof.
  assert (H1 : functions_assigned "interval" = true) by reflexivity.
  assert (H2 : Forall (fun date => date <> NaN)
                 (@all_dates no_dates "integer" "interval" [node_with_spell])).
  { vm_compute. repeat constructor; discriminate. }
  assert (H0 : plain_dates "interval" [node_with_spell] = true)
    by (vm_compute; reflexivity).
  split; [exact H1|]. split; [exact H0|]. split; [exact H2|].
  exact (@date_envelope_bounds no_dates "integer" "interval" [node_with_spell]
           H1 H0 H2).
Defined.

(** A dynamic document whose only node starts at a date that is not a
    number. *)
Definition node_starting_soon : domnode :=
  Element "node" {[ "id" := "n"; "start" := "soon" ]}%string [].

Definition graph_with_unparsable_date : domnode :=
  Element "graph"
    {[ "mode" := "dynamic"; "timeformat" := "integer";
       "timerepresentation" := "interval" ]}%string
    [Element "nodes" ∅ [node_starting_soon]; Element "edges" ∅ []].

Definition doc_with_unparsable_date : domnode :=
  Element "#document" ∅
    [Element "gexf" {[ "version" := "1.3" ]}%string [graph_with_unparsable_date]].


(** *** The window and the stride against the envelope *)

Lemma unit_ratio_pos (timeformat : string) : 0 < windowUnitRatio timeformat.
Proof. unfold windowUnitRatio. destruct (date_like timeformat); reflexivity. Qed.

Lemma nonpositive_stride_runs_on (dmax range step : Q) (fuel : nat) :
  step <= 0 ->
  forall i acc,
    i <= dmax - range ->
    slices_run fuel (Fin dmax) (Fin range) (Fin step) (Fin i, acc) = None.
Proof.
  intros Hstep. induction fuel as [|fuel IH]; intros i acc Hi; [reflexivity|].
  rewrite slices_run_S. unfold slices_step. cbn [sub le add].
  assert (Hin : Qle_bool i (dmax - range) = true) by (apply Qle_bool_iff; exact Hi).
  rewrite Hin. apply IH. lra.
Qed.

(** X8.  A range option that is zero or negative makes the window and the
    stride zero or negative, and on an envelope that is not empty the
    condition of the loop then holds at every turn: the loop never leaves,
    whatever the step option. *)
Theorem nonpositive_range_never_returns (fuel : nat) (o : options)
    (timeformat range : string) (q dmin dmax : Q) :
  opt_range o = Some range ->
  truthy_str range = true ->
  to_number range = Fin q ->
  q <= 0 ->
  dmin <= dmax ->
  slicer fuel o timeformat (Fin dmin) (Fin dmax) = None.
Proof.
  intros Ho Ht Hq Hneg Henv.
  unfold slicer, build_slices, windowRange, windowStep.
  rewrite Ho. simpl truthy_opt. rewrite Ht. simpl default. rewrite Hq. cbn [mul].
  pose proof (unit_ratio_pos timeformat) as Hr.
  assert (Hprod : q * windowUnitRatio timeformat <= 0).
  { assert (H : q * windowUnitRatio timeformat <= 0 * windowUnitRatio timeformat)
      by (apply Qmult_le_compat_r; lra).
    lra. }
  apply nonpositive_stride_runs_on; [exact Hprod | lra].
Qed.

(** X9.  When the envelope is shorter than the window the loop is left at
    its first test and there is no slice at all, whatever the stride: so
    it is without a range option for dates that span less than a week
    (604800000 milliseconds), and for numbers that span less than 1. *)
Theorem window_wider_than_envelope (fuel : nat) (o : options)
    (timeformat : string) (range dmin dmax : Q) :
  windowRange o timeformat = Fin range ->
  dmax - dmin < range ->
  slicer (S fuel) o timeformat (Fin dmin) (Fin dmax) = Some []
  /\ (opt_range o = None ->
      range == (if date_like timeformat then 604800000 else 1)).
Proof.
  intros Hrange Hshort. split.
  - unfold slicer, build_slices. rewrite Hrange, slices_run_S.
    unfold slices_step. cbn [sub le].
    assert (Hout : Qle_bool dmin (dmax - range) = false)
      by (apply Qle_bool_gt; lra).
    rewrite Hout. reflexivity.
  - intros Ho. revert Hrange. unfold windowRange, windowRangeDefault, windowUnitRatio.
    rewrite Ho. cbn [truthy_opt mul].
    destruct (date_like timeformat); intros H; injection H as <-; reflexivity.
Qed.


Lemma nonpositive_range_never_returns_witness :
  opt_range (mkOptions "graph.gexf" (Some "-5"%string) (Some "1"%string))
  = Some "-5"%string
  /\ truthy_str "-5" = true
  /\ to_number "-5" = Fin (- (5 + 0 / 1))
  /\ - (5 + 0 / 1) <= 0
  /\ 0 <= 30
  /\ slicer 1000
       (mkOptions "graph.gexf" (Some "-5"%string) (Some "1"%string)) "integer"
       (Fin 0) (Fin 30) = None.
Proof.
  assert (H1 : opt_range (mkOptions "graph.gexf" (Some "-5"%string) (Some "1"%string))
               = Some "-5"%string) by reflexivity.
  assert (H2 : truthy_str "-5" = true) by reflexivity.
  assert (H3 : to_number "-5" = Fin (- (5 + 0 / 1))) by reflexivity.
  assert (H4 : - (5 + 0 / 1) <= 0) by (vm_compute; discriminate).
  assert (H5 : 0 <= 30) by (vm_compute; discriminate).
  repeat (split; [assumption|]).
  exact (nonpositive_range_never_returns 1000 _ "integer" _ _ _ _
           H1 H2 H3 H4 H5).
Defined.

Lemma window_wider_than_envelope_witness :
  windowRange (mkOptions "graph.gexf" None None) "date" = Fin (7 * 24 * 60 * 60 * 1000)
  /\ 86400000 - 0 < 7 * 24 * 60 * 60 * 1000
  /\ slicer 1 (mkOptions "graph.gexf" None None) "date"
       (Fin 0) (Fin 86400000) = Some []
  /\ (opt_range (mkOptions "graph.gexf" None None) = None ->
      7 * 24 * 60 * 60 * 1000 == (if date_like "date" then 604800000 else 1)).
Proof.
  assert (H1 : windowRange (mkOptions "graph.gexf" None None) "date"
               = Fin (7 * 24 * 60 * 60 * 1000)) by reflexivity.
  assert (H2 : 86400000 - 0 < 7 * 24 * 60 * 60 * 1000) by (vm_compute; reflexivity).
  split; [exact H1|]. split; [exact H2|].
  exact (window_wider_than_envelope 0 _ "date" _ 0 86400000 H1 H2).
Defined.


End EnvelopeFacts.

(** ** The sampled slice, on every index *)

Module SampleCases.

Import JS Sample JSFacts SampleFacts.
Local Open Scope Q_scope.

Lemma digit_not_char (c : ascii) (d : Z) (other : ascii) :
  digit_of c = Some d -> digit_of other = None -> Ascii.eqb c other = false.
Proof.
  intros Hc Ho. destruct (Ascii.eqb_spec c other) as [-> | ]; congruence.
Qed.

Lemma digits_val_nonneg (s : string) : forall acc v : Z,
  (0 <= acc)%Z -> digits_val s acc = Some v -> (0 <= v)%Z.
Proof.
  induction s as [|c r IH]; intros acc v Hacc H; simpl in H.
  - injection H as <-. exact Hacc.
  - destruct (digit_of c) as [d|] eqn:Ed; [|discriminate].
    refine (IH _ _ _ H).
    unfold digit_of in Ed.
    destruct ((48 <=? Z.of_nat (nat_of_ascii c)) && (Z.of_nat (nat_of_ascii c) <=? 57))%Z
      eqn:E; [|discriminate].
    injection Ed as <-. apply andb_true_iff in E as [E1 E2]. lia.
Qed.

Lemma digits_no_dot (s : string) : forall acc v : Z,
  digits_val s acc = Some v -> split_dot s = (s, None).
Proof.
  induction s as [|c r IH]; intros acc v H; simpl in H; [reflexivity|].
  destruct (digit_of c) as [d|] eqn:Ed; [|discriminate].
  simpl. rewrite (digit_not_char c d "."%char Ed eq_refl).
  rewrite (IH _ _ H). reflexivity.
Qed.

(** The number of a canonical index is the index. *)
Lemma canonical_number (key : string) (i : nat) :
  canonical_index key = Some i ->
  exists q : Q, to_number key = Fin q /\ q == inject_Z (Z.of_nat i).
Proof.
  destruct key as [|c r]; [discriminate|]. unfold canonical_index.
  destruct (Ascii.eqb c "0" && negb (String.eqb r ""))%bool; [discriminate|].
  destruct (digits_val (String c r) 0) as [z|] eqn:Ez; [|discriminate].
  simpl option_map. intros H. injection H as <-.
  pose proof (digits_val_nonneg _ _ _ (Z.le_refl 0) Ez) as Hz.
  pose proof (digits_no_dot _ _ _ Ez) as Hdot.
  assert (Hd : exists d, digit_of c = Some d).
  { simpl in Ez. destruct (digit_of c) as [d|]; [eauto | discriminate]. }
  destruct Hd as [d Hd].
  unfold to_number.
  rewrite (digit_not_char c d "-"%char Hd eq_refl).
  rewrite (digit_not_char c d "+"%char Hd eq_refl).
  unfold unsigned_number. rewrite Hdot.
  cbn [String.eqb andb]. rewrite Ez. cbn [digits_val String.length].
  eexists. split; [reflexivity|].
  rewrite Z2Nat.id by exact Hz.
  unfold Qeq, Qplus, Qdiv, Qmult, Qinv, inject_Z. simpl. lia.
Qed.

(** X11.  A sample option that is written as the index of a slice, in
    canonical decimal digits, passes the range check, and the slice that
    is sampled is the slice at that index: [--sample 0] is the first one. *)
Theorem sample_reads_its_slice {A : Type} (slices : list A) (sample : string)
    (i : nat) (x : A) :
  canonical_index sample = Some i ->
  slices !! i = Some x ->
  sample_slice slices (Some sample) = Sampled (Some x).
Proof.
  intros Hkey Hx.
  destruct (canonical_number _ _ Hkey) as (q & Hnum & Hq).
  pose proof (lookup_lt_Some _ _ _ Hx) as Hlt.
  unfold sample_slice, out_of_range, slices_at. simpl truthy_opt.
  rewrite (canonical_index_truthy _ _ Hkey). simpl default.
  rewrite Hnum, Hkey, Hx. simpl lt.
  assert (Hi : 0 <= inject_Z (Z.of_nat i)).
  { change 0 with (inject_Z 0). rewrite <- Zle_Qle. lia. }
  assert (Hl : inject_Z (Z.of_nat i) <= inject_Z (Z.of_nat (length slices))).
  { rewrite <- Zle_Qle. lia. }
  assert (H0 : Qltb q 0 = false) by (apply Qltb_ge; lra).
  assert (H1 : Qltb (inject_Z (Z.of_nat (length slices))) q = false)
    by (apply Qltb_ge; lra).
  rewrite H0, H1. reflexivity.
Qed.

Lemma sample_reads_its_slice_witness :
  canonical_index "0" = Some O
  /\ ["slice 0"; "slice 1"]%string !! O = Some "slice 0"%string
  /\ sample_slice ["slice 0"; "slice 1"]%string (Some "0"%string)
     = Sampled (Some "slice 0"%string).
Proof.
  assert (H1 : canonical_index "0" = Some O) by reflexivity.
  assert (H2 : ["slice 0"; "slice 1"]%string !! O = Some "slice 0"%string)
    by reflexivity.
  split; [exact H1|]. split; [exact H2|].
  exact (sample_reads_its_slice _ "0" O _ H1 H2).
Defined.

End SampleCases.

(** ** The graph of a slice: when it is built, and what it is *)

Module NetworkFacts.

Import Graph GraphFacts.

Section Build.
Context {A : Type}.

Definition node_pair (id_of : A -> string) (n : A) : string * A := (id_of n, n).

Definition directed (e : string * string) : edge := mkEdge (fst e) (snd e) false.

Lemma hasNode_elem (g : graph A) (nid : string) :
  hasNode g nid = true <-> nid ∈ nodes g.
Proof.
  unfold hasNode, nodes. induction (g_nodes g) as [|p l IH]; simpl.
  - split; [discriminate | intros H; inversion H].
  - rewrite orb_true_iff, IH, elem_of_cons, String.eqb_eq.
    split; intros [H | H]; auto.
Qed.

Lemma hasDirectedEdge_elem (g : graph A) (s t : string) :
  hasDirectedEdge g s t = true <-> mkEdge s t false ∈ g_edges g.
Proof.
  unfold hasDirectedEdge. induction (g_edges g) as [|e l IH]; simpl.
  - split; [discriminate | intros H; inversion H].
  - rewrite orb_true_iff, IH, elem_of_cons, !andb_true_iff, negb_true_iff,
      !String.eqb_eq.
    destruct e as [s' t' u]; simpl. split.
    + intros [[[-> ->] ->] | H]; auto.
    + intros [H | H]; [injection H as <- <- <-|]; auto.
Qed.

Lemma foldl_none {B : Type} (f : graph A -> B -> option (graph A)) (l : list B) :
  foldl (fun og x => og ≫= fun g => f g x) None l = None.
Proof. induction l as [|x l IH]; simpl; auto. Qed.

Lemma add_nodes (id_of : A -> string) (ns : list A) : forall g0 g : graph A,
  foldl (fun og n => og ≫= fun g => addNode g (id_of n) n) (Some g0) ns = Some g
  <-> g = mkGraph (g_nodes g0 ++ (node_pair id_of <$> ns)) (g_edges g0)
      /\ NoDup (id_of <$> ns)
      /\ (forall nid, nid ∈ (id_of <$> ns) -> nid ∉ nodes g0).
Proof.
  induction ns as [|n ns IH]; intros g0 g; simpl.
  - rewrite app_nil_r. split.
    + intros H. injection H as <-. destruct g0; simpl.
      split; [reflexivity|]. split; [constructor|]. intros nid H. inversion H.
    + intros (-> & _). destruct g0; reflexivity.
  - unfold addNode at 2.
    destruct (hasNode g0 (id_of n)) eqn:Eh.
    + simpl. rewrite foldl_none. split; [discriminate|].
      intros (_ & _ & H). exfalso.
      apply (H (id_of n)); [left | apply hasNode_elem; exact Eh].
    + simpl. rewrite IH. simpl. rewrite <- app_assoc. simpl.
      assert (Hn : id_of n ∉ nodes g0).
      { rewrite <- hasNode_elem, Eh. discriminate. }
      unfold nodes. simpl. rewrite fmap_app. simpl.
      rewrite NoDup_cons. split.
      * intros (-> & Hnd & Hout). split; [reflexivity|]. split.
        -- split; [|exact Hnd]. intros Hin.
           apply (Hout _ Hin). apply elem_of_app. right. left.
        -- intros nid Hin Hg0. apply elem_of_cons in Hin as [-> | Hin];
             [exact (Hn Hg0)|].
           apply (Hout _ Hin). apply elem_of_app. left. exact Hg0.
      * intros (-> & [Hfresh Hnd] & Hout). split; [reflexivity|].
        split; [exact Hnd|].
        intros nid Hin Hg0. apply elem_of_app in Hg0 as [Hg0 | Hg0].
        -- apply (Hout nid); [right; exact Hin | exact Hg0].
        -- apply list_elem_of_singleton in Hg0 as ->. exact (Hfresh Hin).
Qed.

Lemma add_edges (es : list (string * string)) : forall g1 g : graph A,
  foldl (fun og e => og ≫= fun g => addEdge g (fst e) (snd e)) (Some g1) es = Some g
  <-> g = mkGraph (g_nodes g1) (g_edges g1 ++ (directed <$> es))
      /\ NoDup es
      /\ (forall e, e ∈ es ->
            fst e <> snd e /\ fst e ∈ nodes g1 /\ snd e ∈ nodes g1
            /\ directed e ∉ g_edges g1).
Proof.
  induction es as [|e es IH]; intros g1 g; simpl.
  - rewrite app_nil_r. split.
    + intros H. injection H as <-. destruct g1; simpl.
      split; [reflexivity|]. split; [constructor|]. intros e H. inversion H.
    + intros (-> & _). destruct g1; reflexivity.
  - unfold addEdge at 2.
    destruct (hasNode g1 (fst e)) eqn:Es; simpl.
    2:{ rewrite foldl_none. split; [discriminate|]. intros (_ & _ & H).
        destruct (H e ltac:(left)) as (_ & H1 & _).
        apply hasNode_elem in H1. congruence. }
    destruct (hasNode g1 (snd e)) eqn:Et; simpl.
    2:{ rewrite foldl_none. split; [discriminate|]. intros (_ & _ & H).
        destruct (H e ltac:(left)) as (_ & _ & H1 & _).
        apply hasNode_elem in H1. congruence. }
    destruct (String.eqb_spec (fst e) (snd e)) as [Heq | Hne]; simpl.
    { rewrite foldl_none. split; [discriminate|]. intros (_ & _ & H).
      destruct (H e ltac:(left)) as (H1 & _). contradiction. }
    destruct (hasDirectedEdge g1 (fst e) (snd e)) eqn:Ed; simpl.
    { rewrite foldl_none. split; [discriminate|]. intros (_ & _ & H).
      destruct (H e ltac:(left)) as (_ & _ & _ & H1).
      apply hasDirectedEdge_elem in Ed. contradiction. }
    apply hasNode_elem in Es. apply hasNode_elem in Et.
    assert (Hd : directed e ∉ g_edges g1).
    { intros H. apply hasDirectedEdge_elem in H. congruence. }
    rewrite IH. simpl. rewrite <- app_assoc. simpl.
    fold (directed e). rewrite NoDup_cons.
    assert (Hinj : forall e', directed e' = directed e -> e' = e).
    { intros [s' t'] H. destruct e. injection H as -> ->. reflexivity. }
    unfold nodes. simpl. split.
    + intros (-> & Hnd & Hall). split; [reflexivity|]. split.
      * split; [|exact Hnd]. intros Hin.
        destruct (Hall _ Hin) as (_ & _ & _ & H). apply H.
        apply elem_of_app. right. left.
      * intros e' Hin. apply elem_of_cons in Hin as [-> | Hin]; [auto|].
        destruct (Hall _ Hin) as (H1 & H2 & H3 & H4).
        repeat split; auto. intros H. apply H4. apply elem_of_app. auto.
    + intros (-> & [Hfresh Hnd] & Hall). split; [reflexivity|].
      split; [exact Hnd|].
      intros e' Hin. destruct (Hall e' ltac:(right; exact Hin)) as (H1 & H2 & H3 & H4).
      repeat split; auto.
      intros H. apply elem_of_app in H as [H | H]; [exact (H4 H)|].
      apply list_elem_of_singleton in H. apply Hinj in H. subst e'.
      exact (Hfresh Hin).
Qed.

(** X12.  buildNetwork returns a graph exactly when the identifiers of the
    nodes of the slice are distinct, its edges are distinct, and every
    edge joins two different nodes of the slice; the graph then has the
    nodes of the slice in their order, each with the whole object as its
    attributes, and one directed edge per edge of the slice, in their
    order.  In every other case a call of the graph library throws. *)
Theorem buildNetwork_succeeds_iff (id_of : A -> string) (s : slice A)
    (g : graph A) :
  buildNetwork id_of s = Some g
  <-> g = mkGraph (node_pair id_of <$> s_nodes s) (directed <$> s_edges s)
      /\ NoDup (id_of <$> s_nodes s)
      /\ NoDup (s_edges s)
      /\ (forall e, e ∈ s_edges s ->
            fst e <> snd e
            /\ fst e ∈ (id_of <$> s_nodes s)
            /\ snd e ∈ (id_of <$> s_nodes s)).
Proof.
  unfold buildNetwork.
  assert (Hids : forall ns : list A,
             (node_pair id_of <$> ns).*1 = id_of <$> ns).
  { intros ns. rewrite <- list_fmap_compose. reflexivity. }
  split.
  - intros H.
    destruct (foldl _ (Some empty) (s_nodes s)) as [g1|] eqn:E1; [|discriminate].
    simpl in H. apply add_nodes in E1 as (-> & Hnd & _).
    apply add_edges in H as (-> & Hnde & Hall). simpl in *.
    split; [reflexivity|]. split; [exact Hnd|]. split; [exact Hnde|].
    intros e He. destruct (Hall e He) as (H1 & H2 & H3 & _).
    unfold nodes in H2, H3. simpl in H2, H3. rewrite Hids in H2, H3. auto.
  - intros (-> & Hnd & Hnde & Hall).
    assert (E1 : foldl (fun og n => og ≫= fun g => addNode g (id_of n) n)
                       (Some empty) (s_nodes s)
                 = Some (mkGraph (node_pair id_of <$> s_nodes s) [])).
    { apply add_nodes. simpl. split; [reflexivity|]. split; [exact Hnd|].
      intros nid _ H. inversion H. }
    rewrite E1. simpl. apply add_edges. simpl.
    split; [reflexivity|]. split; [exact Hnde|].
    intros e He. destruct (Hall e He) as (H1 & H2 & H3).
    unfold nodes. simpl. rewrite Hids.
    repeat split; auto. intros H. inversion H.
Qed.

End Build.

End NetworkFacts.

(** ** The seeding of the positions, node by node *)

Module SeedingFacts.

Import JS JSObject Graph Layout LayoutRun JSFacts GraphFacts LayoutFacts.
Local Open Scope Q_scope.

Section WithHost.
Context {math : MathHost} {random : RandomHost}.

(** A node the seeding places at random: it lacks a coordinate and none
    of its neighbours has a position. *)
Definition unplaced (g : graph) (nid : string) : bool :=
  match getNodeAttributes g nid with
  | Some n =>
      lacks_coordinates n
      && Nat.eqb (length (positioned_neighbors g nid)) 0
  | None => false
  end.

(** The position made of two successive calls of [Math.random]. *)
Definition random_position (g : graph) (calls : nat) : Q * Q :=
  ((Math_random calls - (1 # 2)) * spreading g,
   (Math_random (S calls) - (1 # 2)) * spreading g).

Lemma neighbor_count (g : graph) (nid : string) :
  foldl (add_neighbor g) (0, 0, O) (neighbors g nid)
  = (fst (sum_positions (positioned_neighbors g nid)),
     snd (sum_positions (positioned_neighbors g nid)),
     length (positioned_neighbors g nid)).
Proof. rewrite neighbor_fold_sum. reflexivity. Qed.

Lemma seed_node_calls (g : graph) (st : gmap string (Q * Q) * nat) (nid : string) :
  snd (seed_node g st nid)
  = (snd st + (if unplaced g nid then 2 else 0))%nat.
Proof.
  destruct st as [nodesIndex calls]. unfold seed_node, unplaced, lacks_coordinates.
  destruct (getNodeAttributes g nid) as [n|]; [|simpl; lia].
  destruct (negb (truthy_coord (n_x n)) || negb (truthy_coord (n_y n)));
    [|simpl; lia].
  rewrite neighbor_count. cbn [andb].
  destruct (Nat.eqb (length (positioned_neighbors g nid)) 0); simpl; lia.
Qed.

Lemma seed_fold_calls (g : graph) (l : list string) :
  forall st : gmap string (Q * Q) * nat,
    snd (foldl (seed_node g) st l)
    = (snd st + 2 * length (List.filter (unplaced g) l))%nat.
Proof.
  induction l as [|a l IH]; intros st; simpl; [lia|].
  rewrite IH, seed_node_calls.
  destruct (unplaced g a); simpl; lia.
Qed.

Lemma seed_node_random (g : graph) (st : gmap string (Q * Q) * nat)
    (nid : string) (n : node) :
  getNodeAttributes g nid = Some n ->
  lacks_coordinates n = true ->
  positioned_neighbors g nid = [] ->
  fst (seed_node g st nid) !! nid = Some (random_position g (snd st)).
Proof.
  intros Hn Hlack Hpos. destruct st as [nodesIndex calls].
  unfold seed_node. rewrite Hn. unfold lacks_coordinates in Hlack. rewrite Hlack.
  rewrite neighbor_count, Hpos. simpl.
  rewrite lookup_insert_eq. reflexivity.
Qed.

Lemma seed_node_kept (g : graph) (st : gmap string (Q * Q) * nat)
    (nid : string) (n : node) :
  getNodeAttributes g nid = Some n ->
  lacks_coordinates n = false ->
  seed_node g st nid = st.
Proof.
  intros Hn Hlack. destruct st as [nodesIndex calls].
  unfold seed_node. rewrite Hn. unfold lacks_coordinates in Hlack. rewrite Hlack.
  reflexivity.
Qed.

Lemma seed_fold_other (g : graph) (nid : string) (l : list string) :
  ~ In nid l ->
  forall st : gmap string (Q * Q) * nat,
    fst (foldl (seed_node g) st l) !! nid = fst st !! nid.
Proof.
  induction l as [|a l IH]; intros Hout st; simpl; [reflexivity|].
  rewrite IH by (intros H; apply Hout; right; exact H).
  apply seed_node_other. intros ->. apply Hout. left. reflexivity.
Qed.

Lemma seed_fold_kept (g : graph) (nid : string) (n : node) (l : list string) :
  getNodeAttributes g nid = Some n ->
  lacks_coordinates n = false ->
  forall st : gmap string (Q * Q) * nat,
    fst (foldl (seed_node g) st l) !! nid = fst st !! nid.
Proof.
  intros Hn Hlack. induction l as [|a l IH]; intros st; simpl; [reflexivity|].
  rewrite IH. destruct (String.eqb_spec a nid) as [-> | Hne].
  - rewrite (seed_node_kept g st nid n Hn Hlack). reflexivity.
  - apply seed_node_other. exact Hne.
Qed.

(** The position after the second loop, from the index. *)
Lemma assigned_position (g : graph) (nodesIndex : gmap string (Q * Q))
    (nid : string) (n : node) :
  getNodeAttributes g nid = Some n ->
  position (assign_index nodesIndex g) nid
  = match nodesIndex !! nid with
    | Some xy => Some xy
    | None => position g nid
    end.
Proof.
  intros Hn. unfold position, assign_index.
  rewrite getNodeAttributes_map.
  - unfold getNodeAttributes in *.
    destruct (List.find _ (g_nodes g)) as [p|] eqn:E; [|discriminate].
    simpl in Hn. injection Hn as <-.
    simpl. rewrite (find_node_id _ _ _ E).
    destruct (nodesIndex !! nid) as [[x y]|]; reflexivity.
  - intros p. destruct (nodesIndex !! fst p) as [[x y]|]; reflexivity.
Qed.

(** X13.  Where the seeding of renderLayout(g, false) puts each node.  A
    node with two coordinates that are not 0 keeps them.  A node that
    lacks a coordinate (undefined, or equal to 0) is placed at the sum of
    the positions its positioned neighbours had before the seeding, and,
    when it has none, at a random position made of two successive calls
    of Math.random: the calls number 2c and 2c + 1, where c counts the
    nodes placed at random before it in g.nodes().  No identifier is a
    property name of [Object.prototype], the index of the new positions
    being a plain object. *)
Theorem initial_position_cases (g : graph) (before after : list string)
    (nid : string) (n : node) :
  plain_keys (nodes g) = true ->
  nodes g = before ++ nid :: after ->
  ~ In nid after ->
  getNodeAttributes g nid = Some n ->
  position (initial_positions g) nid
  = if lacks_coordinates n then
      match positioned_neighbors g nid with
      | [] =>
          Some (random_position g
                  (2 * length (List.filter (unplaced g) before)))
      | _ :: _ => Some (sum_positions (positioned_neighbors g nid))
      end
    else position g nid.
Proof.
  intros _ Hnodes Hafter Hn.
  unfold initial_positions. rewrite (assigned_position _ _ _ _ Hn).
  unfold seed_index. rewrite Hnodes, foldl_app. simpl foldl.
  rewrite (seed_fold_other g nid after Hafter).
  set (st := foldl (seed_node g) (∅, O) before).
  destruct (lacks_coordinates n) eqn:Hlack.
  - destruct (positioned_neighbors g nid) as [|p ps] eqn:Hpos.
    + rewrite (seed_node_random g st nid n Hn Hlack Hpos).
      unfold st. rewrite seed_fold_calls. reflexivity.
    + rewrite (seed_node_sum g st nid n Hn Hlack) by (rewrite Hpos; discriminate).
      rewrite Hpos. reflexivity.
  - rewrite (seed_node_kept g st nid n Hn Hlack).
    unfold st. rewrite (seed_fold_kept g nid n before Hn Hlack). simpl.
    rewrite lookup_empty. reflexivity.
Qed.

(** *** The positions inherited from the previous slice *)

Lemma inherit_positions_map (lastNodesIndex : gmap string last_position)
    (g : graph) :
  NoDup (nodes g) ->
  inherit_positions lastNodesIndex g
  = mkGraph
      (List.map (fun p =>
              match lastNodesIndex !! fst p with
              | Some last => (fst p, set_position last (snd p))
              | None => p
              end) (g_nodes g))
      (g_edges g).
Proof.
  intros Hnd. unfold inherit_positions.
  rewrite (foldl_updateNode
             (fun nid n => match lastNodesIndex !! nid with
                           | Some last => set_position last n
                           | None => n
                           end)).
  f_equal. unfold nodes in *.
  induction (g_nodes g) as [|p l IH]; [reflexivity|].
  simpl in Hnd. apply NoDup_cons in Hnd as [Hp Hl].
  simpl.
  assert (Hone : forall (ids : list string) (q : string * node),
             fst q ∉ ids ->
             foldl (fun q0 nid =>
                      if String.eqb (fst q0) nid
                      then (fst q0,
                            match lastNodesIndex !! nid with
                            | Some last => set_position last (snd q0)
                            | None => snd q0
                            end)
                      else q0) q ids = q).
  { induction ids as [|a ids IHids]; intros q Hq; simpl; [reflexivity|].
    apply not_elem_of_cons in Hq as [Hne Hq].
    destruct (String.eqb_spec (fst q) a); [contradiction|]. apply IHids. exact Hq. }
  rewrite String.eqb_refl.
  f_equal.
  - rewrite Hone.
    + destruct (lastNodesIndex !! fst p); [reflexivity | destruct p; reflexivity].
    + simpl.
      destruct (lastNodesIndex !! fst p); simpl; exact Hp.
  - rewrite <- (IH Hl). apply List.map_ext_in. intros q Hq.
    destruct (String.eqb_spec (fst q) (fst p)) as [Heq | Hne]; [|reflexivity].
    exfalso. apply Hp. rewrite <- Heq.
    apply list_elem_of_In in Hq. apply (list_elem_of_fmap_2 fst) in Hq. exact Hq.
Qed.

Lemma inherit_positions_nodes (lastNodesIndex : gmap string last_position)
    (g : graph) :
  NoDup (nodes g) ->
  nodes (inherit_positions lastNodesIndex g) = nodes g.
Proof.
  intros Hnd. rewrite (inherit_positions_map _ _ Hnd). unfold nodes. simpl.
  change (List.map ?f ?l) with (f <$> l).
  rewrite <- list_fmap_compose. apply list_fmap_ext. intros i p _. simpl.
  destruct (lastNodesIndex !! fst p); reflexivity.
Qed.

Lemma inherit_positions_attributes (lastNodesIndex : gmap string last_position)
    (g : graph) (nid : string) :
  NoDup (nodes g) ->
  getNodeAttributes (inherit_positions lastNodesIndex g) nid
  = option_map (fun n => match lastNodesIndex !! nid with
                         | Some last => set_position last n
                         | None => n
                         end)
               (getNodeAttributes g nid).
Proof.
  intros Hnd. rewrite (inherit_positions_map _ _ Hnd).
  rewrite getNodeAttributes_map.
  - unfold getNodeAttributes.
    destruct (List.find _ (g_nodes g)) as [p|] eqn:E; [|reflexivity].
    cbn [option_map]. rewrite (find_node_id _ _ _ E).
    destruct (lastNodesIndex !! nid); reflexivity.
  - intros p. destruct (lastNodesIndex !! fst p); reflexivity.
Qed.

(** A node found in the index with two coordinates that are not 0
    enters the layout at these coordinates. *)
Lemma inherited_position_kept (lastNodesIndex : gmap string last_position)
    (g : graph) (nid : string) (x y : Q) :
  plain_keys (nodes g) = true ->
  NoDup (nodes g) ->
  In nid (nodes g) ->
  lastNodesIndex !! nid = Some (Some x, Some y) ->
  ~ x == 0 -> ~ y == 0 ->
  position (initial_positions (inherit_positions lastNodesIndex g)) nid
  = Some (x, y).
Proof.
  intros Hplain Hnd Hin Hlast Hx Hy.
  destruct (find_node_in (g_nodes g) nid Hin) as [p Hp].
  assert (Hn : getNodeAttributes (inherit_positions lastNodesIndex g) nid
               = Some (set_position (Some x, Some y) (snd p))).
  { rewrite (inherit_positions_attributes _ _ _ Hnd). unfold getNodeAttributes.
    rewrite Hp. cbn [option_map]. rewrite Hlast. reflexivity. }
  assert (Hnodes : nodes (inherit_positions lastNodesIndex g) = nodes g)
    by (apply inherit_positions_nodes; exact Hnd).
  apply list_elem_of_In, list_elem_of_split in Hin as (before & after & Hsplit).
  assert (Hafter : ~ In nid after).
  { rewrite Hsplit in Hnd. apply NoDup_app in Hnd as (_ & _ & Hnd).
    apply NoDup_cons in Hnd as [Hnd _]. rewrite <- list_elem_of_In. exact Hnd. }
  rewrite (initial_position_cases _ before after nid _
             ltac:(rewrite Hnodes; exact Hplain)
             ltac:(rewrite Hnodes; exact Hsplit) Hafter Hn).
  assert (Hlack : lacks_coordinates (set_position (Some x, Some y) (snd p)) = false).
  { unfold lacks_coordinates, set_position, truthy_coord. simpl.
    destruct (Qeq_bool x 0) eqn:Ex; [apply Qeq_bool_iff in Ex; contradiction|].
    destruct (Qeq_bool y 0) eqn:Ey; [apply Qeq_bool_iff in Ey; contradiction|].
    reflexivity. }
  rewrite Hlack. unfold position. rewrite Hn. reflexivity.
Qed.

(** The index holds the nodes of the graph, each with its coordinates. *)
Lemma positions_index_lookup (g : graph) (nid : string) :
  positions_index g !! nid
  = option_map (fun n => (n_x n, n_y n)) (getNodeAttributes g nid).
Proof.
  unfold positions_index.
  assert (Hgen : forall (l : list string) (idx : gmap string last_position),
             foldl (fun idx nid =>
                      match getNodeAttributes g nid with
                      | Some n => <[nid := (n_x n, n_y n)]> idx
                      | None => idx
                      end) idx l !! nid
             = match (if bool_decide (nid ∈ l)
                      then getNodeAttributes g nid else None) with
               | Some n => Some (n_x n, n_y n)
               | None => idx !! nid
               end).
  { induction l as [|a l IH]; intros idx; simpl; [reflexivity|].
    rewrite IH.
    assert (Hother : a <> nid ->
              match getNodeAttributes g a with
              | Some n => <[a := (n_x n, n_y n)]> idx
              | None => idx
              end !! nid = idx !! nid).
    { intros Hne. destruct (getNodeAttributes g a); [|reflexivity].
      apply lookup_insert_ne. exact Hne. }
    destruct (bool_decide (nid ∈ l)) eqn:El.
    - apply bool_decide_eq_true in El.
      rewrite bool_decide_eq_true_2 by (right; exact El).
      destruct (getNodeAttributes g nid) as [n|] eqn:En; [reflexivity|].
      destruct (String.eqb_spec a nid) as [-> | Hne];
        [rewrite En; reflexivity | apply Hother; exact Hne].
    - apply bool_decide_eq_false in El.
      destruct (String.eqb_spec a nid) as [-> | Hne].
      + rewrite bool_decide_eq_true_2 by left.
        destruct (getNodeAttributes g nid) as [n|]; [|reflexivity].
        apply lookup_insert_eq.
      + rewrite bool_decide_eq_false_2
          by (intros H; apply elem_of_cons in H as [H | H]; congruence).
        apply Hother. exact Hne. }
  rewrite Hgen, lookup_empty.
  destruct (bool_decide (nid ∈ nodes g)) eqn:E;
    [destruct (getNodeAttributes g nid); reflexivity|].
  apply bool_decide_eq_false in E.
  destruct (getNodeAttributes g nid) as [n|] eqn:En; [|reflexivity].
  exfalso. apply E. unfold getNodeAttributes in En.
  destruct (List.find _ (g_nodes g)) as [p|] eqn:Ef; [|discriminate].
  pose proof (find_node_id _ _ _ Ef) as Hid.
  apply List.find_some in Ef as [Ef _].
  unfold nodes. rewrite <- Hid.
  apply list_elem_of_fmap_2, list_elem_of_In. exact Ef.
Qed.

(** X14.  From one slice to the next.  A node of the slice that was in the
    previous slice, laid out there at two coordinates that are not 0,
    enters the layout of the slice at exactly that position; a node that
    was not in the previous slice keeps the attributes it has in the
    slices file, whatever the slices before: the index is emptied at every
    slice.  No identifier of the two slices is a property name of
    [Object.prototype], the index being a plain object. *)
Theorem position_carried_over (previous g : graph) (nid : string) :
  plain_keys (nodes previous) = true ->
  plain_keys (nodes g) = true ->
  NoDup (nodes g) ->
  In nid (nodes g) ->
  (forall x y : Q,
      position previous nid = Some (x, y) ->
      ~ x == 0 -> ~ y == 0 ->
      position (initial_positions
                  (inherit_positions (positions_index previous) g)) nid
      = Some (x, y))
  /\ (~ In nid (nodes previous) ->
      getNodeAttributes (inherit_positions (positions_index previous) g) nid
      = getNodeAttributes g nid).
Proof.
  intros _ Hplain Hnd Hin. split.
  - intros x y Hpos Hx Hy.
    apply (inherited_position_kept _ g nid x y Hplain Hnd Hin);
      [|exact Hx | exact Hy].
    rewrite positions_index_lookup. unfold position in Hpos.
    destruct (getNodeAttributes previous nid) as [n|]; [|discriminate].
    simpl in Hpos. destruct (n_x n) as [x'|] eqn:Ex; [|discriminate].
    destruct (n_y n) as [y'|] eqn:Ey; [|discriminate].
    simpl in Hpos. injection Hpos as -> ->.
    cbn [option_map]. rewrite Ex, Ey. reflexivity.
  - intros Hout. rewrite (inherit_positions_attributes _ _ _ Hnd).
    rewrite positions_index_lookup.
    destruct (getNodeAttributes previous nid) as [n|] eqn:En.
    + exfalso. apply Hout. unfold getNodeAttributes in En.
      destruct (List.find _ (g_nodes previous)) as [p|] eqn:Ef; [|discriminate].
      pose proof (find_node_id _ _ _ Ef) as Hid.
      apply List.find_some in Ef as [Ef _].
      unfold nodes. rewrite <- Hid. apply in_map. exact Ef.
    + simpl. destruct (getNodeAttributes g nid); reflexivity.
Qed.

End WithHost.

(** A host whose [Math.random] always returns 3/4. *)
Definition constant_random : RandomHost := {| Math_random := fun _ => 3 # 4 |}.

(** Two nodes without coordinates nor neighbours around a placed one. *)
Definition scattered : graph :=
  mkGraph [("a", mkNode "a" "A" None None None);
           ("b", mkNode "b" "B" (Some 10) (Some 20) None);
           ("d", mkNode "d" "D" None None None)]%string [].

Lemma initial_position_cases_witness :
  plain_keys (nodes scattered) = true
  /\ nodes scattered = ["a"; "b"]%string ++ "d"%string :: []
  /\ ~ In "d"%string []
  /\ getNodeAttributes scattered "d" = Some (mkNode "d" "D" None None None)
  /\ @position (@initial_positions VoronoiFacts.approx_math constant_random scattered)
       "d"
     = if lacks_coordinates (mkNode "d" "D" None None None) then
         match positioned_neighbors scattered "d" with
         | [] =>
             Some (@random_position VoronoiFacts.approx_math constant_random scattered
                     (2 * length (List.filter (unplaced scattered)
                                    ["a"; "b"]%string)))
         | _ :: _ => Some (sum_positions (positioned_neighbors scattered "d"))
         end
       else position scattered "d".
Proof.
  assert (H1 : nodes scattered = ["a"; "b"]%string ++ "d"%string :: [])
    by reflexivity.
  assert (H2 : ~ In "d"%string []) by (intros []).
  assert (H3 : getNodeAttributes scattered "d"
               = Some (mkNode "d" "D" None None None)) by reflexivity.
  assert (H0 : plain_keys (nodes scattered) = true) by reflexivity.
  split; [exact H0|]. split; [exact H1|]. split; [exact H2|]. split; [exact H3|].
  exact (@initial_position_cases VoronoiFacts.approx_math constant_random
           scattered _ _ "d" _ H0 H1 H2 H3).
Defined.

(** The previous slice, with [b] laid out at (3, 4), and the next one. *)
Definition previous_slice : graph :=
  mkGraph [("b", mkNode "b" "B" (Some 3) (Some 4) (Some 1))]%string [].

Definition next_slice : graph :=
  mkGraph [("a", mkNode "a" "A" None None None);
           ("b", mkNode "b" "B" None None None)]%string [].

Lemma position_carried_over_witness :
  plain_keys (nodes previous_slice) = true
  /\ plain_keys (nodes next_slice) = true
  /\ NoDup (nodes next_slice)
  /\ In "b"%string (nodes next_slice)
  /\ position previous_slice "b" = Some (3, 4)
  /\ @position (@initial_positions VoronoiFacts.approx_math constant_random
                  (inherit_positions (positions_index previous_slice) next_slice))
       "b" = Some (3, 4).
Proof.
  assert (H1 : NoDup (nodes next_slice))
    by (apply (bool_decide_unpack _); vm_compute; reflexivity).
  assert (H2 : In "b"%string (nodes next_slice)) by (right; left; reflexivity).
  assert (H3 : position previous_slice "b" = Some (3, 4)) by reflexivity.
  assert (H4 : ~ 3 == 0) by (intros H; discriminate H).
  assert (H5 : ~ 4 == 0) by (intros H; discriminate H).
  assert (H6 : plain_keys (nodes previous_slice) = true) by reflexivity.
  assert (H7 : plain_keys (nodes next_slice) = true) by reflexivity.
  split; [exact H6|]. split; [exact H7|].
  split; [exact H1|]. split; [exact H2|]. split; [exact H3|].
  exact (proj1 (@position_carried_over VoronoiFacts.approx_math constant_random
                  previous_slice next_slice "b" H6 H7 H1 H2) 3 4 H3 H4 H5).
Defined.

End SeedingFacts.

(** ** The order of drawing and the number of labels *)

Module DrawingOrder.

Import JS Graph Render JSFacts GraphFacts RenderFacts.
Local Open Scope Q_scope.

Section Sorted.
Context {B : Type}.

Lemma sorted_app (R : B -> B -> Prop) (l1 l2 : list B) :
  StronglySorted R l1 -> StronglySorted R l2 ->
  (forall x y, In x l1 -> In y l2 -> R x y) ->
  StronglySorted R (l1 ++ l2).
Proof.
  induction l1 as [|a l1 IH]; intros H1 H2 H12; simpl; [exact H2|].
  inversion H1 as [|? ? Hs Ha]; subst. constructor.
  - apply IH; auto. intros x y Hx Hy. apply H12; [right|]; assumption.
  - apply Forall_app. split; [exact Ha|].
    apply List.Forall_forall. intros y Hy. apply H12; [left; reflexivity | exact Hy].
Qed.

Lemma sorted_rev (R : B -> B -> Prop) (l : list B) :
  StronglySorted R l -> StronglySorted (fun a b => R b a) (rev l).
Proof.
  induction 1 as [|a l Hs IH Ha]; simpl; [constructor|].
  apply sorted_app; [exact IH | repeat constructor |].
  intros x y Hx [<- | []]. apply in_rev in Hx.
  rewrite List.Forall_forall in Ha. apply Ha. exact Hx.
Qed.

Lemma sorted_lookup (R : B -> B -> Prop) (l : list B) :
  StronglySorted R l ->
  forall (i j : nat) (a b : B),
    (i < j)%nat -> l !! i = Some a -> l !! j = Some b -> R a b.
Proof.
  induction 1 as [|x l Hs IH Hx]; intros i j a b Hij Hi Hj.
  - destruct i; discriminate.
  - destruct j as [|j]; [lia|]. simpl in Hj.
    destruct i as [|i]; simpl in Hi.
    + injection Hi as <-. rewrite List.Forall_forall in Hx. apply Hx.
      apply list_elem_of_In, list_elem_of_lookup. eauto.
    + apply (IH i j); [lia | assumption | assumption].
Qed.

End Sorted.

(** X15.  getNodesBySize returns the nodes of the graph, each once, from
    the smallest to the largest, and among nodes of one size from left to
    right: a node never comes after a node that is larger, nor after a
    node of the same size that is more to the right.  The largest node is
    drawn last, on top of the others. *)
Theorem nodes_by_size_ascending (g : graph) :
  Permutation (getNodesBySize g) (nodes g)
  /\ (forall (i j : nat) (ida idb : string) (a b : node),
         (i < j)%nat ->
         getNodesBySize g !! i = Some ida ->
         getNodesBySize g !! j = Some idb ->
         getNodeAttributes g ida = Some a ->
         getNodeAttributes g idb = Some b ->
         n_size a < n_size b \/ (n_size a == n_size b /\ n_x a <= n_x b)).
Proof.
  assert (Hperm : Permutation (getNodesBySize g) (nodes g)).
  { unfold getNodesBySize. rewrite <- Permutation_rev. apply js_sort_perm. }
  split; [exact Hperm|].
  intros i j ida idb a b Hij Hi Hj Ha Hb.
  set (c := fun x y => compare_attributes (attributes_of g x) (attributes_of g y)).
  assert (Hsort : js_sort (compare_nodes g) (nodes g) = js_sort c (nodes g)).
  { apply js_sort_ext. intros x y Hx Hy. apply compare_nodes_attributes; assumption. }
  assert (Htotal : forall x y, ~ before c x y -> before c y x).
  { intros x y H. unfold before, c in *.
    apply before_attributes. apply below_asym.
    apply compare_attributes_gt.
    destruct (compare_attributes _ _ >? 0)%Z; [reflexivity | congruence]. }
  assert (Htrans : forall x y z, before c x y -> before c y z -> before c x z).
  { intros x y z Hxy Hyz. unfold before, c in *.
    rewrite before_attributes in *. eapply not_below_trans; eassumption. }
  pose proof (sorted_rev _ _ (js_sort_sorted c Htotal Htrans (nodes g))) as Hs.
  rewrite <- Hsort in Hs. fold (getNodesBySize g) in Hs.
  pose proof (sorted_lookup _ _ Hs i j ida idb Hij Hi Hj) as Hba.
  unfold before, c, attributes_of in Hba. rewrite Ha, Hb in Hba. simpl in Hba.
  apply before_attributes, not_below_cases in Hba.
  destruct Hba as [H | [H1 H2]]; [left; exact H | right; split; [lra | exact H2]].
Qed.

Section Labels.
Context {cv : Canvas node}.

(** The labels kept so far against the count that is left. *)
Definition counted (q : Q) (st : canvas * num * list string) : Prop :=
  (exists c : Q,
      snd (fst st) = Fin c
      /\ c == q - inject_Z (Z.of_nat (length (snd st))))
  /\ (snd st = [] \/ inject_Z (Z.of_nat (length (snd st))) - 1 < q).

Lemma label_step_counted (g : graph) (q : Q) (st : canvas * num * list string)
    (nid : string) :
  counted q st -> counted q (label_step g st nid).
Proof.
  destruct st as [[ctx count] visible]. unfold counted. cbn [fst snd].
  intros [(c & Hc & Hq) Hv]. unfold label_step.
  destruct (getNodeAttributes g nid) as [n|]; [|eauto].
  destruct (gt count (Fin 0)) eqn:Egt; [|eauto].
  destruct (label_area n) as [a|]; [|eauto].
  destruct (hits ctx a); [eauto|]. cbn [fst snd].
  subst count. unfold gt in Egt. simpl in Egt. apply Qltb_lt in Egt.
  rewrite length_app. simpl length. rewrite Nat2Z.inj_add, inject_Z_plus.
  change (inject_Z (Z.of_nat 1)) with 1. split.
  - exists (c - 1). split; [reflexivity | lra].
  - right. lra.
Qed.

Lemma label_step_sublist (g : graph) (ids : list string) :
  forall (st : canvas * num * list string),
    exists kept : list string,
      snd (foldl (label_step g) st ids) = snd st ++ kept
      /\ sublist kept ids.
Proof.
  induction ids as [|nid ids IH]; intros st; simpl.
  - exists []. rewrite app_nil_r. split; [reflexivity | constructor].
  - destruct (IH (label_step g st nid)) as (kept & Hk & Hsub).
    assert (Hstep : snd (label_step g st nid) = snd st
                    \/ snd (label_step g st nid) = snd st ++ [nid]).
    { destruct st as [[ctx count] visible]. unfold label_step.
      destruct (getNodeAttributes g nid) as [n|]; [|auto].
      destruct (gt count (Fin 0)); [|auto].
      destruct (label_area n) as [a|]; [|auto].
      destruct (hits ctx a); auto. }
    destruct Hstep as [H | H]; rewrite H in Hk.
    + exists kept. split; [exact Hk|]. apply sublist_cons. exact Hsub.
    + exists (nid :: kept). rewrite <- app_assoc in Hk. split; [exact Hk|].
      apply sublist_skip. exact Hsub.
Qed.

Lemma label_fold_stopped (g : graph) (ids : list string) :
  forall (st : canvas * num * list string),
    gt (snd (fst st)) (Fin 0) = false ->
    foldl (label_step g) st ids = st.
Proof.
  induction ids as [|nid ids IH]; intros st Hst; simpl; [reflexivity|].
  assert (Hstep : label_step g st nid = st).
  { destruct st as [[ctx count] visible]. cbn [fst snd] in Hst. unfold label_step.
    rewrite Hst. destruct (getNodeAttributes g nid); reflexivity. }
  rewrite Hstep. apply IH. exact Hst.
Qed.


End Labels.

End DrawingOrder.

(** ** The text of a label, cut at its maximal length *)

Module LabelTextFacts.

Import JS LabelText JSFacts.
Local Open Scope Q_scope.

Section Strings.
Context {char : Type}.
Variable ellipsis : char.

Lemma floor_pred (m : nat) : Qfloor (inject_Z (Z.of_nat (S m)) - 1) = Z.of_nat m.
Proof.
  assert (H : inject_Z (Z.of_nat (S m)) - 1 == inject_Z (Z.of_nat m))
    by (rewrite inject_succ; lra).
  rewrite (Qfloor_comp _ _ H). apply Qfloor_Z.
Qed.

Lemma truncate_finite (s : list char) (m : nat) :
  truncateWithEllipsis ellipsis s (Fin (inject_Z (Z.of_nat (S m))))
  = take m s ++ (if (S m <? length s)%nat then [ellipsis] else []).
Proof.
  unfold truncateWithEllipsis, string_length, gt. cbn [truthy lt sub substr_from_0].
  assert (Hnz : Qeq_bool (inject_Z (Z.of_nat (S m))) 0 = false).
  { destruct (Qeq_bool _ 0) eqn:E; [|reflexivity].
    apply Qeq_bool_iff in E. unfold Qeq in E. simpl in E. lia. }
  rewrite Hnz. cbn [negb andb]. rewrite floor_pred, Nat2Z.id. f_equal.
  destruct (Nat.ltb_spec (S m) (length s)) as [Hlt | Hge].
  - assert (H : Qltb (inject_Z (Z.of_nat (S m))) (inject_Z (Z.of_nat (length s))) = true).
    { apply Qltb_lt. rewrite <- Zlt_Qlt. lia. }
    rewrite H. reflexivity.
  - assert (H : Qltb (inject_Z (Z.of_nat (S m))) (inject_Z (Z.of_nat (length s))) = false).
    { apply Qltb_ge. rewrite <- Zle_Qle. lia. }
    rewrite H. reflexivity.
Qed.

(** X17.  truncateWithEllipsis with a maximal length n >= 1.  A string of
    fewer than n characters is unchanged; a string of more than n
    characters is cut to its first n - 1 characters followed by the
    ellipsis; a string of exactly n characters loses its last character
    and gets no ellipsis.  The result is never longer than n.  With n
    equal to 0 or Infinity the string is returned as it is. *)
Theorem truncate_cases (s : list char) (m : nat) :
  let n := Fin (inject_Z (Z.of_nat (S m))) in
  ((length s <= m)%nat -> truncateWithEllipsis ellipsis s n = s)
  /\ (length s = S m -> truncateWithEllipsis ellipsis s n = take m s)
  /\ ((S m < length s)%nat ->
      truncateWithEllipsis ellipsis s n = take m s ++ [ellipsis])
  /\ (length (truncateWithEllipsis ellipsis s n) <= S m)%nat
  /\ truncateWithEllipsis ellipsis s PosInf = s
  /\ truncateWithEllipsis ellipsis s (Fin 0) = s.
Proof.
  cbv zeta. rewrite truncate_finite.
  split; [|split; [|split; [|split; [|split]]]].
  - intros Hle. destruct (Nat.ltb_spec (S m) (length s)); [lia|].
    rewrite app_nil_r. apply take_ge. lia.
  - intros Heq. destruct (Nat.ltb_spec (S m) (length s)); [lia|].
    apply app_nil_r.
  - intros Hlt. destruct (Nat.ltb_spec (S m) (length s)); [reflexivity | lia].
  - rewrite length_app, length_take.
    destruct (S m <? length s)%nat; simpl; lia.
  - reflexivity.
  - reflexivity.
Qed.

End Strings.

End LabelTextFacts.

(** ** The Voronoi field read by the layer of the edges *)

Module UnpackFacts.

Import JS Graph Render Unpack JSFacts RenderFacts.
Local Open Scope Z_scope.

Lemma clamp_bounds (bound z : Z) : 0 <= bound -> 0 <= clamp bound z <= bound.
Proof. unfold clamp. lia. Qed.

Lemma clamp_inside (bound z : Z) : 0 <= z <= bound -> clamp bound z = z.
Proof. unfold clamp. lia. Qed.

(** X18.  Whatever the pixel of the image and the reduction ratio, the
    packed pixel an unpacked pixel is read from lies inside the packed
    maps: the four neighbours are clamped to the width and the height of
    the field, so the unpacking never reads outside [vidPixelMap] and
    [dPixelMap]. *)
Theorem unpacked_source_in_bounds (v : voronoi) (w i : Z) :
  0 <= v_width v -> 0 <= v_height v ->
  0 <= unpacked_source v w i < (v_width v + 1) * (v_height v + 1).
Proof.
  intros Hw Hh. unfold unpacked_source. cbv zeta.
  unfold packed_1, packed_2.
  set (xp := packed (v_ratio v) (i mod w)).
  set (yp := packed (v_ratio v) ((i - i mod w) / w)).
  pose proof (clamp_bounds (v_width v) (Qfloor xp) Hw) as Hx1.
  pose proof (clamp_bounds (v_width v) (Qceiling xp) Hw) as Hx2.
  pose proof (clamp_bounds (v_height v) (Qfloor yp) Hh) as Hy1.
  pose proof (clamp_bounds (v_height v) (Qceiling yp) Hh) as Hy2.
  destruct (lt (weight (v_width v) xp) _); destruct (lt (weight (v_height v) yp) _);
    nia.
Qed.

Lemma unpacked_source_in_bounds_witness :
  0 <= v_width (mkVoronoi [] [] 2 3 (1 # 4))
  /\ 0 <= v_height (mkVoronoi [] [] 2 3 (1 # 4))
  /\ 0 <= unpacked_source (mkVoronoi [] [] 2 3 (1 # 4)) 10 99
     < (v_width (mkVoronoi [] [] 2 3 (1 # 4)) + 1)
       * (v_height (mkVoronoi [] [] 2 3 (1 # 4)) + 1).
Proof.
  assert (H1 : 0 <= v_width (mkVoronoi [] [] 2 3 (1 # 4))) by (simpl; lia).
  assert (H2 : 0 <= v_height (mkVoronoi [] [] 2 3 (1 # 4))) by (simpl; lia).
  split; [exact H1|]. split; [exact H2|].
  exact (unpacked_source_in_bounds (mkVoronoi [] [] 2 3 (1 # 4)) 10 99 H1 H2).
Defined.

Lemma packed_at_one (z : Z) : (packed 1 z == inject_Z z)%Q.
Proof. unfold packed. field. Qed.

Lemma weight_at_integer (bound z : Z) (xp : Q) :
  (xp == inject_Z z)%Q -> 0 <= z <= bound -> weight bound xp = Fin 0.
Proof.
  intros Hxp Hz. unfold weight, packed_1, packed_2.
  rewrite (Qfloor_comp _ _ Hxp), (Qceiling_comp _ _ Hxp), Qfloor_Z, Qceiling_Z.
  rewrite (clamp_inside _ _ Hz). unfold quotient.
  assert (H0 : Qeq_bool (inject_Z z - inject_Z z) 0 = true)
    by (apply Qeq_bool_iff; lra).
  assert (H1 : Qeq_bool (xp - inject_Z z) 0 = true)
    by (apply Qeq_bool_iff; lra).
  rewrite H0, H1. reflexivity.
Qed.

Section WithHost.
Context {math : MathHost}.

(** X19.  When the image is not larger than the maximal resolution of the
    field, as with the settings of renderFrame, the field has the ratio 1
    and the dimensions of the image, and the unpacked pixel (x, y) takes
    the owner of the packed pixel (x, y): the unpacking only drops the
    last column and the last row of the field. *)
Theorem unpack_without_reduction (st : settings) (g : graph) (x y : Z) :
  Qltb (or_else (voronoi_resolution_max st) 100000000)
       (inject_Z (dim_w st * dim_h st)) = false ->
  0 <= x < dim_w st -> 0 <= y < dim_h st ->
  let v := snd (getVoronoiData st g) in
  v_width v = dim_w st /\ v_height v = dim_h st
  /\ unpacked_source v (dim_w st) (x + dim_w st * y) = x + (dim_w st + 1) * y
  /\ vidPixelMap_u v (dim_w st) (x + dim_w st * y)
     = default 0 (read (vidPixelMap v) (x + (v_width v + 1) * y)).
Proof.
  intros Hres Hx Hy. cbv zeta.
  assert (Hv : v_ratio (snd (getVoronoiData st g)) = 1%Q
               /\ v_width (snd (getVoronoiData st g)) = dim_w st
               /\ v_height (snd (getVoronoiData st g)) = dim_h st).
  { unfold getVoronoiData, reduce. rewrite Hres.
    destruct (voronoi_nodes _ _ _ _ _ _ _) as [vmap dmap]. simpl. auto. }
  destruct Hv as (Hratio & Hwidth & Hheight).
  assert (Hsrc : unpacked_source (snd (getVoronoiData st g)) (dim_w st)
                   (x + dim_w st * y) = x + (dim_w st + 1) * y).
  { unfold unpacked_source. cbv zeta. rewrite Hratio, Hwidth, Hheight.
    assert (Hxu : (x + dim_w st * y) mod dim_w st = x).
    { replace (x + dim_w st * y) with (x + y * dim_w st) by lia.
      rewrite Z_mod_plus_full. apply Z.mod_small. lia. }
    rewrite Hxu.
    assert (Hyu : (x + dim_w st * y - x) / dim_w st = y).
    { replace (x + dim_w st * y - x) with (y * dim_w st) by lia.
      apply Z.div_mul. lia. }
    rewrite Hyu.
    rewrite (weight_at_integer (dim_w st) x _ (packed_at_one x)) by lia.
    rewrite (weight_at_integer (dim_h st) y _ (packed_at_one y)) by lia.
    cbn [lt]. assert (Hhalf : Qltb 0 (1 # 2) = true) by reflexivity.
    rewrite Hhalf. unfold packed_1.
    rewrite (Qfloor_comp _ _ (packed_at_one x)), (Qfloor_comp _ _ (packed_at_one y)).
    rewrite !Qfloor_Z, !clamp_inside by lia. reflexivity. }
  split; [exact Hwidth|]. split; [exact Hheight|]. split; [exact Hsrc|].
  unfold vidPixelMap_u. rewrite Hsrc, Hwidth. reflexivity.
Qed.

End WithHost.

Lemma unpack_without_reduction_witness :
  Qltb (or_else (voronoi_resolution_max frame_settings) 100000000)
       (inject_Z (dim_w frame_settings * dim_h frame_settings)) = false
  /\ 0 <= 3839 < dim_w frame_settings
  /\ 0 <= 2159 < dim_h frame_settings
  /\ v_width (snd (@getVoronoiData VoronoiFacts.approx_math frame_settings
                     VoronoiFacts.two_nodes)) = dim_w frame_settings
  /\ v_height (snd (@getVoronoiData VoronoiFacts.approx_math frame_settings
                      VoronoiFacts.two_nodes)) = dim_h frame_settings.
Proof.
  assert (H1 : Qltb (or_else (voronoi_resolution_max frame_settings) 100000000)
                 (inject_Z (dim_w frame_settings * dim_h frame_settings)) = false)
    by (vm_compute; reflexivity).
  assert (H2 : 0 <= 3839 < dim_w frame_settings) by (vm_compute; split; congruence).
  assert (H3 : 0 <= 2159 < dim_h frame_settings) by (vm_compute; split; congruence).
  split; [exact H1|]. split; [exact H2|]. split; [exact H3|].
  pose proof (@unpack_without_reduction VoronoiFacts.approx_math frame_settings
                VoronoiFacts.two_nodes 3839 2159 H1 H2 H3) as H.
  cbv zeta in H. split; [exact (proj1 H) | exact (proj1 (proj2 H))].
Defined.

End UnpackFacts.

(** ** The graph in the space of the image *)

Module RescaleFacts.

Import JS Graph Render Unpack Rescale JSFacts GraphFacts RenderFacts EnvelopeFacts.
Local Open Scope Q_scope.

(** *** Loops over the nodes of a graph *)

Lemma update_once (f : node -> node) (ids : list string) :
  NoDup ids ->
  forall q : string * node,
    foldl (fun q0 nid =>
             if String.eqb (fst q0) nid then (fst q0, f (snd q0)) else q0) q ids
    = if bool_decide (fst q ∈ ids) then (fst q, f (snd q)) else q.
Proof.
  induction ids as [|a ids IH]; intros Hnd q; simpl; [reflexivity|].
  apply NoDup_cons in Hnd as [Ha Hnd].
  rewrite (IH Hnd). destruct (String.eqb_spec (fst q) a) as [Heq | Hne]; simpl.
  - rewrite bool_decide_eq_false_2 by (rewrite Heq; exact Ha).
    rewrite bool_decide_eq_true_2 by (rewrite Heq; left). reflexivity.
  - destruct (bool_decide (fst q ∈ ids)) eqn:E.
    + apply bool_decide_eq_true in E.
      rewrite bool_decide_eq_true_2 by (right; exact E). reflexivity.
    + apply bool_decide_eq_false in E.
      rewrite bool_decide_eq_false_2; [reflexivity|].
      intros H. apply elem_of_cons in H as [H | H]; [congruence | exact (E H)].
Qed.

Lemma for_each_node_map (f : node -> node) (g : graph) :
  NoDup (nodes g) ->
  for_each_node f g
  = mkGraph (List.map (fun p => (fst p, f (snd p))) (g_nodes g)) (g_edges g).
Proof.
  intros Hnd. unfold for_each_node.
  rewrite (foldl_updateNode (fun _ => f)). f_equal.
  apply List.map_ext_in. intros p Hp.
  rewrite (update_once f _ Hnd).
  rewrite bool_decide_eq_true_2; [reflexivity|].
  unfold nodes. apply list_elem_of_fmap_2, list_elem_of_In. exact Hp.
Qed.

Lemma for_each_node_nodes (f : node -> node) (g : graph) :
  NoDup (nodes g) -> nodes (for_each_node f g) = nodes g.
Proof.
  intros Hnd. rewrite (for_each_node_map f g Hnd). unfold nodes. simpl.
  change (List.map ?h ?l) with (h <$> l).
  rewrite <- list_fmap_compose. reflexivity.
Qed.

Lemma for_each_node_attributes (f : node -> node) (g : graph) (nid : string) :
  NoDup (nodes g) ->
  getNodeAttributes (for_each_node f g) nid
  = option_map f (getNodeAttributes g nid).
Proof.
  intros Hnd. rewrite (for_each_node_map f g Hnd).
  rewrite (getNodeAttributes_map (fun p => (fst p, f (snd p)))) by reflexivity.
  unfold getNodeAttributes.
  destruct (List.find _ (g_nodes g)); reflexivity.
Qed.

Lemma attribute_listed (g : graph) (nid : string) (n : node) :
  NoDup (nodes g) ->
  getNodeAttributes g nid = Some n -> In n (attributes g).
Proof.
  intros Hnd Hn. unfold attributes.
  apply list_elem_of_In, list_elem_of_omap. exists nid. split; [|exact Hn].
  unfold getNodeAttributes in Hn.
  destruct (List.find _ (g_nodes g)) as [p|] eqn:E; [|discriminate].
  pose proof (find_node_id _ _ _ E) as Hid.
  apply List.find_some in E as [E _].
  unfold nodes. rewrite <- Hid.
  apply list_elem_of_fmap_2, list_elem_of_In. exact E.
Qed.

(** *** The greatest distance and the ratio *)

Lemma abs_bounds (q : Q) : 0 <= abs q /\ - abs q <= q /\ q <= abs q.
Proof.
  unfold abs. destruct (Qltb q 0) eqn:E.
  - apply Qltb_lt in E. repeat split; lra.
  - apply Qltb_ge in E. repeat split; lra.
Qed.

Lemma greatest_from (v : node -> Q) (l : list node) : forall a : Q,
  a <= foldl (fun acc n => if Qltb acc (v n) then v n else acc) a l
  /\ (forall n, In n l ->
        v n <= foldl (fun acc n => if Qltb acc (v n) then v n else acc) a l).
Proof.
  induction l as [|m l IH]; intros a; simpl.
  - split; [lra | intros n []].
  - destruct (IH (if Qltb a (v m) then v m else a)) as [H1 H2].
    destruct (Qltb a (v m)) eqn:E.
    + apply Qltb_lt in E. split; [lra|].
      intros n [<- | Hn]; [exact H1 | apply H2; exact Hn].
    + apply Qltb_ge in E. split; [exact H1|].
      intros n [<- | Hn]; [lra | apply H2; exact Hn].
Qed.

Lemma greatest_bounds (v : node -> Q) (g : graph) :
  0 <= greatest v g /\ (forall n, In n (attributes g) -> v n <= greatest v g).
Proof. apply greatest_from. Qed.

Lemma quotient_cases (a b : Q) :
  0 <= a -> 0 <= b ->
  quotient a b = NaN \/ quotient a b = PosInf /\ b == 0
  \/ exists q, quotient a b = Fin q /\ 0 <= q /\ q * b == a /\ 0 < b.
Proof.
  intros Ha Hb. unfold quotient.
  destruct (Qeq_bool b 0) eqn:Eb.
  - apply Qeq_bool_iff in Eb.
    destruct (Qeq_bool a 0) eqn:Ea; [auto|].
    assert (Hpos : Qltb 0 a = true).
    { apply Qltb_lt. destruct (Qeq_bool a 0) eqn:E; [discriminate|].
      assert (~ a == 0) by (intros H; apply Qeq_bool_iff in H; congruence). lra. }
    rewrite Hpos. auto.
  - assert (Hnz : ~ b == 0) by (intros H; apply Qeq_bool_iff in H; congruence).
    right. right. exists (a / b).
    assert (Hbpos : 0 < b) by lra.
    split; [reflexivity|]. split; [|split; [field; exact Hnz | exact Hbpos]].
    apply Qle_shift_div_l; lra.
Qed.

Lemma half (q : Q) : q / 2 == q * (1 # 2).
Proof. reflexivity. Qed.

Lemma ratio_bounds (w h dx dy r : Q) :
  0 <= w -> 0 <= h -> 0 <= dx -> 0 <= dy ->
  JS.min (quotient w (2 * dx)) (quotient h (2 * dy)) = Fin r ->
  0 <= r /\ r * dx <= w / 2 /\ r * dy <= h / 2.
Proof.
  intros Hw Hh Hdx Hdy Hmin.
  pose proof (half w) as Hhw. pose proof (half h) as Hhh.
  assert (H2x : 0 <= 2 * dx) by lra. assert (H2y : 0 <= 2 * dy) by lra.
  destruct (quotient_cases w (2 * dx) Hw H2x)
    as [Ex | [[Ex Zx] | (qx & Ex & Hqx & Hmx & Hpx)]];
    destruct (quotient_cases h (2 * dy) Hh H2y)
      as [Ey | [[Ey Zy] | (qy & Ey & Hqy & Hmy & Hpy)]];
    rewrite Ex, Ey in Hmin; simpl in Hmin; try discriminate.
  - injection Hmin as <-.
    assert (Hdx0 : dx == 0) by lra.
    split; [exact Hqy|]. split.
    + assert (H0 : qy * dx == 0) by (rewrite Hdx0; ring).
      lra.
    + assert (H : qy * dy == h / 2) by lra.
      lra.
  - injection Hmin as <-.
    assert (Hdy0 : dy == 0) by lra.
    split; [exact Hqx|]. split.
    + assert (H : qx * dx == w / 2) by lra.
      lra.
    + assert (H0 : qx * dy == 0) by (rewrite Hdy0; ring).
      lra.
  - assert (Hx : qx * dx == w / 2) by lra.
    assert (Hy : qy * dy == h / 2) by lra.
    destruct (Qltb qy qx) eqn:E; injection Hmin as <-.
    + apply Qltb_lt in E. split; [exact Hqy|]. split; [nra | lra].
    + apply Qltb_ge in E. split; [exact Hqx|]. split; [lra | nra].
Qed.

(** X20.  After rescaleGraphToGraphicSpace, with margins that leave room in
    the image, the graph has the same nodes and edges and, for every node,
    the point (x - size, y - size) lies between the margins: the left and
    the top extremities of every node are inside the drawing area.  The
    right and the bottom extremities are not constrained by the ratio,
    which is computed from |x - xcenter - size| and |y - ycenter - size|. *)
Theorem rescaled_nodes_inside_margins (st : settings) (o : options)
    (g g' : graph) :
  NoDup (nodes g) ->
  0 <= inner_width st o -> 0 <= inner_height st o ->
  rescaleGraphToGraphicSpace st o g = Some g' ->
  nodes g' = nodes g /\ g_edges g' = g_edges g
  /\ (forall (nid : string) (n' : node),
         getNodeAttributes g' nid = Some n' ->
         margin_px st (margin_left o) <= n_x n' - n_size n'
         /\ n_x n' - n_size n' <= inject_Z (dim_w st) - margin_px st (margin_right o)
         /\ margin_px st (margin_top o) <= n_y n' - n_size n'
         /\ n_y n' - n_size n'
            <= inject_Z (dim_h st) - margin_px st (margin_bottom o)).
Proof.
  intros Hnd Hw Hh. unfold rescaleGraphToGraphicSpace.
  destruct (nodes g) as [|nid0 rest] eqn:Enodes.
  { intros H. injection H as <-. split; [exact Enodes|]. split; [reflexivity|].
    intros nid n' Hn. exfalso.
    unfold getNodeAttributes in Hn.
    destruct (List.find _ (g_nodes g)) as [p|] eqn:E; [|discriminate].
    apply List.find_some in E as [E _].
    unfold nodes in Enodes. destruct (g_nodes g); [destruct E | discriminate]. }
  rewrite <- Enodes in *. clear nid0 rest Enodes.
  assert (Hflip : nodes (flipped o g) = nodes g
                  /\ g_edges (flipped o g) = g_edges g).
  { unfold flipped.
    assert (H1 : nodes (if flip_x o then for_each_node (fun n => set_x (- n_x n) n) g
                        else g) = nodes g
                 /\ g_edges (if flip_x o
                             then for_each_node (fun n => set_x (- n_x n) n) g
                             else g) = g_edges g).
    { destruct (flip_x o); [|auto]. split.
      - apply for_each_node_nodes. exact Hnd.
      - rewrite (for_each_node_map _ _ Hnd). reflexivity. }
    destruct H1 as [H1 H1e].
    destruct (flip_y o); [|auto]. split.
    - rewrite for_each_node_nodes by (rewrite H1; exact Hnd). exact H1.
    - rewrite for_each_node_map by (rewrite H1; exact Hnd). exact H1e. }
  destruct Hflip as [Hflip Hflipe].
  set (g0 := flipped o g) in *.
  assert (Hnd0 : NoDup (nodes g0)) by (rewrite Hflip; exact Hnd).
  assert (Hnodes1 : nodes (weighted g0) = nodes g)
    by (unfold weighted; rewrite for_each_node_nodes by exact Hnd0; exact Hflip).
  assert (Hedges1 : g_edges (weighted g0) = g_edges g)
    by (unfold weighted; rewrite for_each_node_map by exact Hnd0; exact Hflipe).
  set (g1 := weighted g0) in *.
  assert (Hnd1 : NoDup (nodes g1)) by (rewrite Hnodes1; exact Hnd).
  destruct (center o n_x g1) as [xcenter|]; [|discriminate].
  destruct (center o n_y g1) as [ycenter|]; [|discriminate].
  cbn [mbind option_bind].
  destruct (rescale_ratio st o xcenter ycenter g1) as [| |ratio|] eqn:Eratio;
    try discriminate.
  intros H. injection H as <-.
  split; [rewrite for_each_node_nodes by exact Hnd1; exact Hnodes1|].
  split; [rewrite for_each_node_map by exact Hnd1; exact Hedges1|].
  intros nid n' Hn'.
  rewrite (for_each_node_attributes _ _ _ Hnd1) in Hn'.
  destruct (getNodeAttributes g1 nid) as [n|] eqn:En; [|discriminate].
  simpl in Hn'. injection Hn' as <-.
  pose proof (attribute_listed g1 nid n Hnd1 En) as Hin.
  unfold rescale_ratio in Eratio.
  destruct (greatest_bounds (fun n => abs (n_x n - xcenter - n_size n)) g1)
    as [Hdx0 Hdx].
  destruct (greatest_bounds (fun n => abs (n_y n - ycenter - n_size n)) g1)
    as [Hdy0 Hdy].
  destruct (ratio_bounds _ _ _ _ _ Hw Hh Hdx0 Hdy0 Eratio) as (Hr & Hrx & Hry).
  specialize (Hdx n Hin). specialize (Hdy n Hin). cbv beta in Hdx, Hdy.
  destruct (abs_bounds (n_x n - xcenter - n_size n)) as (Hax0 & Hax1 & Hax2).
  destruct (abs_bounds (n_y n - ycenter - n_size n)) as (Hay0 & Hay1 & Hay2).
  set (dxmax := greatest (fun n => abs (n_x n - xcenter - n_size n)) g1) in *.
  set (dymax := greatest (fun n => abs (n_y n - ycenter - n_size n)) g1) in *.
  set (ax := abs (n_x n - xcenter - n_size n)) in *.
  set (ay := abs (n_y n - ycenter - n_size n)) in *.
  unfold resized. cbn [n_x n_y n_size].
  unfold inner_width, inner_height in *.
  set (ml := margin_px st (margin_left o)) in *.
  set (mr := margin_px st (margin_right o)) in *.
  set (mt := margin_px st (margin_top o)) in *.
  set (mb := margin_px st (margin_bottom o)) in *.
  set (W := inject_Z (dim_w st)) in *. set (H := inject_Z (dim_h st)) in *.
  set (x := n_x n) in *. set (y := n_y n) in *. set (s := n_size n) in *.
  pose proof (half (W - mr - ml)) as HhW. pose proof (half (H - mt - mb)) as HhH.
  assert (Hx1 : - ((W - mr - ml) / 2) <= (x - xcenter - s) * ratio) by nra.
  assert (Hx2 : (x - xcenter - s) * ratio <= (W - mr - ml) / 2) by nra.
  assert (Hy1 : - ((H - mt - mb) / 2) <= (y - ycenter - s) * ratio) by nra.
  assert (Hy2 : (y - ycenter - s) * ratio <= (H - mt - mb) / 2) by nra.
  repeat split; lra.
Qed.

(** The options of [renderFrame]: the vertical flip and margins of 2 mm. *)
Definition frame_options : options :=
  mkOptions false true None (Some 2) (Some 2) (Some 2) (Some 2).

Lemma rescaled_nodes_inside_margins_witness :
  NoDup (nodes VoronoiFacts.two_nodes)
  /\ 0 <= inner_width frame_settings frame_options
  /\ 0 <= inner_height frame_settings frame_options
  /\ exists g' : graph,
       rescaleGraphToGraphicSpace frame_settings frame_options
         VoronoiFacts.two_nodes = Some g'
       /\ nodes g' = nodes VoronoiFacts.two_nodes
       /\ g_edges g' = g_edges VoronoiFacts.two_nodes
       /\ (forall (nid : string) (n' : node),
              getNodeAttributes g' nid = Some n' ->
              margin_px frame_settings (margin_left frame_options)
              <= n_x n' - n_size n'
              /\ n_x n' - n_size n'
                 <= inject_Z (dim_w frame_settings)
                    - margin_px frame_settings (margin_right frame_options)
              /\ margin_px frame_settings (margin_top frame_options)
                 <= n_y n' - n_size n'
              /\ n_y n' - n_size n'
                 <= inject_Z (dim_h frame_settings)
                    - margin_px frame_settings (margin_bottom frame_options)).
Proof.
  assert (H1 : NoDup (nodes VoronoiFacts.two_nodes))
    by (apply (bool_decide_unpack _); vm_compute; reflexivity).
  assert (H2 : 0 <= inner_width frame_settings frame_options)
    by (vm_compute; discriminate).
  assert (H3 : 0 <= inner_height frame_settings frame_options)
    by (vm_compute; discriminate).
  split; [exact H1|]. split; [exact H2|]. split; [exact H3|].
  eexists. split; [vm_compute; reflexivity|].
  apply (rescaled_nodes_inside_margins frame_settings frame_options
           VoronoiFacts.two_nodes _ H1 H2 H3).
  vm_compute. reflexivity.
Defined.

(** A small node on the left and a large one on the right: the right
    extremity of the large node is past the width of the image. *)
Definition small_and_large : graph :=
  mkGraph [("a", mkNode "a" "A" 0 0 1 None);
           ("b", mkNode "b" "B" 10 0 5 None)]%string [].

Example large_node_overflows_right :
  exists (g' : graph) (n' : node),
    rescaleGraphToGraphicSpace frame_settings frame_options small_and_large
    = Some g'
    /\ getNodeAttributes g' "b" = Some n'
    /\ inject_Z (dim_w frame_settings) < n_x n' + n_size n'.
Proof.
  eexists. eexists. split; [vm_compute; reflexivity|].
  split; [vm_compute; reflexivity|]. vm_compute. reflexivity.
Qed.

End RescaleFacts.

(** ** The two maps of the Voronoi field together *)

Module FieldFacts.

Import JS Graph Render JSFacts GraphFacts RenderFacts VoronoiFacts.
Local Open Scope Z_scope.

Section Field.
Context {math : MathHost}.

Lemma claim_is_byte (width height : Z) (ratio vrange : Q) (n : node) (x y d : Z) :
  claims width height ratio vrange n x y = Some d -> 0 <= d < 255.
Proof.
  unfold claims.
  destruct (bool_decide _ && bool_decide _ && Qltb _ _)%bool eqn:E; [|discriminate].
  intros H. injection H as <-.
  apply andb_true_iff in E as [_ E]. apply Qltb_lt in E.
  apply dmod_stored. exact E.
Qed.

(** X21.  In the field of getVoronoiData every pixel has an owner and a
    stored distance, and the two agree: a pixel without owner (voronoi id
    0) holds the distance 255, and a pixel with an owner holds the voronoi
    id of a node of the graph and a distance between 0 and 254.  So the
    distance 255 marks exactly the pixels out of the range of every node. *)
Theorem field_distance_marks_owner (st : settings) (g : graph) (x y : Z) :
  NoDup (nodes g) ->
  Z.of_nat (order g) < 2 ^ 32 ->
  let v := snd (getVoronoiData st g) in
  0 <= x <= v_width v -> 0 <= y <= v_height v ->
  exists vid d : Z,
    read (vidPixelMap v) (x + (v_width v + 1) * y) = Some vid
    /\ read (dPixelMap v) (x + (v_width v + 1) * y) = Some d
    /\ ((vid = 0 /\ d = 255)
        \/ (1 <= vid <= Z.of_nat (order g) /\ 0 <= d <= 254)).
Proof.
  intros Hnd Hord. cbv zeta. unfold getVoronoiData.
  destruct (reduce (or_else (voronoi_resolution_max st) 100000000)
                   (dim_w st) (dim_h st)) as [[ratio width] height].
  set (vrange := (voronoi_range st * rendering_dpi st * inch_per_mm)%Q).
  set (bits := vid_bits (order (assign_vids g))).
  destruct (voronoi_nodes bits width height ratio vrange (assign_vids g) _)
    as [vmap dmap] eqn:Ev.
  cbn [fst snd v_width v_height v_ratio vidPixelMap dPixelMap].
  intros Hx Hy.
  pose proof (assign_vids_nodes g Hnd) as Hnodes.
  assert (Horder : order (assign_vids g) = order g)
    by (unfold order; rewrite Hnodes, length_imap; reflexivity).
  assert (Hbits : Z.of_nat (order g) < 2 ^ bits)
    by (unfold bits; rewrite Horder; apply vid_bits_fit; exact Hord).
  destruct (field_tracks_closest bits width height ratio vrange g x y
              Hnd Hbits Hx Hy) as (c & Hc & Ht).
  rewrite Ev in Hc. destruct c as [vid d].
  apply cell_reads in Hc as [Hvid Hd]. cbn [fst snd] in Hvid, Hd.
  exists vid, d. split; [exact Hvid|]. split; [exact Hd|].
  destruct (closest _) as [[kb db]|] eqn:Ec; simpl in Ht.
  - injection Ht as -> ->. right.
    pose proof (closest_in_range _ _ _ Ec) as Hk. rewrite length_map in Hk.
    unfold closest in Ec.
    pose proof (closest_from_least
                  (List.map (fun q => claims width height ratio vrange (snd q) x y)
                            (g_nodes g)) O None ltac:(discriminate)) as Hleast.
    rewrite Ec in Hleast. destruct Hleast as ([H | (j & _ & Hj)] & _); [discriminate|].
    change (List.map ?f ?l) with (f <$> l) in Hj.
    rewrite list_lookup_fmap in Hj.
    destruct (g_nodes g !! j) as [q|]; [|discriminate].
    simpl in Hj. injection Hj as Hj.
    apply claim_is_byte in Hj. unfold order. split; lia.
  - injection Ht as -> ->. left. auto.
Qed.

End Field.

Lemma field_distance_marks_owner_witness :
  NoDup (nodes two_nodes)
  /\ Z.of_nat (order two_nodes) < 2 ^ 32
  /\ 0 <= 10 <= v_width (snd (@getVoronoiData approx_math small_frame two_nodes))
  /\ 0 <= 0 <= v_height (snd (@getVoronoiData approx_math small_frame two_nodes))
  /\ exists vid d : Z,
       read (vidPixelMap (snd (@getVoronoiData approx_math small_frame two_nodes)))
            (10 + (v_width (snd (@getVoronoiData approx_math small_frame two_nodes)) + 1)
                  * 0) = Some vid
       /\ read (dPixelMap (snd (@getVoronoiData approx_math small_frame two_nodes)))
               (10 + (v_width (snd (@getVoronoiData approx_math small_frame two_nodes))
                      + 1) * 0) = Some d
       /\ ((vid = 0 /\ d = 255)
           \/ (1 <= vid <= Z.of_nat (order two_nodes) /\ 0 <= d <= 254)).
Proof.
  assert (H1 : NoDup (nodes two_nodes))
    by (apply (bool_decide_unpack _); vm_compute; reflexivity).
  assert (H2 : Z.of_nat (order two_nodes) < 2 ^ 32) by reflexivity.
  assert (H3 : 0 <= 10
               <= v_width (snd (@getVoronoiData approx_math small_frame two_nodes)))
    by (vm_compute; split; congruence).
  assert (H4 : 0 <= 0
               <= v_height (snd (@getVoronoiData approx_math small_frame two_nodes)))
    by (vm_compute; split; congruence).
  split; [exact H1|]. split; [exact H2|]. split; [exact H3|]. split; [exact H4|].
  exact (@field_distance_marks_owner approx_math small_frame two_nodes 10 0
           H1 H2 H3 H4).
Defined.

End FieldFacts.

(** ** The opacity of a layer *)

Module AlphaFacts.

Import JS Render Alpha JSFacts RenderFacts.
Local Open Scope Z_scope.

(** The byte written at [j]: the byte read, and for the fourth byte of a
    pixel the opacity times [alpha], rounded down. *)
Definition expected (pix : list Z) (alpha : Q) (j : Z) : option Z :=
  option_map (fun a => if (j mod 4 =? 3)
                       then clamped (Some (Qfloor (alpha * inject_Z a)))
                       else clamped (Some a))
             (read pix j).

Lemma length_write_clamped (a : list Z) (i : Z) (v : option Z) :
  length (write_clamped a i v) = length a.
Proof.
  unfold write_clamped. destruct (i <? 0); [reflexivity|].
  apply length_insert.
Qed.

Lemma read_write_clamped (a : list Z) (i j : Z) (v : option Z) :
  0 <= j ->
  read (write_clamped a i v) j
  = if (j =? i) && (j <? Z.of_nat (length a)) then Some (clamped v) else read a j.
Proof.
  intros Hj. unfold read, write_clamped.
  destruct (Z.ltb_spec j 0); [lia|].
  destruct (Z.eqb_spec j i) as [-> | Hne]; simpl.
  - destruct (Z.ltb_spec i 0); [lia|].
    destruct (Z.ltb_spec i (Z.of_nat (length a))).
    + apply list_lookup_insert_eq. lia.
    + rewrite list_insert_ge by lia. reflexivity.
  - destruct (Z.ltb_spec i 0); [reflexivity|].
    apply list_lookup_insert_ne. lia.
Qed.

Lemma alpha_step_length (pix : list Z) (alpha : Q) (pixo : list Z) (i : Z) :
  length (alpha_step pix alpha pixo i) = length pixo.
Proof. unfold alpha_step. rewrite !length_write_clamped. reflexivity. Qed.

Lemma alpha_step_read (pix : list Z) (alpha : Q) (pixo : list Z) (k j : Z) :
  length pixo = length pix ->
  0 <= j < Z.of_nat (length pix) ->
  read (alpha_step pix alpha pixo (4 * k)) j
  = if (j / 4 =? k) then expected pix alpha j else read pixo j.
Proof.
  intros Hlen Hj. unfold alpha_step. cbv zeta.
  rewrite !read_write_clamped by lia.
  rewrite !length_write_clamped, Hlen.
  assert (Hlt : (j <? Z.of_nat (length pix)) = true) by (apply Z.ltb_lt; lia).
  rewrite Hlt, !andb_true_r.
  pose proof (Z.div_mod j 4 ltac:(lia)) as Hdm.
  pose proof (Z.mod_pos_bound j 4 ltac:(lia)) as Hm.
  assert (Hread : exists a, read pix j = Some a).
  { unfold read. destruct (Z.ltb_spec j 0); [lia|].
    apply lookup_lt_is_Some_2. lia. }
  destruct Hread as [a Ha]. unfold expected. rewrite Ha. cbn [option_map].
  destruct (Z.eqb_spec (j / 4) k) as [Hk | Hk].
  - destruct (Z.eqb_spec j (4 * k + 3)) as [E3 | N3].
    { rewrite <- E3, Ha. cbn [option_map].
      assert (H3 : j mod 4 = 3) by lia. rewrite H3. reflexivity. }
    assert (Hmod : (j mod 4 =? 3) = false) by (apply Z.eqb_neq; lia).
    rewrite Hmod.
    destruct (Z.eqb_spec j (4 * k + 2)) as [E2 | N2]; [rewrite <- E2, Ha; reflexivity|].
    destruct (Z.eqb_spec j (4 * k + 1)) as [E1 | N1]; [rewrite <- E1, Ha; reflexivity|].
    destruct (Z.eqb_spec j (4 * k + 0)) as [E0 | N0]; [rewrite <- E0, Ha; reflexivity|].
    lia.
  - destruct (Z.eqb_spec j (4 * k + 3)); [lia|].
    destruct (Z.eqb_spec j (4 * k + 2)); [lia|].
    destruct (Z.eqb_spec j (4 * k + 1)); [lia|].
    destruct (Z.eqb_spec j (4 * k + 0)); [lia|]. reflexivity.
Qed.

Lemma alpha_fold_read (pix : list Z) (alpha : Q) (ks : list Z) :
  forall pixo : list Z,
    length pixo = length pix ->
    length (foldl (alpha_step pix alpha) pixo (List.map (fun k => 4 * k) ks))
    = length pix
    /\ forall j : Z,
         0 <= j < Z.of_nat (length pix) ->
         read (foldl (alpha_step pix alpha) pixo (List.map (fun k => 4 * k) ks)) j
         = if bool_decide (j / 4 ∈ ks) then expected pix alpha j else read pixo j.
Proof.
  induction ks as [|k ks IH]; intros pixo Hlen; simpl.
  - split; [exact Hlen|]. intros j Hj. reflexivity.
  - destruct (IH (alpha_step pix alpha pixo (4 * k))
                 ltac:(rewrite alpha_step_length; exact Hlen)) as [IH1 IH2].
    split; [exact IH1|]. intros j Hj. rewrite (IH2 j Hj).
    rewrite (alpha_step_read _ _ _ _ _ Hlen Hj).
    destruct (bool_decide (j / 4 ∈ ks)) eqn:E.
    + apply bool_decide_eq_true in E.
      rewrite bool_decide_eq_true_2 by (right; exact E). reflexivity.
    + apply bool_decide_eq_false in E.
      destruct (Z.eqb_spec (j / 4) k) as [Hk | Hk].
      * rewrite bool_decide_eq_true_2 by (rewrite Hk; left). reflexivity.
      * rewrite bool_decide_eq_false_2; [reflexivity|].
        intros H. apply elem_of_cons in H as [H | H]; [congruence | exact (E H)].
Qed.

(** X22.  multiplyAlpha on the data of an image (four bytes per pixel)
    returns data of the same length in which the three colour bytes of
    every pixel are copied and the opacity is floor(alpha * opacity),
    kept within 0..255.  With alpha = 1 the data are unchanged, and with
    0 <= alpha <= 1 no opacity increases. *)
Theorem multiplyAlpha_pixels (w h : Z) (pix : list Z) (alpha : Q) :
  0 <= w -> 0 <= h ->
  Z.of_nat (length pix) = 4 * w * h ->
  Forall (fun a => 0 <= a <= 255) pix ->
  length (multiplyAlpha w h pix alpha) = length pix
  /\ (forall j a : Z,
         read pix j = Some a ->
         read (multiplyAlpha w h pix alpha) j
         = Some (if (j mod 4 =? 3)
                 then Z.max 0 (Z.min 255 (Qfloor (alpha * inject_Z a)))
                 else a))
  /\ ((alpha == 1)%Q -> multiplyAlpha w h pix alpha = pix)
  /\ ((0 <= alpha)%Q -> (alpha <= 1)%Q ->
      forall j a b : Z,
        read pix j = Some a -> read (multiplyAlpha w h pix alpha) j = Some b ->
        0 <= b <= a).
Proof.
  intros Hw Hh Hlen Hbytes.
  assert (Hlen0 : length (new_array (4 * w * h)) = length pix).
  { unfold new_array. rewrite length_replicate. lia. }
  destruct (alpha_fold_read pix alpha (seqZ 0 (w * h)) _ Hlen0) as [H1 H2].
  fold (multiplyAlpha w h pix alpha) in H1, H2.
  assert (Hread : forall j a : Z,
             read pix j = Some a ->
             0 <= j < Z.of_nat (length pix) /\ 0 <= a <= 255).
  { intros j a Ha. unfold read in Ha.
    destruct (Z.ltb_spec j 0); [discriminate|].
    pose proof (lookup_lt_Some _ _ _ Ha) as Hlt.
    rewrite List.Forall_forall in Hbytes. split; [lia|].
    apply Hbytes. apply list_elem_of_In, list_elem_of_lookup. eauto. }
  assert (Hspec : forall j a : Z,
             read pix j = Some a ->
             read (multiplyAlpha w h pix alpha) j
             = Some (if (j mod 4 =? 3)
                     then Z.max 0 (Z.min 255 (Qfloor (alpha * inject_Z a)))
                     else a)).
  { intros j a Ha. destruct (Hread j a Ha) as [Hj Hbyte].
    rewrite (H2 j Hj).
    rewrite bool_decide_eq_true_2.
    - unfold expected. rewrite Ha. cbn [option_map clamped].
      destruct (j mod 4 =? 3); [reflexivity|]. f_equal. lia.
    - apply elem_of_seqZ.
      pose proof (Z.div_mod j 4 ltac:(lia)) as Hdm.
      pose proof (Z.mod_pos_bound j 4 ltac:(lia)) as Hm.
      split; [apply Z.div_pos; lia|].
      apply Z.div_lt_upper_bound; lia. }
  split; [exact H1|]. split; [exact Hspec|]. split.
  - intros Halpha. apply list_eq. intros i.
    destruct (pix !! i) as [a|] eqn:Ea.
    + assert (Ha : read pix (Z.of_nat i) = Some a).
      { unfold read. destruct (Z.ltb_spec (Z.of_nat i) 0); [lia|].
        rewrite Nat2Z.id. exact Ea. }
      pose proof (Hspec _ _ Ha) as Hout. destruct (Hread _ _ Ha) as [_ Hbyte].
      unfold read in Hout. destruct (Z.ltb_spec (Z.of_nat i) 0); [lia|].
      rewrite Nat2Z.id in Hout. rewrite Hout. f_equal.
      destruct (Z.of_nat i mod 4 =? 3); [|reflexivity].
      assert (Hq : (alpha * inject_Z a == inject_Z a)%Q) by (rewrite Halpha; ring).
      rewrite (Qfloor_comp _ _ Hq), Qfloor_Z. lia.
    + apply lookup_ge_None in Ea. apply lookup_ge_None. lia.
  - intros Ha0 Ha1 j a b Ha Hb.
    assert (Hbv : b = if (j mod 4 =? 3)
                      then Z.max 0 (Z.min 255 (Qfloor (alpha * inject_Z a)))
                      else a)
      by (rewrite (Hspec _ _ Ha) in Hb; congruence).
    rewrite Hbv. clear Hbv Hb.
    destruct (Hread _ _ Ha) as [_ Hbyte].
    destruct (j mod 4 =? 3); [|lia].
    assert (Hle : (alpha * inject_Z a <= inject_Z a)%Q).
    { assert (0 <= inject_Z a)%Q by (change 0%Q with (inject_Z 0); rewrite <- Zle_Qle; lia).
      nra. }
    pose proof (Qfloor_le (alpha * inject_Z a)) as Hfl.
    assert (Hfa : Qfloor (alpha * inject_Z a) <= a).
    { rewrite Zle_Qle. lra. }
    lia.
Qed.

Lemma multiplyAlpha_pixels_witness :
  0 <= 1 /\ 0 <= 2
  /\ Z.of_nat (length [10; 20; 30; 200; 1; 2; 3; 255]) = 4 * 1 * 2
  /\ Forall (fun a => 0 <= a <= 255) [10; 20; 30; 200; 1; 2; 3; 255]
  /\ length (multiplyAlpha 1 2 [10; 20; 30; 200; 1; 2; 3; 255] (1 # 2))
     = length [10; 20; 30; 200; 1; 2; 3; 255].
Proof.
  assert (H1 : 0 <= 1) by lia. assert (H2 : 0 <= 2) by lia.
  assert (H3 : Z.of_nat (length [10; 20; 30; 200; 1; 2; 3; 255]) = 4 * 1 * 2)
    by reflexivity.
  assert (H4 : Forall (fun a => 0 <= a <= 255) [10; 20; 30; 200; 1; 2; 3; 255])
    by (repeat constructor; lia).
  split; [exact H1|]. split; [exact H2|]. split; [exact H3|]. split; [exact H4|].
  exact (proj1 (multiplyAlpha_pixels 1 2 [10; 20; 30; 200; 1; 2; 3; 255] (1 # 2)
                  H1 H2 H3 H4)).
Defined.

End AlphaFacts.

(** ** A node along the slices *)

Module RunFacts.

Import JS Slicer SliceGexf JSFacts SlicerFacts SlicerCases DrawingOrder.
Local Open Scope Q_scope.

(** The empty slice of the window that starts at [a]. *)
Definition window (range a : Q) : slice :=
  mkSlice (Fin a) (Fin (a + range)) [] [].

Lemma slices_run_ascending (dmax range step : Q) (fuel : nat) :
  0 < step ->
  forall (i : Q) (starts : list Q) (slices : list slice),
    StronglySorted Qlt starts ->
    Forall (fun a => a < i) starts ->
    slices_run fuel (Fin dmax) (Fin range) (Fin step)
               (Fin i, List.map (window range) starts) = Some slices ->
    exists starts' : list Q,
      slices = List.map (window range) starts' /\ StronglySorted Qlt starts'.
Proof.
  intros Hstep. induction fuel as [|fuel IH]; intros i starts slices Hs Hlt Hrun;
    [discriminate|].
  rewrite slices_run_S in Hrun. unfold slices_step in Hrun. cbn [sub le add] in Hrun.
  destruct (Qle_bool i (dmax - range)).
  - change [mkSlice (Fin i) (Fin (i + range)) [] []]
      with (List.map (window range) [i]) in Hrun.
    rewrite <- List.map_app in Hrun.
    apply (IH (i + step) (starts ++ [i]) slices); [| |exact Hrun].
    + apply sorted_app; [exact Hs | repeat constructor |].
      intros x y Hx [<- | []]. rewrite List.Forall_forall in Hlt. apply Hlt. exact Hx.
    + apply Forall_app. split.
      * eapply List.Forall_impl; [|exact Hlt]. intros a Ha. simpl in Ha. lra.
      * constructor; [lra | constructor].
  - injection Hrun as <-. exists starts. auto.
Qed.

Section Membership.
Context {dates : DateHost}.

(** The own interval of an element overlaps the windows of a run of
    starts without gap. *)
Lemma overlaps_between (startDate endDate : num) (range a b c : Q) :
  a <= b -> b <= c ->
  overlaps startDate endDate (window range a) = true ->
  overlaps startDate endDate (window range c) = true ->
  overlaps startDate endDate (window range b) = true.
Proof.
  intros Hab Hbc. unfold overlaps, window. cbn [s_start s_end].
  rewrite !negb_true_iff, !orb_false_iff.
  intros [_ Ha] [Hc _]. split.
  - destruct endDate as [| |e|]; try reflexivity; simpl in *.
    + discriminate.
    + apply Qltb_ge in Hc. apply Qltb_ge. lra.
  - destruct startDate as [| |s|]; try reflexivity; simpl in *.
    + apply Qltb_ge in Ha. apply Qltb_ge. lra.
    + discriminate.
Qed.

(** X23.  On the slices of a positive stride, a node that carries an
    interval of its own is active in a run of consecutive slices: if it
    is in the slice i and in the slice k, it is in every slice between
    them. *)
Theorem own_interval_run_has_no_gap (timeformat : string) (nodeDomnode : domnode)
    (fuel : nat) (dmin dmax range step : Q) (slices : list slice)
    (i j k : nat) (si sj sk : slice) :
  0 < step ->
  build_slices fuel (Fin dmin) (Fin dmax) (Fin range) (Fin step) = Some slices ->
  has_interval nodeDomnode = true ->
  (i <= j)%nat -> (j <= k)%nat ->
  slices !! i = Some si -> slices !! j = Some sj -> slices !! k = Some sk ->
  active_interval timeformat nodeDomnode si = true ->
  active_interval timeformat nodeDomnode sk = true ->
  active_interval timeformat nodeDomnode sj = true.
Proof.
  intros Hstep Hrun Hown Hij Hjk Hi Hj Hk.
  destruct (slices_run_ascending dmax range step fuel Hstep dmin [] slices
              ltac:(constructor) ltac:(constructor) Hrun) as (starts & -> & Hsorted).
  change (List.map ?f ?l) with (f <$> l) in Hi, Hj, Hk.
  rewrite list_lookup_fmap in Hi, Hj, Hk.
  destruct (starts !! i) as [a|] eqn:Ea; [|discriminate].
  destruct (starts !! j) as [b|] eqn:Eb; [|discriminate].
  destruct (starts !! k) as [c|] eqn:Ec; [|discriminate].
  simpl in Hi, Hj, Hk. injection Hi as <-. injection Hj as <-. injection Hk as <-.
  assert (Hab : a <= b).
  { destruct (Nat.eq_dec i j) as [-> | Hne].
    - rewrite Ea in Eb. injection Eb as <-. lra.
    - apply Qlt_le_weak.
      apply (sorted_lookup Qlt starts Hsorted i j a b); [lia | assumption | assumption]. }
  assert (Hbc : b <= c).
  { destruct (Nat.eq_dec j k) as [-> | Hne].
    - rewrite Eb in Ec. injection Ec as <-. lra.
    - apply Qlt_le_weak.
      apply (sorted_lookup Qlt starts Hsorted j k b c); [lia | assumption | assumption]. }
  unfold active_interval, checkNodeSlice_interval.
  unfold has_interval in Hown. rewrite Hown.
  rewrite !overlap_interval_truthy. unfold interval_overlaps.
  unfold has_interval. rewrite Hown. cbn [andb].
  apply overlaps_between; assumption.
Qed.

Lemma window_overlaps (startDate endDate : num) (range q : Q) :
  lt endDate (Fin q) = false ->
  lt (Fin (q + range)) startDate = false ->
  overlaps startDate endDate (mkSlice (Fin q) (Fin (q + range)) [] []) = true.
Proof.
  intros H1 H2. unfold overlaps. cbn [s_start s_end]. rewrite H1, H2. reflexivity.
Qed.


End Membership.

Lemma own_interval_run_has_no_gap_witness :
  0 < 10
  /\ build_slices 5 (Fin 0) (Fin 40) (Fin 10) (Fin 10)
     = Some [window 10 0; window 10 10; window 10 20; window 10 30]
  /\ has_interval (Element "node" {[ "start" := "5"; "end" := "25" ]}%string []) = true
  /\ @active_interval no_dates "integer"
       (Element "node" {[ "start" := "5"; "end" := "25" ]}%string [])
       (window 10 10) = true.
Proof.
  assert (H1 : 0 < 10) by reflexivity.
  assert (H2 : build_slices 5 (Fin 0) (Fin 40) (Fin 10) (Fin 10)
               = Some [window 10 0; window 10 10; window 10 20; window 10 30])
    by (vm_compute; reflexivity).
  assert (H3 : has_interval (Element "node" {[ "start" := "5"; "end" := "25" ]}%string [])
               = true) by (vm_compute; reflexivity).
  split; [exact H1|]. split; [exact H2|]. split; [exact H3|].
  apply (@own_interval_run_has_no_gap no_dates "integer" _ 5 0 40 10 10 _
           0 1 2 (window 10 0) (window 10 10) (window 10 20) H1 H2 H3).
  - lia.
  - lia.
  - reflexivity.
  - reflexivity.
  - reflexivity.
  - vm_compute. reflexivity.
  - vm_compute. reflexivity.
Defined.


End RunFacts.
